(** * cmark-lua: the command-line driver [main.c]

    A shallow embedding of [main] and [print_document] of [src/main.c],
    the driver that parses markdown input with cmark, runs a chain of Lua
    filters over the parsed document and renders it.

    The driver is glue code around two external libraries (cmark and Lua)
    and the C library.  What these do is supplied by a [World]: the files
    that can be opened, the bytes on standard input, what each Lua chunk
    does, what each renderer returns.  [main] is a function from a
    [World] and an argument vector to the list of external calls it makes
    (its trace) and the way the process ends. *)

From Stdlib Require Import List ZArith String Ascii Bool Lia QArith FunInd.
From Stdlib.Strings Require Import Byte.
From Equations Require Import Equations.
Import ListNotations.

Local Open Scope string_scope.
Local Open Scope list_scope.
Local Open Scope Z_scope.

(** ** C library: [strtol], arrays obtained from [malloc] *)

Module LibC.

(** [isspace] in the C locale: space, and the controls \t \n \v \f \r. *)
Definition isspace (c : ascii) : bool :=
  let n := nat_of_ascii c in
  (n =? 32)%nat || ((9 <=? n)%nat && (n <=? 13)%nat).

Definition isdigit (c : ascii) : bool :=
  let n := nat_of_ascii c in
  (48 <=? n)%nat && (n <=? 57)%nat.

Definition digit_value (c : ascii) : Z := Z.of_nat (nat_of_ascii c) - 48.

Fixpoint skip_spaces (s : string) : string :=
  match s with
  | String c s' => if isspace c then skip_spaces s' else s
  | EmptyString => s
  end.

(** Reads the longest run of decimal digits at the front of [s];
    returns the number of digits, their value and the rest. *)
Fixpoint read_digits (s : string) (acc : Z) (count : nat)
  : nat * Z * string :=
  match s with
  | String c s' =>
      if isdigit c
      then read_digits s' (10 * acc + digit_value c) (S count)
      else (count, acc, s)
  | EmptyString => (count, acc, s)
  end.

(** [long] is 64 bits wide and [int] 32 bits wide (LP64). *)
Definition LONG_MAX : Z := 2 ^ 63 - 1.
Definition LONG_MIN : Z := - 2 ^ 63.

Definition clamp_long (v : Z) : Z :=
  if v >? LONG_MAX then LONG_MAX
  else if v <? LONG_MIN then LONG_MIN
  else v.

(** The conversion [(int)v] of a [long]: reduction modulo 2^32 into the
    signed range. *)
Definition int_of_long (v : Z) : Z :=
  let r := v mod 2 ^ 32 in
  if r <? 2 ^ 31 then r else r - 2 ^ 32.

(** A leading sign, or none. *)
Definition strip_sign (s : string) : string :=
  match s with
  | String c s' => if Ascii.eqb c "-" || Ascii.eqb c "+" then s' else s
  | EmptyString => s
  end.

(** [strtol(nptr, &endptr, 10)]: the value and the string [endptr]
    points at.  White space is skipped, then a sign, then the digits
    are read; when no digit is found the value is 0 and [endptr] is
    [nptr] itself. *)
Definition strtol (nptr : string) : Z * string :=
  let s := skip_spaces nptr in
  let negative :=
    match s with
    | String c _ => Ascii.eqb c "-"
    | EmptyString => false
    end in
  let '(count, v, rest) := read_digits (strip_sign s) 0 0 in
  match count with
  | O => (0, nptr)
  | S _ => (clamp_long (if negative then - v else v), rest)
  end.

(** An array of [int] as [malloc] returns it: every cell exists and
    holds no value yet. *)
Definition int_array := list (option Z).

Definition malloc (n : nat) : int_array := repeat None n.

Fixpoint set_nth (a : int_array) (n : nat) (v : Z) : int_array :=
  match a, n with
  | [], _ => []
  | _ :: a', O => Some v :: a'
  | x :: a', S n' => x :: set_nth a' n' v
  end.

(** [a[idx] = v]; [None] when [idx] is outside the allocated block. *)
Definition store (a : int_array) (idx : Z) (v : Z) : option int_array :=
  if (0 <=? idx) && (idx <? Z.of_nat (List.length a))
  then Some (set_nth a (Z.to_nat idx) v)
  else None.

(** The value of [a[idx]]; [None] when [idx] is outside the block or
    the cell was never written. *)
Definition load (a : int_array) (idx : Z) : option Z :=
  if 0 <=? idx
  then match nth_error a (Z.to_nat idx) with
       | Some (Some v) => Some v
       | _ => None
       end
  else None.

(** [argv[idx]] *)
Definition arg_at (argv : list string) (idx : Z) : option string :=
  if 0 <=? idx then nth_error argv (Z.to_nat idx) else None.

End LibC.

(** ** Lua values as the driver sees them *)

Inductive lua_Number :=
| Finite (q : Q)
| Infinity (negative : bool)
| NaN.

Inductive lua_value :=
| LuaNil
| LuaBoolean (b : bool)
| LuaNumber (n : lua_Number)
| LuaString (s : string)
| LuaChunk (path : string)      (* the compiled chunk of a file *)
| LuaNode                       (* the userdata [push_cmark_node] pushes *)
| LuaOther (id : string).       (* tables, functions, other userdata *)

Inductive writer_format :=
| FORMAT_NONE
| FORMAT_HTML
| FORMAT_XML
| FORMAT_MAN
| FORMAT_COMMONMARK
| FORMAT_LATEX.

(** ** The world outside the driver *)

Record World := {
  (** the state of a document tree in the heap *)
  cmark_node : Type;
  (** cmark.h *)
  CMARK_VERSION_STRING : string;
  CMARK_OPT_DEFAULT : Z;
  CMARK_OPT_SOURCEPOS : Z;
  CMARK_OPT_HARDBREAKS : Z;
  CMARK_OPT_SAFE : Z;
  CMARK_OPT_NORMALIZE : Z;
  CMARK_OPT_VALIDATE_UTF8 : Z;
  CMARK_OPT_SMART : Z;
  (** the tree [cmark_parser_finish] builds from a parser created with
      the given options and fed the given chunks, in order *)
  cmark_parse : Z -> list (list byte) -> cmark_node;
  cmark_render_html : cmark_node -> Z -> string;
  cmark_render_xml : cmark_node -> Z -> string;
  cmark_render_man : cmark_node -> Z -> Z -> string;
  cmark_render_commonmark : cmark_node -> Z -> Z -> string;
  cmark_render_latex : cmark_node -> Z -> Z -> string;
  (** [fopen(path, "r")]: the text of [strerror(errno)], or the bytes of
      the file *)
  fopen : string -> string + list byte;
  stdin : list byte;
  (** [luaL_loadfile] in state [L]: [Some msg] when the file does not
      load or compile; the error value it leaves on the stack is a
      message, a string *)
  luaL_loadfile : Z -> string -> option string;
  (** running the compiled chunk of a file with no argument: the error
      object the chunk raises, which [error] lets be any Lua value, or
      the value the chunk returns *)
  lua_chunk : Z -> string -> lua_value + lua_value;
  (** calling a value with arguments in state [L], on a document tree:
      the error object raised or the value returned, and the tree
      afterwards *)
  lua_call : Z -> lua_value -> list lua_value -> cmark_node ->
             (lua_value + lua_value) * cmark_node;
  (** Lua's conversion of a number to a string *)
  lua_number2str : lua_Number -> string;
  (** Lua's conversion of a string to a number, [None] when the string
      does not denote one *)
  lua_str2number : string -> option lua_Number;
  (** [main] declares [numfps] without an initializer: the value the
      variable holds when [main] starts *)
  numfps_indeterminate : Z
}.

(** ** Traces *)

Inductive event :=
| E_printf (s : string)
| E_fprintf_stderr (s : string)
| E_cmark_parser_new (options : Z)
| E_fopen (path : string)
| E_cmark_parser_feed (chunk : list byte)
| E_fclose (path : string)
| E_cmark_parser_finish
| E_cmark_parser_free
| E_luaL_newstate (L : Z)
| E_luaL_openlibs (L : Z)
| E_luaL_requiref (L : Z) (name : string)
| E_luaL_loadfile (L : Z) (path : string)
| E_lua_pcall (L : Z) (f : lua_value) (args : list lua_value)
              (result : lua_value + lua_value)
| E_lua_close (L : Z)
| E_cmark_render_html (options : Z)
| E_cmark_render_xml (options : Z)
| E_cmark_render_man (options width : Z)
| E_cmark_render_commonmark (options width : Z)
| E_cmark_render_latex (options width : Z)
| E_cmark_node_free
| E_free_files
| E_free_luafiles.

(** How the process ends: [exit(status)] or [return status] from [main],
    or a step whose behaviour C leaves undefined (an access outside an
    array, the use of a value never written, a null pointer printed
    with [%s]). *)
Inductive outcome :=
| Exit (status : Z)
| Undefined.

Inductive step (A : Type) :=
| Continue (a : A)
| Return (o : outcome).

Arguments Continue {A} a.
Arguments Return {A} o.

(** ** The driver *)

Definition nl : string := String (ascii_of_nat 10) EmptyString.

(** [strcmp(a, b) == 0] *)
Definition streq (a b : string) : bool := String.eqb a b.

(** Modelled from the spec: the macro [start_timer] of bench.h, which is
    not part of the sources; the spec gives the timing hooks no
    observable behaviour. *)
Definition start_timer : list event := [].

(** Modelled from the spec: the macro [end_timer] of bench.h, as
    [start_timer]. *)
Definition end_timer (what : string) : list event := [].

Definition print_usage : list event :=
  [ E_printf ("Usage:   cmark [FILE*]" ++ nl);
    E_printf ("Options:" ++ nl);
    E_printf ("  --to, -t FORMAT  Specify output format (html, xml, man, "
               ++ "commonmark, latex)" ++ nl);
    E_printf ("  --width WIDTH    Specify wrap width (default 0 = nowrap)" ++ nl);
    E_printf ("  --sourcepos      Include source position attribute" ++ nl);
    E_printf ("  --hardbreaks     Treat newlines as hard line breaks" ++ nl);
    E_printf ("  --safe           Suppress raw HTML and dangerous URLs" ++ nl);
    E_printf ("  --smart          Use smart punctuation" ++ nl);
    E_printf ("  --normalize      Consolidate adjacent text nodes" ++ nl);
    E_printf ("  --help, -h       Print usage information" ++ nl);
    E_printf ("  --version        Print version" ++ nl) ]%string.

(** [print_document]: the calls it makes, and [Some o] when it ends the
    process.  The only format number that reaches the [default] branch
    is that of [FORMAT_NONE], which is 0. *)
Definition print_document (w : World) (document : cmark_node w)
    (writer : writer_format) (options width : Z)
  : list event * option outcome :=
  match writer with
  | FORMAT_HTML =>
      ([E_cmark_render_html options;
        E_printf (cmark_render_html w document options)], None)
  | FORMAT_XML =>
      ([E_cmark_render_xml options;
        E_printf (cmark_render_xml w document options)], None)
  | FORMAT_MAN =>
      ([E_cmark_render_man options width;
        E_printf (cmark_render_man w document options width)], None)
  | FORMAT_COMMONMARK =>
      ([E_cmark_render_commonmark options width;
        E_printf (cmark_render_commonmark w document options width)], None)
  | FORMAT_LATEX =>
      ([E_cmark_render_latex options width;
        E_printf (cmark_render_latex w document options width)], None)
  | FORMAT_NONE =>
      ([E_fprintf_stderr ("Unknown format 0" ++ nl)%string], Some (Exit 1))
  end.

(** The local variables of [main] that the scan of the arguments sets.
    The counters and indices are [int]s that never leave the range from
    0 to [argc] without a store outside an array coming first, so they
    are kept as integers without wrap-around. *)
Record scan := {
  options : Z;
  width : Z;
  writer : writer_format;
  format : string;
  numfps : Z;
  numluafps : Z;
  files : LibC.int_array;
  luafiles : LibC.int_array
}.

Definition set_options (st : scan) (o : Z) : scan :=
  {| options := o; width := width st; writer := writer st;
     format := format st; numfps := numfps st; numluafps := numluafps st;
     files := files st; luafiles := luafiles st |}.

Definition set_width (st : scan) (v : Z) : scan :=
  {| options := options st; width := v; writer := writer st;
     format := format st; numfps := numfps st; numluafps := numluafps st;
     files := files st; luafiles := luafiles st |}.

Definition set_format (st : scan) (f : string) (wr : writer_format) : scan :=
  {| options := options st; width := width st; writer := wr;
     format := f; numfps := numfps st; numluafps := numluafps st;
     files := files st; luafiles := luafiles st |}.

Definition push_file (st : scan) (a : LibC.int_array) : scan :=
  {| options := options st; width := width st; writer := writer st;
     format := format st; numfps := numfps st + 1; numluafps := numluafps st;
     files := a; luafiles := luafiles st |}.

Definition push_luafile (st : scan) (a : LibC.int_array) : scan :=
  {| options := options st; width := width st; writer := writer st;
     format := format st; numfps := numfps st; numluafps := numluafps st + 1;
     files := files st; luafiles := a |}.

Inductive scan_result :=
| Scanned (st : scan)
| Stopped (tr : list event) (o : outcome).

(** The writer a format name selects, [None] for an unknown name. *)
Definition writer_of_name (name : string) : option writer_format :=
  if streq name "man" then Some FORMAT_MAN
  else if streq name "html" then Some FORMAT_HTML
  else if streq name "xml" then Some FORMAT_XML
  else if streq name "commonmark" then Some FORMAT_COMMONMARK
  else if streq name "latex" then Some FORMAT_LATEX
  else None.

Definition starts_with_dash (arg : string) : bool :=
  match arg with
  | String "-" _ => true
  | _ => false
  end.

(** The loop [for (i = 1; i < argc; i++)] over the arguments: [rest] is
    [argv] from index [i] on, so [i + 1 < argc] holds exactly when [rest]
    has a second element. *)
Fixpoint parse_args (w : World) (i : Z) (rest : list string) (st : scan)
    {struct rest} : scan_result :=
  match rest with
  | [] => Scanned st
  | arg :: rest' =>
      if streq arg "--version" then
        Stopped [E_printf ("cmark " ++ CMARK_VERSION_STRING w)%string;
                 E_printf (" - CommonMark converter" ++ nl
                           ++ "(C) 2014, 2015 John MacFarlane" ++ nl)%string]
                (Exit 0)
      else if streq arg "--sourcepos" then
        parse_args w (i + 1) rest'
          (set_options st (Z.lor (options st) (CMARK_OPT_SOURCEPOS w)))
      else if streq arg "--hardbreaks" then
        parse_args w (i + 1) rest'
          (set_options st (Z.lor (options st) (CMARK_OPT_HARDBREAKS w)))
      else if streq arg "--smart" then
        parse_args w (i + 1) rest'
          (set_options st (Z.lor (options st) (CMARK_OPT_SMART w)))
      else if streq arg "--safe" then
        parse_args w (i + 1) rest'
          (set_options st (Z.lor (options st) (CMARK_OPT_SAFE w)))
      else if streq arg "--normalize" then
        parse_args w (i + 1) rest'
          (set_options st (Z.lor (options st) (CMARK_OPT_NORMALIZE w)))
      else if streq arg "--validate-utf8" then
        parse_args w (i + 1) rest'
          (set_options st (Z.lor (options st) (CMARK_OPT_VALIDATE_UTF8 w)))
      else if streq arg "--lua" then
        match rest' with
        | _ :: rest'' =>
            match LibC.store (luafiles st) (numluafps st) (i + 1) with
            | Some a => parse_args w (i + 2) rest'' (push_luafile st a)
            | None => Stopped [] Undefined
            end
        | [] =>
            Stopped [E_fprintf_stderr ("No --lua file specified" ++ nl)%string]
                    (Exit 1)
        end
      else if streq arg "--help" || streq arg "-h" then
        Stopped print_usage (Exit 0)
      else if streq arg "--width" then
        match rest' with
        | value :: rest'' =>
            let '(v, unparsed) := LibC.strtol value in
            if (0 <? String.length unparsed)%nat then
              Stopped [E_fprintf_stderr
                         ("failed parsing width '" ++ value ++ "' at '"
                          ++ unparsed ++ "'" ++ nl)%string]
                      (Exit 1)
            else
              parse_args w (i + 2) rest'' (set_width st (LibC.int_of_long v))
        | [] =>
            Stopped [E_fprintf_stderr
                       ("--width requires an argument" ++ nl)%string]
                    (Exit 1)
        end
      else if streq arg "-t" || streq arg "--to" then
        match rest' with
        | name :: rest'' =>
            match writer_of_name name with
            | Some wr => parse_args w (i + 2) rest'' (set_format st name wr)
            | None =>
                Stopped [E_fprintf_stderr
                           ("Unknown format " ++ name ++ nl)%string]
                        (Exit 1)
            end
        | [] =>
            Stopped [E_fprintf_stderr
                       ("No argument provided for " ++ arg ++ nl)%string]
                    (Exit 1)
        end
      else if starts_with_dash arg then
        Stopped print_usage (Exit 1)
      else
        match LibC.store (files st) (numfps st) i with
        | Some a => parse_args w (i + 1) rest' (push_file st a)
        | None => Stopped [] Undefined
        end
  end.

(** *** Feeding the parser *)

(** [sizeof(buffer)] *)
Definition sizeof_buffer : nat := 4096.

Definition inspect {A : Type} (a : A) : {b : A | a = b} := exist _ a eq_refl.

(** The loop
    [while ((bytes = fread(buffer, 1, size, fp)) > 0)
       { cmark_parser_feed(parser, buffer, bytes);
         if (bytes < size) break; }]
    on a stream that still holds [stream]: [fread] delivers the next
    [size] bytes, or all that is left when fewer remain. *)
Equations? fread_loop (size : nat) (stream : list byte) : list event
  by wf (List.length stream) lt :=
  fread_loop size stream with inspect (firstn size stream) := {
    | exist _ [] _ => [];
    | exist _ (b :: chunk) e =>
        E_cmark_parser_feed (b :: chunk) ::
        (if (List.length (b :: chunk) <? size)%nat
         then []
         else fread_loop size (skipn size stream)) }.
Proof.
  rewrite length_skipn.
  destruct size as [|size]; [discriminate|].
  destruct stream as [|y stream]; [discriminate|].
  simpl. lia.
Qed.

Definition feed (stream : list byte) : list event :=
  fread_loop sizeof_buffer stream.

(** The chunks a trace feeds to the parser, in order. *)
Fixpoint fed (tr : list event) : list (list byte) :=
  match tr with
  | [] => []
  | E_cmark_parser_feed c :: tr' => c :: fed tr'
  | _ :: tr' => fed tr'
  end.

(** The loop [for (i = 0; i < numfps; i++)] with [n] iterations left. *)
Fixpoint read_files (w : World) (argv : list string) (st : scan)
    (n : nat) (i : Z) : list event * option outcome :=
  match n with
  | O => ([], None)
  | S n' =>
      match LibC.load (files st) i with
      | None => ([], Some Undefined)
      | Some idx =>
          match LibC.arg_at argv idx with
          | None => ([], Some Undefined)
          | Some path =>
              match fopen w path with
              | inl err =>
                  ([E_fopen path;
                    E_fprintf_stderr ("Error opening file " ++ path ++ ": "
                                      ++ err ++ nl)%string],
                   Some (Exit 1))
              | inr content =>
                  let '(tr, o) := read_files w argv st n' (i + 1) in
                  (E_fopen path ::
                   start_timer ++ feed content ++
                   end_timer "processing lines" ++ E_fclose path :: tr, o)
              end
          end
      end
  end.

(** The local variables as [main] declares them, and the two arrays it
    allocates.  [numfps] has no initializer. *)
Definition init_scan (w : World) (argc : nat) : scan :=
  {| options := CMARK_OPT_DEFAULT w; width := 0;
     writer := FORMAT_HTML; format := "html";
     numfps := numfps_indeterminate w; numluafps := 0;
     files := LibC.malloc argc; luafiles := LibC.malloc argc |}.

(** [main] up to the call of [cmark_parser_free]: the scan of the
    arguments, the files or standard input fed to the parser, the tree. *)
Definition parse_input (w : World) (argv : list string)
  : list event * step (scan * cmark_node w) :=
  match parse_args w 1 (tl argv) (init_scan w (List.length argv)) with
  | Stopped tr o => (tr, Return o)
  | Scanned st =>
      match read_files w argv st (Z.to_nat (numfps st)) 0 with
      | (tr, Some o) => (E_cmark_parser_new (options st) :: tr, Return o)
      | (tr, None) =>
          let tr' := tr ++ (if numfps st =? 0 then feed (stdin w) else []) in
          (E_cmark_parser_new (options st) :: tr' ++
           start_timer ++ E_cmark_parser_finish ::
           end_timer "finishing document" ++ [E_cmark_parser_free],
           Continue (st, cmark_parse w (options st) (fed tr')))
      end
  end.

(** *** The Lua stack *)

(** The stack of a Lua state, top first. *)
Definition lua_stack := list lua_value.

(** [lua_tostring(L, -1)]: the string itself, the text of a number, and
    the null pointer, for which [None] stands, for every other value. *)
Definition lua_tostring (w : World) (stack : lua_stack) : option string :=
  match stack with
  | LuaString s :: _ => Some s
  | LuaNumber n :: _ => Some (lua_number2str w n)
  | _ => None
  end.

(** [lua_isnumber(L, -1)]: a number, or a string convertible to one. *)
Definition lua_isnumber (w : World) (stack : lua_stack) : bool :=
  match stack with
  | LuaNumber _ :: _ => true
  | LuaString s :: _ =>
      match lua_str2number w s with Some _ => true | None => false end
  | _ => false
  end.

(** [lua_tonumber(L, -1)], 0 when the value is not a number. *)
Definition lua_tonumber (w : World) (stack : lua_stack) : lua_Number :=
  match stack with
  | LuaNumber n :: _ => n
  | LuaString s :: _ =>
      match lua_str2number w s with Some n => n | None => Finite 0 end
  | _ => Finite 0
  end.

(** [n == k] for an integer constant [k]. *)
Definition number_eq (n : lua_Number) (k : Z) : bool :=
  match n with
  | Finite q => Qeq_bool q (inject_Z k)
  | _ => false
  end.

(** Modelled from the spec: [push_cmark_node], which main.c declares
    [extern] and does not define; the specification has the filter
    receive "a reference handle to the current DocumentTree".  It pushes
    that handle. *)
Definition push_cmark_node (stack : lua_stack) : lua_stack :=
  LuaNode :: stack.

Definition lua_pushstring (s : string) (stack : lua_stack) : lua_stack :=
  LuaString s :: stack.

(** [lua_pcall(L, nargs, 1, 0)]: the function is the value below the
    [nargs] arguments; all are popped, and the result or the error
    object is pushed.  The boolean tells whether the status is
    non-zero.  [None] when the stack holds fewer than [nargs + 1]
    values. *)
Definition lua_pcall (w : World) (L : Z) (nargs : nat) (stack : lua_stack)
    (document : cmark_node w)
  : option (list event * bool * lua_stack * cmark_node w) :=
  let args := rev (firstn nargs stack) in
  match skipn nargs stack with
  | f :: below =>
      let '(r, document') :=
        match args with
        | [] =>
            match f with
            | LuaChunk path => (lua_chunk w L path, document)
            | _ => lua_call w L f args document
            end
        | _ :: _ => lua_call w L f args document
        end in
      match r with
      | inl e =>
          Some ([E_lua_pcall L f args r], true, e :: below, document')
      | inr v =>
          Some ([E_lua_pcall L f args r], false, v :: below, document')
      end
  | [] => None
  end.

(** [luaL_loadfile(L, path) || lua_pcall(L, 0, 1, 0)] on an empty
    stack. *)
Definition load_filter (w : World) (L : Z) (path : string)
    (document : cmark_node w)
  : option (list event * bool * lua_stack * cmark_node w) :=
  match luaL_loadfile w L path with
  | Some msg =>
      Some ([E_luaL_loadfile L path], true, [LuaString msg], document)
  | None =>
      match lua_pcall w L 0 [LuaChunk path] document with
      | Some (tr, status, stack, document') =>
          Some (E_luaL_loadfile L path :: tr, status, stack, document')
      | None => None
      end
  end.

(** The calls that open a Lua state and load the libraries:
    [luaL_newstate], [luaL_openlibs] and the two [luaL_requiref]. *)
Definition lua_setup (L : Z) : list event :=
  [E_luaL_newstate L; E_luaL_openlibs L;
   E_luaL_requiref L "utf8"; E_luaL_requiref L "cmark"].

(** The body of the loop over the filters, for the filter of index [i].
    Every iteration obtains its Lua state from [luaL_newstate]; the
    state of iteration [i] is named [i].  The message of a failure is
    [lua_tostring(L, -1)], which [main] hands to [fprintf] for a [%s]
    as it is: when it is the null pointer the behaviour is undefined. *)
Definition run_filter (w : World) (argv : list string) (st : scan) (i : Z)
    (document : cmark_node w) (skip_rendering : bool)
  : list event * step (cmark_node w * bool) :=
  let L := i in
  let setup := lua_setup L in
  match LibC.load (luafiles st) i with
  | None => (setup, Return Undefined)
  | Some idx =>
  match LibC.arg_at argv idx with
  | None => (setup, Return Undefined)
  | Some path =>
  match load_filter w L path document with
  | None => (setup, Return Undefined)
  | Some (tr1, true, stack, _) =>
      match lua_tostring w stack with
      | Some msg =>
          (setup ++ tr1 ++ [E_fprintf_stderr (msg ++ nl)%string],
           Return (Exit 3))
      | None => (setup ++ tr1, Return Undefined)
      end
  | Some (tr1, false, stack, document) =>
      let stack := lua_pushstring (format st) (push_cmark_node stack) in
      match lua_pcall w L 2 stack document with
      | None => (setup ++ tr1, Return Undefined)
      | Some (tr2, true, stack, _) =>
          match lua_tostring w stack with
          | Some msg =>
              (setup ++ tr1 ++ tr2 ++
               [E_fprintf_stderr ("Error running filter " ++ path ++ ": "
                                  ++ msg ++ nl)%string],
               Return (Exit 5))
          | None => (setup ++ tr1 ++ tr2, Return Undefined)
          end
      | Some (tr2, false, stack, document) =>
          let skip_rendering :=
            if lua_isnumber w stack
            then number_eq (lua_tonumber w stack) (-1)
            else skip_rendering in
          (setup ++ tr1 ++ tr2 ++ [E_lua_close L],
           Continue (document, skip_rendering))
      end
  end end end.

(** The loop [for (i = 0; i < numluafps; i++)] with [n] iterations
    left. *)
Fixpoint run_filters (w : World) (argv : list string) (st : scan)
    (n : nat) (i : Z) (document : cmark_node w) (skip_rendering : bool)
  : list event * step (cmark_node w * bool) :=
  match n with
  | O => ([], Continue (document, skip_rendering))
  | S n' =>
      match run_filter w argv st i document skip_rendering with
      | (tr, Return o) => (tr, Return o)
      | (tr, Continue (document, skip_rendering)) =>
          let '(tr', r) :=
            run_filters w argv st n' (i + 1) document skip_rendering in
          (tr ++ tr', r)
      end
  end.

(** [main] from the filter loop to its end, on the tree [document]. *)
Definition filter_and_render (w : World) (argv : list string) (st : scan)
    (document : cmark_node w) : list event * outcome :=
  match run_filters w argv st (Z.to_nat (numluafps st)) 0 document false with
  | (tr, Return o) => (tr, o)
  | (tr, Continue (document, skip_rendering)) =>
      let '(tr', stop) :=
        if negb skip_rendering
        then
          let '(tr', stop) :=
            print_document w document (writer st) (options st) (width st) in
          (start_timer ++ tr' ++ end_timer "print_document", stop)
        else ([], None) in
      match stop with
      | Some o => (tr ++ tr', o)
      | None =>
          (tr ++ tr' ++ start_timer ++ E_cmark_node_free ::
           end_timer "free_blocks" ++ [E_free_files; E_free_luafiles],
           Exit 0)
      end
  end.

Definition main (w : World) (argv : list string) : list event * outcome :=
  match parse_input w argv with
  | (tr, Return o) => (tr, o)
  | (tr, Continue (st, document)) =>
      let '(tr', o) := filter_and_render w argv st document in
      (tr ++ tr', o)
  end.

(** ** Observations on traces *)

Inductive kind :=
| K_stdout        (* output written to standard output *)
| K_stderr        (* output written to standard error *)
| K_read          (* creating and feeding the parser, opening files *)
| K_tree_new      (* [cmark_parser_finish]: the tree comes to exist *)
| K_parser_free
| K_lua           (* any call on a Lua state *)
| K_render        (* one of the five render operations *)
| K_tree_free     (* [cmark_node_free] *)
| K_free.

Definition kind_of (e : event) : kind :=
  match e with
  | E_printf _ => K_stdout
  | E_fprintf_stderr _ => K_stderr
  | E_cmark_parser_new _ | E_fopen _ | E_cmark_parser_feed _
  | E_fclose _ => K_read
  | E_cmark_parser_finish => K_tree_new
  | E_cmark_parser_free => K_parser_free
  | E_luaL_newstate _ | E_luaL_openlibs _ | E_luaL_requiref _ _
  | E_luaL_loadfile _ _ | E_lua_pcall _ _ _ _ | E_lua_close _ => K_lua
  | E_cmark_render_html _ | E_cmark_render_xml _ | E_cmark_render_man _ _
  | E_cmark_render_commonmark _ _ | E_cmark_render_latex _ _ => K_render
  | E_cmark_node_free => K_tree_free
  | E_free_files | E_free_luafiles => K_free
  end.

Definition kind_eqb (a b : kind) : bool :=
  match a, b with
  | K_stdout, K_stdout | K_stderr, K_stderr | K_read, K_read
  | K_tree_new, K_tree_new | K_parser_free, K_parser_free | K_lua, K_lua
  | K_render, K_render | K_tree_free, K_tree_free | K_free, K_free => true
  | _, _ => false
  end.

(** How many events of kind [k] a trace holds. *)
Definition count (k : kind) (tr : list event) : nat :=
  List.length (filter (fun e => kind_eqb (kind_of e) k) tr).

(** Every event of the trace is of one of the kinds [ks]. *)
Definition only (ks : list kind) (tr : list event) : Prop :=
  Forall (fun e => In (kind_of e) ks) tr.

(** The text a trace writes to standard output. *)
Fixpoint stdout_of (tr : list event) : string :=
  match tr with
  | [] => ""
  | E_printf s :: tr' => (s ++ stdout_of tr')%string
  | _ :: tr' => stdout_of tr'
  end.



(** The first [n] cells of [a] hold indices into an argument vector of
    [bound] entries. *)
Definition filled (a : LibC.int_array) (n bound : Z) : Prop :=
  forall k, 0 <= k < n ->
  exists idx, LibC.load a k = Some idx /\ 0 <= idx < bound.

(** [argv[luafiles[i]]], the file of the filter of index [i]. *)
Definition filter_path (argv : list string) (st : scan) (i : Z)
  : option string :=
  match LibC.load (luafiles st) i with
  | Some idx => LibC.arg_at argv idx
  | None => None
  end.

(** What a filter's return value makes of [skip_rendering]. *)
Definition render_control (w : World) (skip_rendering : bool) (v : lua_value)
  : bool :=
  if lua_isnumber w [v] then number_eq (lua_tonumber w [v]) (-1)
  else skip_rendering.

(** The ways one turn of the filter loop can go, with the calls it
    makes: there is no file name to read; the file does not load; its
    chunk raises; the value it returns raises when called; the call
    returns.  Where something is raised, the error object has a message
    or has none. *)
Inductive filter_run (w : World) (argv : list string) (st : scan) (i : Z)
    (document : cmark_node w) (skip_rendering : bool)
  : list event -> step (cmark_node w * bool) -> Prop :=
| FR_no_path :
    filter_path argv st i = None ->
    filter_run w argv st i document skip_rendering
      (lua_setup i) (Return Undefined)
| FR_load_error path msg :
    filter_path argv st i = Some path ->
    luaL_loadfile w i path = Some msg ->
    filter_run w argv st i document skip_rendering
      (lua_setup i ++
       [E_luaL_loadfile i path; E_fprintf_stderr (msg ++ nl)%string])
      (Return (Exit 3))
| FR_chunk_error path e msg :
    filter_path argv st i = Some path ->
    luaL_loadfile w i path = None ->
    lua_chunk w i path = inl e ->
    lua_tostring w [e] = Some msg ->
    filter_run w argv st i document skip_rendering
      (lua_setup i ++
       [E_luaL_loadfile i path; E_lua_pcall i (LuaChunk path) [] (inl e);
        E_fprintf_stderr (msg ++ nl)%string])
      (Return (Exit 3))
| FR_chunk_error_null path e :
    filter_path argv st i = Some path ->
    luaL_loadfile w i path = None ->
    lua_chunk w i path = inl e ->
    lua_tostring w [e] = None ->
    filter_run w argv st i document skip_rendering
      (lua_setup i ++
       [E_luaL_loadfile i path; E_lua_pcall i (LuaChunk path) [] (inl e)])
      (Return Undefined)
| FR_call_error path f e msg document' :
    filter_path argv st i = Some path ->
    luaL_loadfile w i path = None ->
    lua_chunk w i path = inr f ->
    lua_call w i f [LuaNode; LuaString (format st)] document
      = (inl e, document') ->
    lua_tostring w [e] = Some msg ->
    filter_run w argv st i document skip_rendering
      (lua_setup i ++
       [E_luaL_loadfile i path; E_lua_pcall i (LuaChunk path) [] (inr f);
        E_lua_pcall i f [LuaNode; LuaString (format st)] (inl e);
        E_fprintf_stderr ("Error running filter " ++ path ++ ": "
                          ++ msg ++ nl)%string])
      (Return (Exit 5))
| FR_call_error_null path f e document' :
    filter_path argv st i = Some path ->
    luaL_loadfile w i path = None ->
    lua_chunk w i path = inr f ->
    lua_call w i f [LuaNode; LuaString (format st)] document
      = (inl e, document') ->
    lua_tostring w [e] = None ->
    filter_run w argv st i document skip_rendering
      (lua_setup i ++
       [E_luaL_loadfile i path; E_lua_pcall i (LuaChunk path) [] (inr f);
        E_lua_pcall i f [LuaNode; LuaString (format st)] (inl e)])
      (Return Undefined)
| FR_return path f v document' :
    filter_path argv st i = Some path ->
    luaL_loadfile w i path = None ->
    lua_chunk w i path = inr f ->
    lua_call w i f [LuaNode; LuaString (format st)] document
      = (inr v, document') ->
    filter_run w argv st i document skip_rendering
      (lua_setup i ++
       [E_luaL_loadfile i path; E_lua_pcall i (LuaChunk path) [] (inr f);
        E_lua_pcall i f [LuaNode; LuaString (format st)] (inr v);
        E_lua_close i])
      (Continue (document', render_control w skip_rendering v)).

(** The ways the filter loop can go with [n] turns left: every turn
    returns, or one of them ends the process. *)
Inductive filters_run (w : World) (argv : list string) (st : scan)
  : nat -> Z -> cmark_node w -> bool ->
    list event -> step (cmark_node w * bool) -> Prop :=
| FS_done i document skip_rendering :
    filters_run w argv st O i document skip_rendering
      [] (Continue (document, skip_rendering))
| FS_stop n i document skip_rendering tr o :
    filter_run w argv st i document skip_rendering tr (Return o) ->
    filters_run w argv st (S n) i document skip_rendering tr (Return o)
| FS_next n i document skip_rendering tr document' skip_rendering' tr' r :
    filter_run w argv st i document skip_rendering tr
      (Continue (document', skip_rendering')) ->
    filters_run w argv st n (i + 1) document' skip_rendering' tr' r ->
    filters_run w argv st (S n) i document skip_rendering (tr ++ tr') r.

(** The last call of the trace is a protected call that raised an error
    object for which [lua_tostring] gives the null pointer. *)
Definition null_message (w : World) (tr : list event) : Prop :=
  exists tr0 L f args e,
    tr = tr0 ++ [E_lua_pcall L f args (inl e)] /\ lua_tostring w [e] = None.



(** The values the filters returned: the results of the calls with
    arguments. *)
Fixpoint filter_returns (tr : list event) : list lua_value :=
  match tr with
  | [] => []
  | E_lua_pcall _ _ (_ :: _) (inr v) :: tr' => v :: filter_returns tr'
  | _ :: tr' => filter_returns tr'
  end.


(** The shape of every run of [main]: it ends before it holds a tree; or
    a filter ends it; or all filters return and it renders, unless
    [skip_rendering] is set, frees the tree and returns 0. *)
Inductive run_shape (w : World) (argv : list string)
  : list event -> outcome -> Prop :=
| Run_no_tree tr o :
    parse_input w argv = (tr, Return o) ->
    run_shape w argv tr o
| Run_filter_stops tr_in st document tr_f o :
    parse_input w argv = (tr_in, Continue (st, document)) ->
    filters_run w argv st (Z.to_nat (numluafps st)) 0 document false
      tr_f (Return o) ->
    run_shape w argv (tr_in ++ tr_f) o
| Run_completes tr_in st document tr_f document' skip_rendering :
    parse_input w argv = (tr_in, Continue (st, document)) ->
    filters_run w argv st (Z.to_nat (numluafps st)) 0 document false
      tr_f (Continue (document', skip_rendering)) ->
    run_shape w argv
      (tr_in ++ tr_f ++
       (if skip_rendering then []
        else fst (print_document w document' (writer st) (options st)
                    (width st))) ++
       [E_cmark_node_free; E_free_files; E_free_luafiles])
      (Exit 0).


(** The number the latest filter with a numeric return value returned,
    among the values [vals] returned in turn; [None] when no value is
    numeric. *)
Definition most_recent_numeric (w : World) (vals : list lua_value)
  : option lua_Number :=
  match find (fun v => lua_isnumber w [v]) (rev vals) with
  | Some v => Some (lua_tonumber w [v])
  | None => None
  end.

(** ** A small world to run the driver in *)

Module Toy.

Definition text (s : string) : list byte := list_byte_of_string s.

(** The bytes of a tree are kept as they were fed; a filter that edits
    the tree is recorded by its name. *)
Record tree := {
  source : list (list byte);
  edits : list string
}.

Definition render (kind : string) (t : tree) : string :=
  (kind ++ ":" ++ string_of_list_byte (List.concat (source t))
   ++ String.concat "" (map (fun e => "+" ++ e) (edits t)))%string.

(** A renderer that wraps: the output records the width it was given
    when that width is positive. *)
Definition render_wrapped (kind : string) (t : tree) (width : Z) : string :=
  if 0 <? width then render (kind ++ "/wrapped")%string t else render kind t.

Definition files (path : string) : string + list byte :=
  if streq path "a.md" then inr (text "# Hi")
  else if streq path "b.md" then inr (text "there")
  else if streq path "big.md" then inr (repeat x61 5000)
  else if streq path "page.md" then inr (repeat x62 4096)
  else inl "No such file or directory".

Definition loadfile (L : Z) (path : string) : option string :=
  if streq path "syntax.lua" then Some "syntax.lua:1: unexpected symbol"
  else None.

(** broken.lua raises a message when its chunk runs; table.lua raises
    a table there, [error({})]. *)
Definition chunk (L : Z) (path : string) : lua_value + lua_value :=
  if streq path "broken.lua"
  then inl (LuaString "broken.lua:1: attempt to index a nil value")
  else if streq path "table.lua" then inl (LuaOther "table")
  else inr (LuaOther path).

Definition call (L : Z) (f : lua_value) (args : list lua_value) (t : tree)
  : (lua_value + lua_value) * tree :=
  match f with
  | LuaOther name =>
      let t' := {| source := source t; edits := edits t ++ [name] |} in
      if streq name "skip.lua" then (inr (LuaNumber (Finite (-1))), t')
      else if streq name "zero.lua" then (inr (LuaNumber (Finite 0)), t')
      else if streq name "text.lua" then (inr (LuaString "-1"), t')
      else if streq name "raise.lua"
      then (inl (LuaString "raise.lua:3: boom"), t')
      else if streq name "code.lua" then (inl (LuaNumber (Finite 42)), t')
      else if streq name "nomessage.lua" then (inl LuaNil, t')
      else (inr LuaNil, t')
  | _ => (inl (LuaString "attempt to call a non-function value"), t)
  end.

Definition number2str (n : lua_Number) : string :=
  match n with
  | Finite q =>
      if Qeq_bool q (inject_Z 42) then "42"
      else if Qeq_bool q (inject_Z 0) then "0"
      else if Qeq_bool q (inject_Z (-1)) then "-1"
      else "number"
  | Infinity false => "inf"
  | Infinity true => "-inf"
  | NaN => "nan"
  end.

Definition str2number (s : string) : option lua_Number :=
  if streq s "-1" then Some (Finite (-1))
  else if streq s "0" then Some (Finite 0)
  else None.

(** The world, given the value [numfps] happens to hold at the start of
    [main] and the bytes on standard input. *)
Definition world (garbage : Z) (input : list byte) : World :=
  {| cmark_node := tree;
     CMARK_VERSION_STRING := "0.26.1";
     CMARK_OPT_DEFAULT := 0;
     CMARK_OPT_SOURCEPOS := 2;
     CMARK_OPT_HARDBREAKS := 4;
     CMARK_OPT_SAFE := 8;
     CMARK_OPT_NORMALIZE := 256;
     CMARK_OPT_VALIDATE_UTF8 := 512;
     CMARK_OPT_SMART := 1024;
     cmark_parse := fun _ chunks => {| source := chunks; edits := [] |};
     cmark_render_html := fun t _ => render "html" t;
     cmark_render_xml := fun t _ => render "xml" t;
     cmark_render_man := fun t _ => render_wrapped "man" t;
     cmark_render_commonmark := fun t _ => render_wrapped "commonmark" t;
     cmark_render_latex := fun t _ => render_wrapped "latex" t;
     fopen := files;
     stdin := input;
     luaL_loadfile := loadfile;
     lua_chunk := chunk;
     lua_call := call;
     lua_number2str := number2str;
     lua_str2number := str2number;
     numfps_indeterminate := garbage |}.

(** The local variables of [main] after the scan of the arguments
    [args], the first of them at index 1, with arrays of [argc] cells. *)
Definition scan_of (w : World) (argc : nat) (args : list string) : scan :=
  match parse_args w 1 args (init_scan w argc) with
  | Scanned st => st
  | Stopped _ _ => init_scan w argc
  end.

(** The local variables of [main] after the scan of [argv]. *)
Definition scanned (w : World) (argv : list string) : scan :=
  scan_of w (List.length argv) (tl argv).

End Toy.

(** ** The properties as the specification words them *)

(** "Exactly one DocumentTree is created and exactly one is destroyed
    per run, regardless of which terminal path is taken", for a run that
    reaches [cmark_parser_finish]. *)
Definition tree_destroyed_on_every_path (w : World) (argv : list string)
  : Prop :=
  let tr := fst (main w argv) in
  In E_cmark_parser_finish tr ->
  count K_tree_new tr = 1%nat /\ count K_tree_free tr = 1%nat.


(** The filter of index [i] fails to load: its file does not compile, or
    its chunk raises when run; [msg] is the message of the failure. *)
Definition load_failure (w : World) (argv : list string) (st : scan)
    (i : Z) (msg : string) : Prop :=
  exists path,
    filter_path argv st i = Some path /\
    (luaL_loadfile w i path = Some msg \/
     (luaL_loadfile w i path = None /\
      exists e, lua_chunk w i path = inl e /\ lua_tostring w [e] = Some msg)).

(** The filter of index [i] loads, and raises an error object that has
    a message when it is invoked on the tree [document]; [diagnostic]
    is the text [main] prints then. *)
Definition invocation_failure (w : World) (argv : list string) (st : scan)
    (i : Z) (document : cmark_node w) (diagnostic : string) : Prop :=
  exists path f e msg document',
    filter_path argv st i = Some path /\
    luaL_loadfile w i path = None /\
    lua_chunk w i path = inr f /\
    lua_call w i f [LuaNode; LuaString (format st)] document
      = (inl e, document') /\
    lua_tostring w [e] = Some msg /\
    diagnostic = ("Error running filter " ++ path ++ ": " ++ msg ++ nl)%string.

(** The filter of index [i] raises an error object for which
    [lua_tostring] gives the null pointer, when its chunk is run or when
    it is invoked on the tree [document]. *)
Definition error_without_message (w : World) (argv : list string) (st : scan)
    (i : Z) (document : cmark_node w) : Prop :=
  exists path,
    filter_path argv st i = Some path /\
    luaL_loadfile w i path = None /\
    ((exists e, lua_chunk w i path = inl e /\ lua_tostring w [e] = None) \/
     (exists f e document',
        lua_chunk w i path = inr f /\
        lua_call w i f [LuaNode; LuaString (format st)] document
          = (inl e, document') /\
        lua_tostring w [e] = None)).

(** "Formats without a wrap concept ignore it": for html, xml and man
    the text written is the same for every width as for width 0. *)
Definition width_ignored_outside_reflow_formats (w : World) : Prop :=
  forall (document : cmark_node w) writer options width,
    In writer [FORMAT_HTML; FORMAT_XML; FORMAT_MAN] ->
    stdout_of (fst (print_document w document writer options width)) =
    stdout_of (fst (print_document w document writer options 0)).

Fixpoint all_digits (s : string) : bool :=
  match s with
  | EmptyString => true
  | String c s' => LibC.isdigit c && all_digits s'
  end.

(** A valid integer, as [strtol] reads integers: optional white space,
    an optional sign, and one or more decimal digits. *)
Definition valid_integer (s : string) : bool :=
  let digits := LibC.strip_sign (LibC.skip_spaces s) in
  negb (streq digits "") && all_digits digits.

(** "Non-numeric value is a fatal usage error", for every command line
    that holds [--width] followed by an argument that is not a valid
    integer. *)
Definition bad_width_is_fatal (w : World) (argv : list string) : Prop :=
  forall pre value post,
    tl argv = pre ++ "--width" :: value :: post ->
    valid_integer value = false ->
    exists msg, main w argv = ([E_fprintf_stderr msg], Exit 1).

(** The input protocol of the specification, for a list of paths: open
    each file in turn, feed its content in chunks, close it; a file that
    cannot be opened is fatal. *)
Fixpoint read_paths (w : World) (paths : list string)
  : list event * option outcome :=
  match paths with
  | [] => ([], None)
  | path :: paths' =>
      match fopen w path with
      | inl err =>
          ([E_fopen path;
            E_fprintf_stderr ("Error opening file " ++ path ++ ": "
                              ++ err ++ nl)%string],
           Some (Exit 1))
      | inr content =>
          let '(tr, o) := read_paths w paths' in
          (E_fopen path :: feed content ++ E_fclose path :: tr, o)
      end
  end.

(** The positional FILE arguments of a command line that the scan
    accepts, in the order given: what is neither a flag nor the value of
    [--lua], [--width], [-t] or [--to]. *)
Fixpoint positional (rest : list string) : list string :=
  match rest with
  | [] => []
  | arg :: rest' =>
      if streq arg "--sourcepos" || streq arg "--hardbreaks"
         || streq arg "--smart" || streq arg "--safe"
         || streq arg "--normalize" || streq arg "--validate-utf8"
      then positional rest'
      else if streq arg "--lua" || streq arg "--width"
              || (streq arg "-t" || streq arg "--to")
      then match rest' with
           | _ :: rest'' => positional rest''
           | [] => []
           end
      else if starts_with_dash arg then []
      else arg :: positional rest'
  end.

(** [argv[a[k]]] *)
Definition file_name (argv : list string) (a : LibC.int_array) (k : nat)
  : option string :=
  match LibC.load a (Z.of_nat k) with
  | Some idx => LibC.arg_at argv idx
  | None => None
  end.

(** The first cells of [a] name the files [paths], in order. *)
Definition names (argv : list string) (a : LibC.int_array)
    (paths : list string) : Prop :=
  forall k, (k < List.length paths)%nat ->
            file_name argv a k = nth_error paths k.

(** ** Induction on the scan, tactics *)

Functional Scheme parse_args_ind := Induction for parse_args Sort Prop.

(** Proves [only ks tr] for a trace written out event by event. *)
Ltac only_events :=
  repeat (apply Forall_cons; [simpl; tauto|]); try apply Forall_nil.

(** Proves that a kind is not among those listed. *)
Ltac not_listed := simpl; intuition discriminate.

(** Rewrites the tests of the branch of [parse_args] at hand. *)
Ltac take_branch :=
  repeat match goal with
  | E : ?b = _ |- context [if ?b then _ else _] => rewrite E
  | E : ?x = _ |- context [match ?x with _ => _ end] => rewrite E
  end.

(** Rewrites the tests of [positional] with those of the branch of
    [parse_args] at hand. *)
Ltac same_branch :=
  cbn [positional];
  repeat match goal with
  | E : streq ?a ?s = _ |- context [streq ?a ?s] => rewrite E
  | E : streq ?a ?s || streq ?a ?t = _
    |- context [streq ?a ?s || streq ?a ?t] => rewrite E
  | E : starts_with_dash ?a = _ |- context [starts_with_dash ?a] => rewrite E
  end;
  cbn [orb].

(** ** Further observations *)

(** The bytes [fopen] delivers for a path, none when the file cannot be
    opened. *)
Definition contents (w : World) (path : string) : list byte :=
  match fopen w path with
  | inr c => c
  | inl _ => []
  end.

(** The input of a run that names the files [paths]: their bytes in
    order, or those of standard input when no file is named. *)
Definition input_bytes (w : World) (paths : list string) : list byte :=
  match paths with
  | [] => stdin w
  | _ :: _ => List.concat (map (contents w) paths)
  end.

(** The files named after [--lua] on a command line that the scan
    accepts, in the order given. *)
Fixpoint lua_files (rest : list string) : list string :=
  match rest with
  | [] => []
  | arg :: rest' =>
      if streq arg "--sourcepos" || streq arg "--hardbreaks"
         || streq arg "--smart" || streq arg "--safe"
         || streq arg "--normalize" || streq arg "--validate-utf8"
      then lua_files rest'
      else if streq arg "--lua"
      then match rest' with
           | file :: rest'' => file :: lua_files rest''
           | [] => []
           end
      else if streq arg "--width" || (streq arg "-t" || streq arg "--to")
      then match rest' with
           | _ :: rest'' => lua_files rest''
           | [] => []
           end
      else if starts_with_dash arg then []
      else lua_files rest'
  end.

(** The files a trace loads, each with the Lua state it is loaded in. *)
Fixpoint loaded (tr : list event) : list (Z * string) :=
  match tr with
  | [] => []
  | E_luaL_loadfile L path :: tr' => (L, path) :: loaded tr'
  | _ :: tr' => loaded tr'
  end.

(** The files [l] with the numbers [i], [i + 1], ... *)
Fixpoint numbered (i : Z) (l : list string) : list (Z * string) :=
  match l with
  | [] => []
  | path :: l' => (i, path) :: numbered (i + 1) l'
  end.

(** Rewrites the tests of [lua_files] with those of the branch of
    [parse_args] at hand. *)
Ltac same_branch_lua :=
  cbn [lua_files];
  repeat match goal with
  | E : streq ?a ?s = _ |- context [streq ?a ?s] => rewrite E
  | E : streq ?a ?s || streq ?a ?t = _
    |- context [streq ?a ?s || streq ?a ?t] => rewrite E
  | E : starts_with_dash ?a = _ |- context [starts_with_dash ?a] => rewrite E
  end;
  cbn [orb].

(** The render call of a writer. *)
Definition render_call (wr : writer_format) (options width : Z)
  : option event :=
  match wr with
  | FORMAT_HTML => Some (E_cmark_render_html options)
  | FORMAT_XML => Some (E_cmark_render_xml options)
  | FORMAT_MAN => Some (E_cmark_render_man options width)
  | FORMAT_COMMONMARK => Some (E_cmark_render_commonmark options width)
  | FORMAT_LATEX => Some (E_cmark_render_latex options width)
  | FORMAT_NONE => None
  end.

(** Every bit of [m] is set in [x]. *)
Definition covers (x m : Z) : Prop :=
  forall n, Z.testbit m n = true -> Z.testbit x n = true.

(** The bits an argument stands for when it is one of the six option
    flags, 0 otherwise. *)
Definition option_bits (w : World) (arg : string) : Z :=
  if streq arg "--sourcepos" then CMARK_OPT_SOURCEPOS w
  else if streq arg "--hardbreaks" then CMARK_OPT_HARDBREAKS w
  else if streq arg "--smart" then CMARK_OPT_SMART w
  else if streq arg "--safe" then CMARK_OPT_SAFE w
  else if streq arg "--normalize" then CMARK_OPT_NORMALIZE w
  else if streq arg "--validate-utf8" then CMARK_OPT_VALIDATE_UTF8 w
  else 0.

Definition is_option_flag (arg : string) : bool :=
  streq arg "--sourcepos" || streq arg "--hardbreaks"
  || streq arg "--smart" || streq arg "--safe"
  || streq arg "--normalize" || streq arg "--validate-utf8".

(** The arguments that [main] knows. *)
Definition known_options : list string :=
  ["--version"; "--sourcepos"; "--hardbreaks"; "--smart"; "--safe";
   "--normalize"; "--validate-utf8"; "--lua"; "--help"; "-h"; "--width";
   "-t"; "--to"].

(** The names of the five output formats. *)
Definition format_names : list string :=
  ["man"; "html"; "xml"; "commonmark"; "latex"].

(** The calls that read input: opening, feeding, closing. *)
Definition reading (e : event) : Prop :=
  match e with
  | E_fopen _ | E_cmark_parser_feed _ | E_fclose _ => True
  | _ => False
  end.

(** ** The filters as the specification has them run *)

(** The calls with two arguments that the specification has [main] make
    for the filter files [paths], the first of them in the Lua state [i]
    and on the tree [document]: "invoke the loaded unit with exactly two
    arguments: a reference handle to the current DocumentTree and the
    resolved format name as text".  Each filter that loads is called on
    the tree as the filter before it has left it; the chain ends at the
    first filter that does not load or that raises. *)
Fixpoint invocations (w : World) (fmt : string) (i : Z) (paths : list string)
    (document : cmark_node w) : list event :=
  match paths with
  | [] => []
  | path :: paths' =>
      match luaL_loadfile w i path, lua_chunk w i path with
      | None, inr f =>
          match lua_call w i f [LuaNode; LuaString fmt] document with
          | (inr v, document') =>
              E_lua_pcall i f [LuaNode; LuaString fmt] (inr v) ::
              invocations w fmt (i + 1) paths' document'
          | (inl e, _) => [E_lua_pcall i f [LuaNode; LuaString fmt] (inl e)]
          end
      | _, _ => []
      end
  end.

(** The tree the filters [paths] leave when each of them loads and
    returns; [None] when one of them fails. *)
Fixpoint filtered (w : World) (fmt : string) (i : Z) (paths : list string)
    (document : cmark_node w) : option (cmark_node w) :=
  match paths with
  | [] => Some document
  | path :: paths' =>
      match luaL_loadfile w i path, lua_chunk w i path with
      | None, inr f =>
          match lua_call w i f [LuaNode; LuaString fmt] document with
          | (inr _, document') => filtered w fmt (i + 1) paths' document'
          | (inl _, _) => None
          end
      | _, _ => None
      end
  end.

(** The calls with arguments of a trace. *)
Fixpoint invoked (tr : list event) : list event :=
  match tr with
  | [] => []
  | E_lua_pcall L f (a :: args) r :: tr' =>
      E_lua_pcall L f (a :: args) r :: invoked tr'
  | _ :: tr' => invoked tr'
  end.

(** The number the latest filter that returned a number returned, among
    the values [vals] returned in turn. *)
Definition most_recent_number (vals : list lua_value) : option lua_Number :=
  match find (fun v => match v with LuaNumber _ => true | _ => false end)
             (rev vals) with
  | Some (LuaNumber n) => Some n
  | _ => None
  end.

(** "RenderControl is SKIP if and only if the most recent filter that
    returned a numeric result returned exactly -1 ... a non-numeric
    return leaves RenderControl at its current value", a numeric result
    being a number. *)
Definition skip_follows_latest_number (w : World) (argv : list string)
  : Prop :=
  forall tr_in st document tr_f document' skip_rendering,
    parse_input w argv = (tr_in, Continue (st, document)) ->
    run_filters w argv st (Z.to_nat (numluafps st)) 0 document false
      = (tr_f, Continue (document', skip_rendering)) ->
    (skip_rendering = true <->
     exists x, most_recent_number (filter_returns tr_f) = Some x /\
               number_eq x (-1) = true).

(** * Properties *)

(** ** Sample runs *)

Example strtol_reads_a_prefix :
  LibC.strtol " -12abc" = (-12, "abc") /\ LibC.strtol "  " = (0, "  ") /\
  LibC.strtol "" = (0, "") /\
  LibC.strtol "99999999999999999999" = (LibC.LONG_MAX, "").
Proof. vm_compute. auto. Qed.

Example feed_splits_a_long_file :
  map (@List.length byte) (fed (feed (repeat x61 5000))) = [4096; 904]%nat /\
  map (@List.length byte) (fed (feed (repeat x62 4096))) = [4096]%nat /\
  fed (feed []) = [].
Proof. vm_compute. auto. Qed.

Example run_two_files_and_two_filters :
  main (Toy.world 0 [])
    ["cmark"; "a.md"; "--lua"; "skip.lua"; "b.md"; "--lua"; "zero.lua"]
  = ([E_cmark_parser_new 0;
      E_fopen "a.md"; E_cmark_parser_feed (Toy.text "# Hi"); E_fclose "a.md";
      E_fopen "b.md"; E_cmark_parser_feed (Toy.text "there"); E_fclose "b.md";
      E_cmark_parser_finish; E_cmark_parser_free;
      E_luaL_newstate 0; E_luaL_openlibs 0; E_luaL_requiref 0 "utf8";
      E_luaL_requiref 0 "cmark"; E_luaL_loadfile 0 "skip.lua";
      E_lua_pcall 0 (LuaChunk "skip.lua") [] (inr (LuaOther "skip.lua"));
      E_lua_pcall 0 (LuaOther "skip.lua") [LuaNode; LuaString "html"]
        (inr (LuaNumber (Finite (-1))));
      E_lua_close 0;
      E_luaL_newstate 1; E_luaL_openlibs 1; E_luaL_requiref 1 "utf8";
      E_luaL_requiref 1 "cmark"; E_luaL_loadfile 1 "zero.lua";
      E_lua_pcall 1 (LuaChunk "zero.lua") [] (inr (LuaOther "zero.lua"));
      E_lua_pcall 1 (LuaOther "zero.lua") [LuaNode; LuaString "html"]
        (inr (LuaNumber (Finite 0)));
      E_lua_close 1;
      E_cmark_render_html 0; E_printf "html:# Hithere+skip.lua+zero.lua";
      E_cmark_node_free; E_free_files; E_free_luafiles],
     Exit 0).
Proof. vm_compute. reflexivity. Qed.

Example numeric_string_skips_rendering :
  stdout_of (fst (main (Toy.world 0 []) ["cmark"; "a.md"; "--lua"; "text.lua"]))
  = "" /\
  snd (main (Toy.world 0 []) ["cmark"; "a.md"; "--lua"; "text.lua"]) = Exit 0.
Proof. vm_compute. auto. Qed.

Example error_number_is_printed_as_text :
  main (Toy.world 0 (Toy.text "# Hi")) ["cmark"; "--lua"; "code.lua"]
  = ([E_cmark_parser_new 0; E_cmark_parser_feed (Toy.text "# Hi");
      E_cmark_parser_finish; E_cmark_parser_free;
      E_luaL_newstate 0; E_luaL_openlibs 0; E_luaL_requiref 0 "utf8";
      E_luaL_requiref 0 "cmark"; E_luaL_loadfile 0 "code.lua";
      E_lua_pcall 0 (LuaChunk "code.lua") [] (inr (LuaOther "code.lua"));
      E_lua_pcall 0 (LuaOther "code.lua") [LuaNode; LuaString "html"]
        (inl (LuaNumber (Finite 42)));
      E_fprintf_stderr ("Error running filter code.lua: 42" ++ nl)%string],
     Exit 5).
Proof. vm_compute. reflexivity. Qed.

Example missing_file_is_fatal :
  main (Toy.world 0 []) ["cmark"; "a.md"; "nope.md"; "b.md"]
  = ([E_cmark_parser_new 0;
      E_fopen "a.md"; E_cmark_parser_feed (Toy.text "# Hi"); E_fclose "a.md";
      E_fopen "nope.md";
      E_fprintf_stderr ("Error opening file nope.md: No such file or directory"
                        ++ nl)%string],
     Exit 1).
Proof. vm_compute. reflexivity. Qed.

(** ** General facts *)

Lemma count_app k tr1 tr2 : count k (tr1 ++ tr2) = (count k tr1 + count k tr2)%nat.
Proof. unfold count. rewrite filter_app, length_app. reflexivity. Qed.

Lemma count_cons k e tr :
  count k (e :: tr) =
  ((if kind_eqb (kind_of e) k then 1 else 0) + count k tr)%nat.
Proof. unfold count. simpl. destruct (kind_eqb (kind_of e) k); reflexivity. Qed.

Lemma kind_eqb_eq a b : kind_eqb a b = true <-> a = b.
Proof. destruct a, b; simpl; split; congruence. Qed.

Lemma only_count_0 ks tr k : only ks tr -> ~ In k ks -> count k tr = O.
Proof.
  intros H Hk. induction H as [|e tr He _ IH]; [reflexivity|].
  rewrite count_cons, IH.
  destruct (kind_eqb (kind_of e) k) eqn:E; [|reflexivity].
  apply kind_eqb_eq in E. subst k. contradiction.
Qed.

Lemma only_app ks tr1 tr2 : only ks tr1 -> only ks tr2 -> only ks (tr1 ++ tr2).
Proof. intros H1 H2. apply Forall_app. split; assumption. Qed.

Lemma only_weaken ks ks' tr : incl ks ks' -> only ks tr -> only ks' tr.
Proof.
  intros Hi H. eapply Forall_impl; [|exact H]. intros e He. apply Hi, He.
Qed.

Lemma only_nil ks : only ks [].
Proof. constructor. Qed.

Lemma count_0_not_in k tr e : count k tr = O -> In e tr -> kind_of e <> k.
Proof.
  intros Hc Hin Hk. induction tr as [|e' tr IH]; [contradiction|].
  rewrite count_cons in Hc. destruct Hin as [->|Hin].
  - apply kind_eqb_eq in Hk. rewrite Hk in Hc. discriminate.
  - apply IH; [|exact Hin]. lia.
Qed.

(** ** Arrays *)

Lemma length_set_nth a n v : List.length (LibC.set_nth a n v) = List.length a.
Proof.
  revert n. induction a as [|x a IH]; intros [|n]; simpl; auto.
Qed.

Lemma nth_error_set_nth_eq a n v :
  (n < List.length a)%nat -> nth_error (LibC.set_nth a n v) n = Some (Some v).
Proof.
  revert n. induction a as [|x a IH]; intros [|n] H; simpl in *; try lia; auto.
  apply IH. lia.
Qed.

Lemma nth_error_set_nth_ne a n m v :
  n <> m -> nth_error (LibC.set_nth a n v) m = nth_error a m.
Proof.
  revert n m. induction a as [|x a IH]; intros [|n] [|m] H; simpl; auto.
  congruence.
Qed.

Lemma store_length a idx v a' :
  LibC.store a idx v = Some a' -> List.length a' = List.length a.
Proof.
  unfold LibC.store. destruct (_ && _); [|discriminate].
  intros [= <-]. apply length_set_nth.
Qed.

Lemma store_in_range a idx v a' :
  LibC.store a idx v = Some a' -> 0 <= idx < Z.of_nat (List.length a).
Proof.
  unfold LibC.store. destruct (_ && _) eqn:E; [|discriminate]. intros _.
  apply andb_true_iff in E. lia.
Qed.

Lemma load_store_eq a idx v a' :
  LibC.store a idx v = Some a' -> LibC.load a' idx = Some v.
Proof.
  intros H. pose proof H as R; apply store_in_range in R.
  unfold LibC.store in H. destruct (_ && _); [|discriminate].
  injection H as <-. unfold LibC.load.
  replace (0 <=? idx) with true by lia.
  rewrite nth_error_set_nth_eq; [reflexivity | lia].
Qed.

Lemma load_store_ne a idx v a' k :
  LibC.store a idx v = Some a' -> 0 <= k -> k <> idx ->
  LibC.load a' k = LibC.load a k.
Proof.
  intros H Hk Hne. pose proof H as R; apply store_in_range in R.
  unfold LibC.store in H. destruct (_ && _); [|discriminate].
  injection H as <-. unfold LibC.load.
  rewrite nth_error_set_nth_ne; [reflexivity | lia].
Qed.

Lemma arg_at_in_range argv idx :
  0 <= idx < Z.of_nat (List.length argv) ->
  exists a, LibC.arg_at argv idx = Some a.
Proof.
  intros H. unfold LibC.arg_at. replace (0 <=? idx) with true by lia.
  destruct (nth_error argv (Z.to_nat idx)) eqn:E; [eauto|].
  apply nth_error_None in E. lia.
Qed.

(** ** The scan of the arguments *)

(** A scan ends the process only with status 0 or 1, or by a store
    outside an array, and until then writes text only. *)
Lemma parse_args_stopped w i rest st tr o :
  parse_args w i rest st = Stopped tr o ->
  only [K_stdout; K_stderr] tr /\ (o = Exit 0 \/ o = Exit 1 \/ o = Undefined).
Proof.
  functional induction (parse_args w i rest st); intros H;
    try (apply IHs; exact H); try discriminate;
    injection H as <- <-; (split; [unfold print_usage; only_events | auto]).
Qed.

(** The format name and the writer stay in step. *)
Lemma parse_args_writer w i rest st st' :
  parse_args w i rest st = Scanned st' ->
  writer_of_name (format st) = Some (writer st) ->
  writer_of_name (format st') = Some (writer st').
Proof.
  functional induction (parse_args w i rest st); intros H Hw;
    try discriminate; try (apply IHs; assumption).
  congruence.
Qed.

Lemma writer_of_name_not_none name :
  writer_of_name name <> Some FORMAT_NONE.
Proof.
  unfold writer_of_name.
  repeat match goal with |- context [if ?b then _ else _] => destruct b end;
    discriminate.
Qed.

Lemma filled_store a n bound v a' :
  filled a n bound -> LibC.store a n v = Some a' -> 0 <= v < bound ->
  filled a' (n + 1) bound.
Proof.
  intros F S V k Hk. destruct (Z.eq_dec k n) as [->|Hne].
  - exists v. split; [eapply load_store_eq; eauto | exact V].
  - destruct (F k) as [idx [E R]]; [lia|]. exists idx. split; [|exact R].
    rewrite (load_store_ne _ _ _ _ k S); [exact E | lia | exact Hne].
Qed.

(** The cells of [luafiles] below [numluafps] always hold indices of
    arguments: [numluafps] starts at 0 and every [--lua] stores the index
    of the argument that follows it. *)
Lemma parse_args_luafiles w i rest st st' argc :
  parse_args w i rest st = Scanned st' ->
  i + Z.of_nat (List.length rest) = argc -> 1 <= i ->
  Z.of_nat (List.length (luafiles st)) = argc ->
  0 <= numluafps st < i ->
  filled (luafiles st) (numluafps st) argc ->
  0 <= numluafps st' /\ filled (luafiles st') (numluafps st') argc.
Proof.
  functional induction (parse_args w i rest st); intros H Hlen Hi Ha Hn Hf;
    try discriminate;
    try (apply IHs; simpl in *; solve [assumption | lia]).
  - injection H as <-. split; [lia | exact Hf].
  - apply IHs; simpl in *; try solve [assumption | lia].
    + erewrite store_length by eassumption. lia.
    + eapply filled_store; [exact Hf | eassumption | lia].
Qed.

(** Without a [--width] argument the width is the one the scan started
    with. *)
Lemma parse_args_width w i rest st st' :
  parse_args w i rest st = Scanned st' ->
  ~ In "--width" rest -> width st' = width st.
Proof.
  functional induction (parse_args w i rest st); intros H Hin;
    try discriminate;
    try (rewrite IHs; [reflexivity | assumption | simpl in Hin; tauto]).
  - injection H as <-. reflexivity.
  - exfalso. apply Hin. left.
    match goal with E : streq _ "--width" = true |- _ =>
      unfold streq in E; apply String.eqb_eq in E; exact E end.
Qed.

(** Without a [-t] or [--to] argument the format name is the one the
    scan started with. *)
Lemma parse_args_format w i rest st st' :
  parse_args w i rest st = Scanned st' ->
  ~ In "-t" rest -> ~ In "--to" rest -> format st' = format st.
Proof.
  functional induction (parse_args w i rest st); intros H Hin1 Hin2;
    try discriminate;
    try (rewrite IHs; [reflexivity | assumption | simpl in Hin1; tauto
                      | simpl in Hin2; tauto]).
  - injection H as <-. reflexivity.
  - exfalso.
    match goal with E : streq _ "-t" || streq _ "--to" = true |- _ =>
      apply orb_true_iff in E; unfold streq in E;
      rewrite !String.eqb_eq in E; destruct E as [E|E];
      [apply Hin1 | apply Hin2]; left; exact E end.
Qed.

(** A scan that accepts a list of arguments goes on in the same way when
    more arguments follow. *)
Lemma parse_args_app w i pre st st' rest :
  parse_args w i pre st = Scanned st' ->
  parse_args w i (pre ++ rest) st =
  parse_args w (i + Z.of_nat (List.length pre)) rest st'.
Proof.
  functional induction (parse_args w i pre st); intros H; try discriminate;
    try (cbn [app parse_args]; take_branch; rewrite IHs by exact H;
         f_equal; cbn [List.length]; lia).
  injection H as <-. simpl. f_equal. lia.
Qed.

(** ** Reading the input *)

(** The read loop, unfolded once. *)
Lemma fread_loop_eq size stream :
  fread_loop size stream =
  match firstn size stream with
  | [] => []
  | b :: chunk =>
      E_cmark_parser_feed (b :: chunk) ::
      (if (List.length (b :: chunk) <? size)%nat
       then []
       else fread_loop size (skipn size stream))
  end.
Proof.
  funelim (fread_loop size stream); rewrite e; reflexivity.
Qed.

Lemma fread_loop_only size stream : only [K_read] (fread_loop size stream).
Proof.
  funelim (fread_loop size stream).
  - apply only_nil.
  - apply Forall_cons; [simpl; tauto|].
    destruct (_ <? _)%nat; [apply only_nil | apply H].
Qed.

Lemma feed_only stream : only [K_read] (feed stream).
Proof. apply fread_loop_only. Qed.

(** The loop over the files opens, feeds and closes; it ends the process
    only with status 1, after a message on standard error, or by the use
    of a cell of [files] or of [argv] that holds no value. *)
Lemma read_files_only w argv st n i tr o :
  read_files w argv st n i = (tr, o) ->
  match o with
  | None => only [K_read] tr
  | Some x => only [K_read; K_stderr] tr /\ (x = Exit 1 \/ x = Undefined)
  end.
Proof.
  revert i tr o. induction n as [|n IH]; intros i tr o H; simpl in H.
  - injection H as <- <-. apply only_nil.
  - destruct (LibC.load (files st) i) as [idx|];
      [|injection H as <- <-; split; [apply only_nil | auto]].
    destruct (LibC.arg_at argv idx) as [path|];
      [|injection H as <- <-; split; [apply only_nil | auto]].
    destruct (fopen w path) as [err|content].
    + injection H as <- <-. split; [only_events | auto].
    + destruct (read_files w argv st n (i + 1)) as [tr' o'] eqn:E.
      injection H as <- <-. specialize (IH _ _ _ E).
      unfold start_timer, end_timer. cbn [app].
      destruct o' as [x|].
      * destruct IH as [IH Hx]. split; [|exact Hx].
        apply Forall_cons; [simpl; tauto|]. apply only_app.
        -- eapply only_weaken; [|apply feed_only]. intros k [<-|[]]. simpl; tauto.
        -- apply Forall_cons; [simpl; tauto | exact IH].
      * apply Forall_cons; [simpl; tauto|]. apply only_app; [apply feed_only|].
        apply Forall_cons; [simpl; tauto | exact IH].
Qed.

(** What [main] has done when it holds a tree: it scanned all arguments,
    created the parser, read, and called [cmark_parser_finish] and
    [cmark_parser_free], in this order. *)
Lemma parse_input_continue w argv tr st document :
  parse_input w argv = (tr, Continue (st, document)) ->
  parse_args w 1 (tl argv) (init_scan w (List.length argv)) = Scanned st /\
  exists trf,
    tr = E_cmark_parser_new (options st) :: trf ++
         [E_cmark_parser_finish; E_cmark_parser_free] /\
    only [K_read] trf /\
    document = cmark_parse w (options st) (fed trf).
Proof.
  unfold parse_input.
  destruct (parse_args w 1 (tl argv) _) as [st0|tr0 o0] eqn:Ea; [|discriminate].
  destruct (read_files w argv st0 _ 0) as [trf [x|]] eqn:Er; [discriminate|].
  intros H. injection H as <- <- <-. split; [reflexivity|].
  apply read_files_only in Er.
  eexists. split; [reflexivity|]. split; [|reflexivity].
  apply only_app; [exact Er|].
  destruct (numfps st0 =? 0); [apply feed_only | apply only_nil].
Qed.

(** When [main] ends before it holds a tree, it has written text, created
    the parser and read, and nothing else; the status is 0 or 1. *)
Lemma parse_input_return w argv tr o :
  parse_input w argv = (tr, Return o) ->
  only [K_stdout; K_stderr; K_read] tr /\
  (o = Exit 0 \/ o = Exit 1 \/ o = Undefined).
Proof.
  unfold parse_input.
  destruct (parse_args w 1 (tl argv) _) as [st0|tr0 o0] eqn:Ea.
  - destruct (read_files w argv st0 _ 0) as [trf [x|]] eqn:Er; [|discriminate].
    intros H. injection H as <- <-. apply read_files_only in Er.
    destruct Er as [Er Hx]. split; [|tauto].
    apply Forall_cons; [simpl; tauto|].
    eapply only_weaken; [|exact Er]. intros k. simpl. tauto.
  - intros H. injection H as <- <-. apply parse_args_stopped in Ea.
    destruct Ea as [Ea Ho]. split; [|exact Ho].
    eapply only_weaken; [|exact Ea]. intros k. simpl. tauto.
Qed.

(** ** The filter loop *)

(** One turn of the loop goes one of the five ways of [filter_run]. *)
Lemma run_filter_spec w argv st i document skip_rendering :
  filter_run w argv st i document skip_rendering
    (fst (run_filter w argv st i document skip_rendering))
    (snd (run_filter w argv st i document skip_rendering)).
Proof.
  unfold run_filter, load_filter, lua_pcall, lua_pushstring, push_cmark_node.
  cbn [firstn skipn rev app].
  destruct (filter_path argv st i) as [path|] eqn:Ep;
    pose proof Ep as Ep'; unfold filter_path in Ep'.
  - destruct (LibC.load (luafiles st) i) as [idx|]; [|discriminate].
    rewrite Ep'.
    destruct (luaL_loadfile w i path) as [msg|] eqn:El.
    { cbn. apply FR_load_error; assumption. }
    destruct (lua_chunk w i path) as [e|f] eqn:Ec.
    { cbn [fst snd]. destruct (lua_tostring w [e]) as [msg|] eqn:Em; cbn.
      - apply FR_chunk_error with (e := e); assumption.
      - apply FR_chunk_error_null with (e := e); assumption. }
    destruct (lua_call w i f [LuaNode; LuaString (format st)] document)
      as [[e|v] document'] eqn:Ef.
    { cbn [fst snd]. destruct (lua_tostring w [e]) as [msg|] eqn:Em; cbn.
      - apply FR_call_error with (e := e) (document' := document');
          assumption.
      - apply FR_call_error_null with (document' := document'); assumption. }
    cbn. apply FR_return with (document' := document'); assumption.
  - destruct (LibC.load (luafiles st) i) as [idx|]; [rewrite Ep'|];
      cbn; apply FR_no_path; exact Ep.
Qed.

Lemma run_filters_spec w argv st n i document skip_rendering :
  filters_run w argv st n i document skip_rendering
    (fst (run_filters w argv st n i document skip_rendering))
    (snd (run_filters w argv st n i document skip_rendering)).
Proof.
  revert i document skip_rendering.
  induction n as [|n IH]; intros i document skip_rendering; simpl.
  - constructor.
  - pose proof (run_filter_spec w argv st i document skip_rendering) as S1.
    destruct (run_filter w argv st i document skip_rendering)
      as [tr [[document' skip']|o]]; simpl in S1.
    + specialize (IH (i + 1) document' skip').
      destruct (run_filters w argv st n (i + 1) document' skip') as [tr' r].
      simpl in *. eapply FS_next; eassumption.
    + simpl. apply FS_stop. exact S1.
Qed.

(** *** What one turn does *)

Lemma filter_run_only w argv st i d s tr r :
  filter_run w argv st i d s tr r -> only [K_lua; K_stderr] tr.
Proof. intros H. destruct H; unfold lua_setup; only_events. Qed.

Lemma filter_run_outcome w argv st i d s tr o :
  filter_run w argv st i d s tr (Return o) ->
  (o = Undefined /\
   (filter_path argv st i = None \/
    (null_message w tr /\ error_without_message w argv st i d))) \/
  ((o = Exit 3 \/ o = Exit 5) /\
   exists tr0 msg, tr = tr0 ++ [E_fprintf_stderr msg]).
Proof.
  intros H. inversion H; subst; unfold lua_setup; cbn [app].
  - left. auto.
  - right. split; [auto|].
    exists [E_luaL_newstate i; E_luaL_openlibs i; E_luaL_requiref i "utf8";
            E_luaL_requiref i "cmark"; E_luaL_loadfile i path].
    eexists. reflexivity.
  - right. split; [auto|].
    exists [E_luaL_newstate i; E_luaL_openlibs i; E_luaL_requiref i "utf8";
            E_luaL_requiref i "cmark"; E_luaL_loadfile i path;
            E_lua_pcall i (LuaChunk path) [] (inl e)].
    eexists. reflexivity.
  - left. split; [reflexivity|]. right. split.
    + exists [E_luaL_newstate i; E_luaL_openlibs i; E_luaL_requiref i "utf8";
              E_luaL_requiref i "cmark"; E_luaL_loadfile i path].
      exists i, (LuaChunk path), [], e. auto.
    + exists path. split; [assumption|]. split; [assumption|].
      left. exists e. auto.
  - right. split; [auto|].
    exists [E_luaL_newstate i; E_luaL_openlibs i; E_luaL_requiref i "utf8";
            E_luaL_requiref i "cmark"; E_luaL_loadfile i path;
            E_lua_pcall i (LuaChunk path) [] (inr f);
            E_lua_pcall i f [LuaNode; LuaString (format st)] (inl e)].
    eexists. reflexivity.
  - left. split; [reflexivity|]. right. split.
    + exists [E_luaL_newstate i; E_luaL_openlibs i; E_luaL_requiref i "utf8";
              E_luaL_requiref i "cmark"; E_luaL_loadfile i path;
              E_lua_pcall i (LuaChunk path) [] (inr f)].
      exists i, f, [LuaNode; LuaString (format st)], e. auto.
    + exists path. split; [assumption|]. split; [assumption|].
      right. exists f, e, document'. auto.
Qed.



(** *** What the loop does *)





Lemma filters_run_only w argv st n i d s tr r :
  filters_run w argv st n i d s tr r -> only [K_lua; K_stderr] tr.
Proof.
  induction 1 as [| ? ? ? ? ? ? H | ? ? ? ? ? ? ? ? ? H ? IH].
  - apply only_nil.
  - eapply filter_run_only; exact H.
  - apply only_app; [eapply filter_run_only; exact H | exact IH].
Qed.

(** The loop ends the process only with status 3 or 5, after a message
    on standard error, or because a filter has no file name, or because
    the error object of a filter has no message. *)
Lemma filters_run_outcome w argv st n i d s tr o :
  filters_run w argv st n i d s tr (Return o) ->
  (o = Undefined /\
   ((exists k, i <= k < i + Z.of_nat n /\ filter_path argv st k = None) \/
    (null_message w tr /\
     exists k d', error_without_message w argv st k d'))) \/
  ((o = Exit 3 \/ o = Exit 5) /\
   exists tr0 msg, tr = tr0 ++ [E_fprintf_stderr msg]).
Proof.
  intros H. remember (Return o) as r eqn:Er.
  induction H as [| ? ? ? ? ? ? H | ? ? ? ? ? ? ? ? ? H ? IH]; try discriminate.
  - injection Er as ->. apply filter_run_outcome in H.
    destruct H as [[-> [Hp|[Hm He]]]|H]; [left | left | right; exact H].
    + split; [reflexivity|]. left. exists i. split; [lia | exact Hp].
    + split; [reflexivity|]. right. split; [exact Hm|].
      exists i, document. exact He.
  - destruct (IH Er) as [[-> [[k [Hk Hp]]|[Hm He]]]|[Ho [tr0 [msg ->]]]];
      [left | left | right].
    + split; [reflexivity|]. left. exists k. split; [lia | exact Hp].
    + split; [reflexivity|]. right. split; [|exact He].
      destruct Hm as [tr0 [L [f [args [e [-> Hn]]]]]].
      exists (tr ++ tr0), L, f, args, e. split; [apply app_assoc | exact Hn].
    + split; [exact Ho|]. exists (tr ++ tr0), msg. apply app_assoc.
Qed.




(** ** The whole run *)

Lemma print_document_renders w document wr opts wd :
  wr <> FORMAT_NONE ->
  snd (print_document w document wr opts wd) = None /\
  only [K_render; K_stdout] (fst (print_document w document wr opts wd)) /\
  count K_render (fst (print_document w document wr opts wd)) = 1%nat.
Proof.
  intros H. destruct wr; try congruence; simpl;
    (split; [reflexivity | split; [only_events | reflexivity]]).
Qed.

(** The scan never leaves the writer at [FORMAT_NONE]. *)
Lemma scanned_writer w argv st :
  parse_args w 1 (tl argv) (init_scan w (List.length argv)) = Scanned st ->
  writer st <> FORMAT_NONE.
Proof.
  intros H Hn. apply parse_args_writer in H; [|reflexivity].
  rewrite Hn in H. exact (writer_of_name_not_none _ H).
Qed.

(** After the scan every filter has a file name. *)
Lemma scanned_filter_paths w argv st :
  parse_args w 1 (tl argv) (init_scan w (List.length argv)) = Scanned st ->
  0 <= numluafps st /\
  forall k, 0 <= k < numluafps st -> filter_path argv st k <> None.
Proof.
  intros H. destruct argv as [|prog args].
  - simpl in H. injection H as <-. simpl. split; [lia|]. intros; lia.
  - eapply parse_args_luafiles
      with (argc := Z.of_nat (List.length (prog :: args))) in H.
    + destruct H as [Hn Hf]. split; [exact Hn|]. intros k Hk.
      destruct (Hf k Hk) as [idx [E R]]. unfold filter_path. rewrite E.
      destruct (arg_at_in_range (prog :: args) idx R) as [a ->]. discriminate.
    + cbn [tl List.length]. lia.
    + lia.
    + simpl. unfold LibC.malloc. rewrite repeat_length. reflexivity.
    + simpl. lia.
    + intros k Hk. simpl in Hk. lia.
Qed.

Lemma main_shape w argv :
  run_shape w argv (fst (main w argv)) (snd (main w argv)).
Proof.
  unfold main.
  destruct (parse_input w argv) as [tr_in [[st document]|o]] eqn:Ei;
    [|apply Run_no_tree; exact Ei].
  unfold filter_and_render.
  pose proof (run_filters_spec w argv st (Z.to_nat (numluafps st)) 0
                document false) as Hf.
  destruct (run_filters w argv st (Z.to_nat (numluafps st)) 0 document false)
    as [tr_f [[document' skip]|o]]; simpl in Hf.
  - pose proof (parse_input_continue _ _ _ _ _ Ei) as [Ha _].
    apply scanned_writer in Ha.
    destruct (print_document_renders w document' (writer st) (options st)
                (width st) Ha) as [Hs _].
    destruct skip; simpl negb; cbv iota.
    + simpl.
      exact (Run_completes w argv tr_in st document tr_f document' true Ei Hf).
    + destruct (print_document w document' (writer st) (options st) (width st))
        as [trp stop] eqn:Ep. simpl in Hs. subst stop.
      unfold start_timer, end_timer. simpl. rewrite app_nil_r.
      pose proof (Run_completes w argv tr_in st document tr_f document' false
                    Ei Hf) as R.
      rewrite Ep in R. exact R.
  - simpl. eapply Run_filter_stops; eassumption.
Qed.

Lemma main_run w argv tr o : main w argv = (tr, o) -> run_shape w argv tr o.
Proof.
  intros H. pose proof (main_shape w argv) as S. rewrite H in S. exact S.
Qed.

(** ** The lifetime of the document tree *)

Lemma parsed_counts w argv tr st document :
  parse_input w argv = (tr, Continue (st, document)) ->
  count K_tree_new tr = 1%nat /\
  (forall k, ~ In k [K_read; K_tree_new; K_parser_free] -> count k tr = O) /\
  exists a, tr = a ++ [E_cmark_parser_finish; E_cmark_parser_free].
Proof.
  intros H. apply parse_input_continue in H.
  destruct H as [_ [trf [-> [Ho _]]]]. split; [|split].
  - rewrite count_cons, count_app, (only_count_0 _ _ K_tree_new Ho)
      by not_listed. reflexivity.
  - intros k Hk. apply only_count_0 with (ks := [K_read; K_tree_new; K_parser_free]);
      [|exact Hk].
    apply Forall_cons; [simpl; tauto|]. apply only_app.
    + eapply only_weaken; [|exact Ho]. intros x [<-|[]]. simpl. tauto.
    + only_events.
  - exists (E_cmark_parser_new (options st) :: trf). reflexivity.
Qed.

Lemma filters_counts w argv st n i d s tr r k :
  filters_run w argv st n i d s tr r ->
  ~ In k [K_lua; K_stderr] -> count k tr = O.
Proof. intros H. apply only_count_0. eapply filters_run_only, H. Qed.

(** In a run that holds a tree no filter ends the process for want of a
    file name: the loop ends it with status 3 or 5 after a message on
    standard error, or with the null message of an error object handed
    to [fprintf]. *)
Lemma filters_defined w argv tr_in st document tr_f o :
  parse_input w argv = (tr_in, Continue (st, document)) ->
  filters_run w argv st (Z.to_nat (numluafps st)) 0 document false
    tr_f (Return o) ->
  ((o = Exit 3 \/ o = Exit 5) /\
   exists tr0 msg, tr_f = tr0 ++ [E_fprintf_stderr msg]) \/
  (o = Undefined /\ null_message w tr_f /\
   exists k d', error_without_message w argv st k d').
Proof.
  intros Hi Hf. apply parse_input_continue in Hi. destruct Hi as [Ha _].
  apply scanned_filter_paths in Ha. destruct Ha as [Hn Hp].
  apply filters_run_outcome in Hf.
  destruct Hf as [[-> [[k [Hk Hnone]]|Hm]]|Hf]; [|right; auto|left; exact Hf].
  exfalso. apply (Hp k); [lia | exact Hnone].
Qed.

Lemma filters_stop_status w argv tr_in st document tr_f o :
  parse_input w argv = (tr_in, Continue (st, document)) ->
  filters_run w argv st (Z.to_nat (numluafps st)) 0 document false
    tr_f (Return o) ->
  o = Exit 3 \/ o = Exit 5 \/ o = Undefined.
Proof.
  intros Hi Hf.
  destruct (filters_defined _ _ _ _ _ _ _ Hi Hf) as [[Ho _]|[Ho _]]; tauto.
Qed.

(** C1, as amended.  In every run that reaches [cmark_parser_finish]
    exactly one document tree is created.  Such a run ends with status
    0, 3 or 5, unless its last call is a protected call whose error
    object has no message, which [main] hands to [fprintf] as a null
    pointer.  When it ends with status 0 (the document was rendered, or
    rendering was skipped) the tree is destroyed exactly once, after its
    creation; when a filter fails to load (status 3) or raises (status
    5) the process ends without destroying the tree.  A run that does
    not reach [cmark_parser_finish] (help, version, a usage or width
    error, a file that cannot be opened) creates and destroys no
    tree. *)
Theorem tree_created_once_destroyed_on_completion w argv tr o :
  main w argv = (tr, o) ->
  (In E_cmark_parser_finish tr ->
   count K_tree_new tr = 1%nat /\
   (o = Exit 0 \/ o = Exit 3 \/ o = Exit 5 \/
    (o = Undefined /\ null_message w tr)) /\
   (o = Exit 0 ->
    count K_tree_free tr = 1%nat /\
    exists a b c, tr = a ++ E_cmark_parser_finish :: b ++
                       E_cmark_node_free :: c) /\
   (o = Exit 3 \/ o = Exit 5 -> count K_tree_free tr = O)) /\
  (~ In E_cmark_parser_finish tr ->
   count K_tree_new tr = O /\ count K_tree_free tr = O /\
   (o = Exit 0 \/ o = Exit 1 \/ o = Undefined)).
Proof.
  intros Hm. apply main_run in Hm.
  destruct Hm as [tr o Hi | tr_in st document tr_f o Hi Hf
                 | tr_in st document tr_f document' skip Hi Hf].
  - apply parse_input_return in Hi. destruct Hi as [Ho Hx]. split.
    + intros Hin. exfalso.
      eapply (count_0_not_in K_tree_new); [|exact Hin|reflexivity].
      eapply only_count_0; [exact Ho | not_listed].
    + intros _. split; [|split; [|exact Hx]];
        (eapply only_count_0; [exact Ho | not_listed]).
  - pose proof (filters_defined _ _ _ _ _ _ _ Hi Hf) as Ho.
    destruct (parsed_counts _ _ _ _ _ Hi) as [C1 [C0 [a Ea]]]. split.
    + intros _.
      rewrite !count_app, C1, (C0 K_tree_free) by not_listed.
      rewrite !(filters_counts _ _ _ _ _ _ _ _ _ _ Hf) by not_listed.
      split; [reflexivity|]. split; [|split; [|reflexivity]].
      * destruct Ho as [[Ho _]|[-> [[tr0 [L [f [args [e [-> He]]]]]] _]]];
          [tauto|].
        right. right. right. split; [reflexivity|].
        exists (tr_in ++ tr0), L, f, args, e.
        split; [apply app_assoc | exact He].
      * intros ->. destruct Ho as [[[Ho|Ho] _]|[Ho _]]; discriminate.
    + intros Hn. exfalso. apply Hn. rewrite Ea, <- app_assoc.
      apply in_or_app. right. left. reflexivity.
  - destruct (parsed_counts _ _ _ _ _ Hi) as [C1 [C0 [a Ea]]].
    pose proof (parse_input_continue _ _ _ _ _ Hi) as [Ha _].
    apply scanned_writer in Ha.
    destruct (print_document_renders w document' (writer st) (options st)
                (width st) Ha) as [_ [Hp _]].
    set (tr_p := if skip then []
                 else fst (print_document w document' (writer st)
                             (options st) (width st))).
    assert (Hp' : only [K_render; K_stdout] tr_p)
      by (subst tr_p; destruct skip; [apply only_nil | exact Hp]).
    split.
    + intros _. split; [|split; [tauto|split]].
      * rewrite !count_app, C1, (filters_counts _ _ _ _ _ _ _ _ _ _ Hf),
          (only_count_0 _ _ _ Hp') by not_listed. reflexivity.
      * intros _. split.
        -- rewrite !count_app, (C0 K_tree_free),
             (filters_counts _ _ _ _ _ _ _ _ _ _ Hf),
             (only_count_0 _ _ _ Hp') by not_listed. reflexivity.
        -- exists a, (E_cmark_parser_free :: tr_f ++ tr_p),
             [E_free_files; E_free_luafiles].
           rewrite Ea, <- !app_assoc. simpl. rewrite <- !app_assoc.
           reflexivity.
      * intros [H|H]; discriminate.
    + intros Hn. exfalso. apply Hn. rewrite Ea, <- app_assoc.
      apply in_or_app. right. left. reflexivity.
Qed.

Lemma tree_created_once_destroyed_on_completion_witness :
  let w := Toy.world 0 (Toy.text "# Hi") in
  let argv := ["cmark"; "--lua"; "skip.lua"] in
  In E_cmark_parser_finish (fst (main w argv)) /\
  count K_tree_new (fst (main w argv)) = 1%nat /\
  snd (main w argv) = Exit 0 /\
  count K_tree_free (fst (main w argv)) = 1%nat.
Proof.
  intros w argv.
  assert (Hin : In E_cmark_parser_finish (fst (main w argv)))
    by (vm_compute; tauto).
  destruct (tree_created_once_destroyed_on_completion w argv
              (fst (main w argv)) (snd (main w argv))
              (surjective_pairing _)) as [H _].
  destruct (H Hin) as [C1 [_ [C2 _]]].
  split; [exact Hin|]. split; [exact C1|].
  split; [vm_compute; reflexivity|].
  apply C2. vm_compute. reflexivity.
Defined.

(** C1, as the specification words it, fails: a filter that does not
    compile ends the process with status 3 when the tree exists, and the
    tree is not destroyed. *)
Lemma tree_not_destroyed_when_filter_fails :
  ~ tree_destroyed_on_every_path (Toy.world 0 (Toy.text "# Hi"))
      ["cmark"; "--lua"; "syntax.lua"].
Proof.
  intros H. assert (Hin : In E_cmark_parser_finish
    (fst (main (Toy.world 0 (Toy.text "# Hi")) ["cmark"; "--lua"; "syntax.lua"])))
    by (vm_compute; tauto).
  destruct (H Hin) as [_ C]. vm_compute in C. discriminate.
Qed.

(** ** The lifetime of the Lua states *)












(** ** The filters of the command line and their chain *)

(** Folding the returned values into the flag gives what the latest
    numeric value says, and the initial flag when none is numeric. *)
Lemma render_control_fold w vals s :
  fold_left (render_control w) vals s =
  match most_recent_numeric w vals with
  | Some x => number_eq x (-1)
  | None => s
  end.
Proof.
  induction vals as [|v vals IH] using rev_ind; [reflexivity|].
  rewrite fold_left_app. cbn [fold_left]. unfold most_recent_numeric in *.
  rewrite rev_app_distr. cbn [rev app find]. unfold render_control.
  destruct (lua_isnumber w [v]); [reflexivity | exact IH].
Qed.

Lemma run_filters_run w argv st n i d s tr r :
  run_filters w argv st n i d s = (tr, r) -> filters_run w argv st n i d s tr r.
Proof.
  intros H. pose proof (run_filters_spec w argv st n i d s) as S.
  rewrite H in S. exact S.
Qed.

Lemma run_filter_run w argv st i d s tr r :
  run_filter w argv st i d s = (tr, r) -> filter_run w argv st i d s tr r.
Proof.
  intros H. pose proof (run_filter_spec w argv st i d s) as S.
  rewrite H in S. exact S.
Qed.

(** *** The file names of the filters *)

Lemma skipn_cons_nth (A : Type) (n : nat) (l : list A) (a : A) (r : list A) :
  skipn n l = a :: r -> nth_error l n = Some a /\ skipn (S n) l = r.
Proof.
  revert l. induction n as [|n IH]; intros l H.
  - destruct l; [discriminate|]. injection H as -> ->. auto.
  - destruct l as [|x l]; [discriminate|]. simpl in H. apply IH in H.
    exact H.
Qed.

Lemma names_store argv a paths idx a' p :
  names argv a paths ->
  LibC.store a (Z.of_nat (List.length paths)) idx = Some a' ->
  LibC.arg_at argv idx = Some p ->
  names argv a' (paths ++ [p]).
Proof.
  intros N S P k Hk. rewrite length_app in Hk. simpl in Hk.
  unfold file_name.
  destruct (Nat.eq_dec k (List.length paths)) as [->|Hne].
  - rewrite (load_store_eq _ _ _ _ S), P, nth_error_app2 by lia.
    rewrite Nat.sub_diag. reflexivity.
  - rewrite (load_store_ne _ _ _ _ (Z.of_nat k) S) by lia.
    rewrite nth_error_app1 by lia. apply N. lia.
Qed.

(** The scan stores the indices of the files named after [--lua] in
    [luafiles], in order, from cell [numluafps] on. *)
Lemma parse_args_lua_names w argv i rest st st' paths :
  parse_args w i rest st = Scanned st' ->
  skipn (Z.to_nat i) argv = rest -> 1 <= i ->
  numluafps st = Z.of_nat (List.length paths) ->
  names argv (luafiles st) paths ->
  numluafps st' = Z.of_nat (List.length (paths ++ lua_files rest)) /\
  names argv (luafiles st') (paths ++ lua_files rest).
Proof.
  revert paths.
  functional induction (parse_args w i rest st); intros paths H Hk Hi Hn Hf;
    try discriminate;
    try (same_branch_lua; apply IHs; try assumption;
         [ replace (Z.to_nat (i + 1)) with (S (Z.to_nat i)) by lia;
           apply (skipn_cons_nth _ _ _ _ _ Hk)
         | lia ]).
  - injection H as <-. simpl. rewrite app_nil_r. auto.
  - same_branch_lua.
    replace (paths ++ _x :: lua_files rest'')
      with ((paths ++ [_x]) ++ lua_files rest'')
      by (rewrite <- app_assoc; reflexivity).
    apply skipn_cons_nth in Hk. destruct Hk as [_ Hk].
    apply skipn_cons_nth in Hk. destruct Hk as [Hx Hk].
    apply IHs; try assumption.
    + replace (Z.to_nat (i + 2)) with (S (S (Z.to_nat i))) by lia. exact Hk.
    + lia.
    + cbn [numluafps push_luafile]. rewrite length_app. simpl. lia.
    + cbn [luafiles push_luafile]. eapply names_store; [exact Hf | |].
      * rewrite <- Hn. eassumption.
      * unfold LibC.arg_at. replace (0 <=? i + 1) with true by lia.
        replace (Z.to_nat (i + 1)) with (S (Z.to_nat i)) by lia. exact Hx.
  - same_branch_lua. apply IHs; try assumption; [|lia].
    replace (Z.to_nat (i + 2)) with (S (S (Z.to_nat i))) by lia.
    apply skipn_cons_nth in Hk. destruct Hk as [_ Hk].
    apply skipn_cons_nth in Hk. apply Hk.
  - same_branch_lua. apply IHs; try assumption; [|lia].
    replace (Z.to_nat (i + 2)) with (S (S (Z.to_nat i))) by lia.
    apply skipn_cons_nth in Hk. destruct Hk as [_ Hk].
    apply skipn_cons_nth in Hk. apply Hk.
Qed.

(** After the scan, the filter of index [k] is the [k]-th file named
    after [--lua]. *)
Lemma scanned_lua_files w argv st :
  parse_args w 1 (tl argv) (init_scan w (List.length argv)) = Scanned st ->
  numluafps st = Z.of_nat (List.length (lua_files (tl argv))) /\
  forall k, (k < List.length (lua_files (tl argv)))%nat ->
            filter_path argv st (0 + Z.of_nat k)
            = nth_error (lua_files (tl argv)) k.
Proof.
  intros Ha.
  destruct (parse_args_lua_names w argv 1 (tl argv) _ st [] Ha) as [Hn Hf].
  - destruct argv; reflexivity.
  - lia.
  - reflexivity.
  - intros k Hk. simpl in Hk. lia.
  - simpl in Hn, Hf. split; [exact Hn|]. intros k Hk.
    rewrite Z.add_0_l. apply (Hf k Hk).
Qed.

(** *** The chain of filters *)

Lemma stdout_of_silent tr : count K_stdout tr = O -> stdout_of tr = "".
Proof.
  induction tr as [|e tr IH]; [reflexivity|].
  rewrite count_cons. destruct e; simpl; try exact IH. discriminate.
Qed.

Lemma main_unfold w argv tr_in st document :
  parse_input w argv = (tr_in, Continue (st, document)) ->
  main w argv =
  (tr_in ++ fst (filter_and_render w argv st document),
   snd (filter_and_render w argv st document)).
Proof.
  intros H. unfold main. rewrite H.
  destruct (filter_and_render w argv st document). reflexivity.
Qed.

(** One turn of the loop, for a filter that has a file name. *)
Lemma run_filter_eq w argv st i d s path :
  filter_path argv st i = Some path ->
  run_filter w argv st i d s =
  match luaL_loadfile w i path with
  | Some msg =>
      (lua_setup i ++
       [E_luaL_loadfile i path; E_fprintf_stderr (msg ++ nl)%string],
       Return (Exit 3))
  | None =>
      match lua_chunk w i path with
      | inl e =>
          (lua_setup i ++
           E_luaL_loadfile i path :: E_lua_pcall i (LuaChunk path) [] (inl e) ::
           match lua_tostring w [e] with
           | Some msg => [E_fprintf_stderr (msg ++ nl)%string]
           | None => []
           end,
           Return (match lua_tostring w [e] with
                   | Some _ => Exit 3
                   | None => Undefined
                   end))
      | inr f =>
          match lua_call w i f [LuaNode; LuaString (format st)] d with
          | (inl e, _) =>
              (lua_setup i ++
               E_luaL_loadfile i path ::
               E_lua_pcall i (LuaChunk path) [] (inr f) ::
               E_lua_pcall i f [LuaNode; LuaString (format st)] (inl e) ::
               match lua_tostring w [e] with
               | Some msg =>
                   [E_fprintf_stderr ("Error running filter " ++ path ++ ": "
                                      ++ msg ++ nl)%string]
               | None => []
               end,
               Return (match lua_tostring w [e] with
                       | Some _ => Exit 5
                       | None => Undefined
                       end))
          | (inr v, d') =>
              (lua_setup i ++
               [E_luaL_loadfile i path;
                E_lua_pcall i (LuaChunk path) [] (inr f);
                E_lua_pcall i f [LuaNode; LuaString (format st)] (inr v);
                E_lua_close i],
               Continue (d', render_control w s v))
          end
      end
  end.
Proof.
  intros Hp.
  pose proof (run_filter_spec w argv st i d s) as R.
  destruct (run_filter w argv st i d s) as [tr r]. cbn [fst snd] in R.
  destruct R as [Hn | p msg Hp' Hl | p e msg Hp' Hl Hc Hm | p e Hp' Hl Hc Hm
                | p f e msg d' Hp' Hl Hc Hf Hm | p f e d' Hp' Hl Hc Hf Hm
                | p f v d' Hp' Hl Hc Hf];
    try congruence;
    rewrite Hp in Hp'; injection Hp' as <-; rewrite Hl; try rewrite Hc;
    try rewrite Hf; try rewrite Hm; reflexivity.
Qed.

(** The loop over [n + m] filters is the loop over the first [n]
    followed by the loop over the other [m]. *)
Lemma run_filters_app w argv st n m i document skip_rendering :
  run_filters w argv st (n + m) i document skip_rendering =
  match run_filters w argv st n i document skip_rendering with
  | (tr, Continue (document', skip_rendering')) =>
      let '(tr', r) :=
        run_filters w argv st m (i + Z.of_nat n) document' skip_rendering' in
      (tr ++ tr', r)
  | (tr, Return o) => (tr, Return o)
  end.
Proof.
  revert i document skip_rendering.
  induction n as [|n IH]; intros i document skip_rendering.
  - cbn [Nat.add run_filters app]. rewrite Z.add_0_r.
    destruct (run_filters w argv st m i document skip_rendering).
    reflexivity.
  - cbn [Nat.add run_filters].
    destruct (run_filter w argv st i document skip_rendering)
      as [tr [[d1 s1]|o]]; [|reflexivity].
    rewrite IH.
    destruct (run_filters w argv st n (i + 1) d1 s1) as [tr1 [[d2 s2]|o]];
      [|reflexivity].
    replace (i + 1 + Z.of_nat n) with (i + Z.of_nat (S n)) by lia.
    destruct (run_filters w argv st m (i + Z.of_nat (S n)) d2 s2) as [tr2 r].
    rewrite app_assoc. reflexivity.
Qed.

Lemma invoked_app tr1 tr2 : invoked (tr1 ++ tr2) = invoked tr1 ++ invoked tr2.
Proof.
  induction tr1 as [|e tr1 IH]; [reflexivity|].
  destruct e; cbn [app invoked]; auto. destruct args; cbn; auto.
  f_equal. exact IH.
Qed.

Lemma invoked_no_lua ks tr : only ks tr -> ~ In K_lua ks -> invoked tr = [].
Proof.
  intros H Hk. induction H as [|e tr He _ IH]; [reflexivity|].
  destruct e; cbn [invoked]; try exact IH. exfalso. apply Hk. exact He.
Qed.

Lemma filter_returns_invoked tr : filter_returns (invoked tr) = filter_returns tr.
Proof.
  induction tr as [|e tr IH]; [reflexivity|].
  destruct e; cbn [invoked filter_returns]; auto.
  destruct args; cbn [invoked filter_returns]; auto.
  destruct result; cbn [filter_returns]; auto. f_equal. exact IH.
Qed.

(** The loop of [main] over the filters whose file names are [paths]
    makes the calls of the chain of the specification; when every turn
    returns it leaves the tree of the chain, with one call for each
    filter and the flag the returned values make in turn, and it ends
    the process exactly when the chain has a filter that fails. *)
Lemma run_filters_chain w argv st paths :
  forall i d s,
    (forall k, (k < List.length paths)%nat ->
               filter_path argv st (i + Z.of_nat k) = nth_error paths k) ->
    invoked (fst (run_filters w argv st (List.length paths) i d s))
      = invocations w (format st) i paths d /\
    match snd (run_filters w argv st (List.length paths) i d s) with
    | Continue (d', s') =>
        filtered w (format st) i paths d = Some d' /\
        List.length (invocations w (format st) i paths d)
          = List.length paths /\
        List.length (filter_returns (invocations w (format st) i paths d))
          = List.length paths /\
        s' = fold_left (render_control w)
               (filter_returns (invocations w (format st) i paths d)) s
    | Return _ => filtered w (format st) i paths d = None
    end.
Proof.
  induction paths as [|path paths IH]; intros i d s Hp.
  - cbn. auto.
  - assert (Hp0 : filter_path argv st i = Some path).
    { specialize (Hp O ltac:(simpl; lia)). rewrite Z.add_0_r in Hp.
      exact Hp. }
    assert (Hp1 : forall k, (k < List.length paths)%nat ->
                  filter_path argv st (i + 1 + Z.of_nat k) = nth_error paths k).
    { intros k Hk. specialize (Hp (S k) ltac:(simpl; lia)).
      replace (i + 1 + Z.of_nat k) with (i + Z.of_nat (S k)) by lia.
      exact Hp. }
    cbn [List.length run_filters invocations filtered].
    rewrite (run_filter_eq _ _ _ _ _ _ _ Hp0).
    destruct (luaL_loadfile w i path) as [msg|].
    { cbn [fst snd]. unfold lua_setup. cbn. auto. }
    destruct (lua_chunk w i path) as [e|f].
    { cbn [fst snd]. unfold lua_setup.
      destruct (lua_tostring w [e]); cbn; auto. }
    destruct (lua_call w i f [LuaNode; LuaString (format st)] d)
      as [[e|v] d'].
    { cbn [fst snd]. unfold lua_setup.
      destruct (lua_tostring w [e]); cbn; auto. }
    specialize (IH (i + 1) d' (render_control w s v) Hp1).
    destruct (run_filters w argv st (List.length paths) (i + 1) d'
                (render_control w s v)) as [tr' r].
    cbn [fst snd] in IH |- *. destruct IH as [IH1 IH2].
    split.
    + rewrite invoked_app. unfold lua_setup. cbn. rewrite IH1. reflexivity.
    + destruct r as [[d'' s'']|o]; [|exact IH2].
      destruct IH2 as [F [L1 [L2 ->]]].
      split; [exact F|]. cbn [List.length filter_returns fold_left].
      rewrite L1, L2. auto.
Qed.

(** In a run that holds a tree, the calls with arguments are those of
    the chain of the specification, for the files named after [--lua]
    and the tree the parser has built. *)
Lemma main_invoked w argv tr_in st document :
  parse_input w argv = (tr_in, Continue (st, document)) ->
  invoked (fst (main w argv))
    = invocations w (format st) 0 (lua_files (tl argv)) document.
Proof.
  intros Hi. pose proof (parse_input_continue _ _ _ _ _ Hi) as [Ha _].
  destruct (scanned_lua_files _ _ _ Ha) as [Hn Hp].
  pose proof (run_filters_chain w argv st (lua_files (tl argv)) 0 document
                false Hp) as [Hc _].
  assert (Hin : invoked tr_in = []).
  { apply parse_input_continue in Hi. destruct Hi as [_ [trf [-> [Hr _]]]].
    apply (invoked_no_lua [K_read; K_tree_new; K_parser_free]);
      [|not_listed].
    apply Forall_cons; [simpl; tauto|]. apply only_app; [|only_events].
    eapply only_weaken; [|exact Hr]. intros x [<-|[]]. simpl. tauto. }
  apply scanned_writer in Ha.
  unfold main. rewrite Hi. unfold filter_and_render.
  rewrite Hn, Nat2Z.id.
  destruct (run_filters w argv st (List.length (lua_files (tl argv))) 0
              document false) as [tr_f [[d' skip]|o]]; cbn [fst snd] in Hc.
  - destruct (print_document_renders w d' (writer st) (options st)
                (width st) Ha) as [Hs [Hp' _]].
    destruct (print_document w d' (writer st) (options st) (width st))
      as [trp stop]. cbn [fst snd] in Hs, Hp'. subst stop.
    unfold start_timer, end_timer.
    destruct skip; cbn [negb fst snd app]; rewrite !invoked_app, Hin, Hc.
    + cbn. apply app_nil_r.
    + rewrite (invoked_no_lua _ _ Hp') by not_listed. cbn.
      rewrite app_nil_r. reflexivity.
  - cbn [fst]. rewrite invoked_app, Hin, Hc. reflexivity.
Qed.

Lemma invoked_In e tr : In e (invoked tr) -> In e tr.
Proof.
  induction tr as [|x tr IH]; [tauto|].
  destruct x; cbn [invoked]; try (intros H; right; exact (IH H)).
  destruct args; cbn [invoked]; [intros H; right; exact (IH H)|].
  intros [H|H]; [left; exact H | right; exact (IH H)].
Qed.

(** The chain over the files [pre ++ rest], when the filters [pre] all
    return, is the chain over [pre] followed by the chain over [rest] on
    the tree that [pre] leaves. *)
Lemma invocations_app w fmt pre rest :
  forall i document d,
    filtered w fmt i pre document = Some d ->
    invocations w fmt i (pre ++ rest) document =
    invocations w fmt i pre document ++
    invocations w fmt (i + Z.of_nat (List.length pre)) rest d /\
    filtered w fmt i (pre ++ rest) document =
    filtered w fmt (i + Z.of_nat (List.length pre)) rest d.
Proof.
  induction pre as [|path pre IH]; intros i document d H.
  - cbn in H. injection H as <-. cbn. rewrite Z.add_0_r. auto.
  - cbn [app invocations filtered List.length] in H |- *.
    destruct (luaL_loadfile w i path); [discriminate|].
    destruct (lua_chunk w i path) as [e|f]; [discriminate|].
    destruct (lua_call w i f [LuaNode; LuaString fmt] document) as [[e|v] d'];
      [discriminate|].
    destruct (IH (i + 1) d' d H) as [E1 E2].
    replace (i + Z.of_nat (S (List.length pre)))
      with (i + 1 + Z.of_nat (List.length pre)) by lia.
    rewrite E1, E2. auto.
Qed.

(** When the filters [paths] all return, the loop of [main] over them
    returns with the tree they leave. *)
Lemma filtered_run w argv st paths i d s d' :
  (forall k, (k < List.length paths)%nat ->
             filter_path argv st (i + Z.of_nat k) = nth_error paths k) ->
  filtered w (format st) i paths d = Some d' ->
  exists tr s',
    run_filters w argv st (List.length paths) i d s
      = (tr, Continue (d', s')) /\
    only [K_lua] tr.
Proof.
  intros Hp Hf.
  destruct (run_filters_chain w argv st paths i d s Hp) as [_ H].
  pose proof (run_filters_spec w argv st (List.length paths) i d s) as R.
  destruct (run_filters w argv st (List.length paths) i d s) as [tr r].
  cbn [fst snd] in *.
  destruct r as [[d2 s2]|o]; [|congruence].
  destruct H as [H _]. rewrite Hf in H. injection H as <-.
  exists tr, s2. split; [reflexivity|].
  clear Hp Hf. remember (Continue (d', s2)) as r eqn:Er.
  revert d' s2 Er.
  induction R as [| ? ? ? ? ? ? H | ? ? ? ? ? ? ? ? ? H ? IH];
    intros d1 s1 Er; [apply only_nil | discriminate|].
  apply only_app; [|eapply IH; exact Er].
  inversion H; subst. unfold lua_setup. only_events.
Qed.

(** ** The flag [skip_rendering] *)

(** C3, as amended.  In a run that holds a tree and whose filters all
    return, each filter has returned one value, and [skip_rendering] is
    true after the loop if and only if the latest filter whose value is
    numeric returned a value equal to -1; [main] then makes no render
    call, and one otherwise.  Numeric is what [lua_isnumber] accepts: a
    number, or a string that Lua converts to a number.  In each turn
    the value the filter returns, when it is numeric, sets the flag if
    it equals -1 and clears it if not; a value that is not numeric
    leaves the flag as it was. *)
Theorem skip_rendering_follows_latest_numeric_return
    w argv tr_in st document :
  parse_input w argv = (tr_in, Continue (st, document)) ->
  (forall tr_f document' skip_rendering,
     run_filters w argv st (Z.to_nat (numluafps st)) 0 document false
       = (tr_f, Continue (document', skip_rendering)) ->
     let vals :=
       filter_returns
         (invocations w (format st) 0 (lua_files (tl argv)) document) in
     filter_returns tr_f = vals /\
     List.length vals = List.length (lua_files (tl argv)) /\
     (skip_rendering = true <->
      exists x, most_recent_numeric w vals = Some x /\
                number_eq x (-1) = true) /\
     snd (main w argv) = Exit 0 /\
     count K_render (fst (main w argv))
       = (if skip_rendering then 0 else 1)%nat) /\
  (forall i d before tr d' after,
     run_filter w argv st i d before = (tr, Continue (d', after)) ->
     exists path f v,
       filter_path argv st i = Some path /\
       lua_chunk w i path = inr f /\
       lua_call w i f [LuaNode; LuaString (format st)] d = (inr v, d') /\
       (lua_isnumber w [v] = true ->
        after = number_eq (lua_tonumber w [v]) (-1)) /\
       (lua_isnumber w [v] = false -> after = before)) /\
  (forall v,
     lua_isnumber w [v] = true <->
     (exists n, v = LuaNumber n) \/
     (exists s n, v = LuaString s /\ lua_str2number w s = Some n)).
Proof.
  intros Hi. split; [|split].
  - intros tr_f document' skip Hf vals.
    pose proof (parse_input_continue _ _ _ _ _ Hi) as [Ha _].
    destruct (scanned_lua_files _ _ _ Ha) as [Hn Hp].
    pose proof (run_filters_chain w argv st (lua_files (tl argv)) 0 document
                  false Hp) as [Hc Hr].
    rewrite Hn, Nat2Z.id in Hf. rewrite Hf in Hc, Hr. cbn [fst snd] in Hc, Hr.
    destruct Hr as [_ [_ [Hl Hs]]]. fold vals in Hl, Hs.
    split; [|split; [exact Hl|split; [|split]]].
    + rewrite <- filter_returns_invoked, Hc. reflexivity.
    + rewrite Hs, render_control_fold.
      destruct (most_recent_numeric w vals) as [x|].
      * split; [intros H; exists x; auto | intros [y [[= <-] H]]; exact H].
      * split; [discriminate | intros [y [H _]]; discriminate].
    + rewrite (main_unfold _ _ _ _ _ Hi). cbn [snd].
      unfold filter_and_render. rewrite Hn, Nat2Z.id, Hf.
      apply scanned_writer in Ha.
      destruct (print_document_renders w document' (writer st) (options st)
                  (width st) Ha) as [Hstop _].
      destruct (print_document w document' (writer st) (options st)
                  (width st)) as [trp stop]. cbn [snd] in Hstop. subst stop.
      destruct skip; reflexivity.
    + rewrite (main_unfold _ _ _ _ _ Hi). cbn [fst].
      unfold filter_and_render. rewrite Hn, Nat2Z.id, Hf.
      apply scanned_writer in Ha.
      destruct (print_document_renders w document' (writer st) (options st)
                  (width st) Ha) as [Hstop [_ Hone]].
      destruct (print_document w document' (writer st) (options st)
                  (width st)) as [trp stop]. cbn [fst snd] in Hstop, Hone.
      subst stop. apply run_filters_run in Hf.
      destruct (parsed_counts _ _ _ _ _ Hi) as [_ [C0 _]].
      unfold start_timer, end_timer.
      destruct skip; cbn [negb fst snd app];
        rewrite !count_app, (C0 K_render),
          (filters_counts _ _ _ _ _ _ _ _ _ K_render Hf) by not_listed.
      * reflexivity.
      * cbn. rewrite ?app_nil_r, Hone. reflexivity.
  - intros i d before tr d' after H.
    destruct (filter_path argv st i) as [path|] eqn:Ep.
    + rewrite (run_filter_eq _ _ _ _ _ _ _ Ep) in H.
      destruct (luaL_loadfile w i path); [discriminate|].
      destruct (lua_chunk w i path) as [e|f] eqn:Ec; [discriminate|].
      destruct (lua_call w i f [LuaNode; LuaString (format st)] d)
        as [[e|v] d1] eqn:Ef; [discriminate|].
      injection H as _ Hd Hs. subst d' after.
      exists path, f, v. unfold render_control.
      split; [reflexivity|]. split; [exact Ec|]. split; [exact Ef|].
      split; intros ->; reflexivity.
    + apply run_filter_run in H. inversion H; congruence.
  - intros v. unfold lua_isnumber. destruct v; split;
      try discriminate;
      try (intros [[n H]|[s0 [n [H _]]]]; discriminate);
      try (intros _; left; eexists; reflexivity);
      try reflexivity.
    + destruct (lua_str2number w s) as [n|] eqn:E; [|discriminate].
      intros _. right. exists s, n. auto.
    + intros [[n H]|[s0 [n [H E]]]]; [discriminate|].
      injection H as <-. rewrite E. reflexivity.
Qed.

Lemma skip_rendering_follows_latest_numeric_return_witness :
  let w := Toy.world 0 (Toy.text "# Hi") in
  let argv := ["cmark"; "--lua"; "zero.lua"; "--lua"; "text.lua";
               "--lua"; "nil.lua"] in
  snd (main w argv) = Exit 0 /\ count K_render (fst (main w argv)) = O.
Proof.
  intros w argv.
  destruct (skip_rendering_follows_latest_numeric_return w argv
              (fst (parse_input w argv)) (Toy.scanned w argv)
              (cmark_parse w 0 [Toy.text "# Hi"])) as [H _];
    [vm_compute; reflexivity|].
  destruct (H (fst (run_filters w argv (Toy.scanned w argv) 3 0
                      (cmark_parse w 0 [Toy.text "# Hi"]) false))
              {| Toy.source := [Toy.text "# Hi"];
                 Toy.edits := ["zero.lua"; "text.lua"; "nil.lua"] |} true)
    as [_ [_ [_ [E C]]]]; [vm_compute; reflexivity|].
  split; [exact E | exact C].
Defined.

(** C3, as the specification words it, fails: a filter that returns the
    string "-1", which is no number, sets [skip_rendering]. *)
Lemma string_return_sets_skip_rendering :
  ~ skip_follows_latest_number (Toy.world 0 (Toy.text "# Hi"))
      ["cmark"; "--lua"; "text.lua"].
Proof.
  intros H.
  set (w := Toy.world 0 (Toy.text "# Hi")) in *.
  set (argv := ["cmark"; "--lua"; "text.lua"]) in *.
  specialize (H (fst (parse_input w argv)) (Toy.scanned w argv)
                (cmark_parse w 0 [Toy.text "# Hi"])
                (fst (run_filters w argv (Toy.scanned w argv) 1 0
                        (cmark_parse w 0 [Toy.text "# Hi"]) false))
                {| Toy.source := [Toy.text "# Hi"];
                   Toy.edits := ["text.lua"] |} true).
  destruct H as [H _]; [vm_compute; reflexivity | vm_compute; reflexivity|].
  destruct (H eq_refl) as [x [Hx _]]. vm_compute in Hx. discriminate.
Qed.

(** ** Skipped rendering *)

(** C4.  When all filters have returned and left [skip_rendering] set,
    [main] calls no render operation, writes nothing to standard output,
    destroys the document tree, exactly once, and returns 0. *)
Theorem skipped_rendering_is_silent_and_succeeds
    w argv tr_in st document tr_f document' :
  parse_input w argv = (tr_in, Continue (st, document)) ->
  run_filters w argv st (Z.to_nat (numluafps st)) 0 document false
    = (tr_f, Continue (document', true)) ->
  snd (main w argv) = Exit 0 /\
  count K_render (fst (main w argv)) = O /\
  count K_stdout (fst (main w argv)) = O /\
  stdout_of (fst (main w argv)) = "" /\
  count K_tree_free (fst (main w argv)) = 1%nat.
Proof.
  intros Hi Hf. rewrite (main_unfold _ _ _ _ _ Hi).
  unfold filter_and_render. rewrite Hf.
  unfold start_timer, end_timer. cbn [negb fst snd app].
  apply run_filters_run in Hf.
  destruct (parsed_counts _ _ _ _ _ Hi) as [_ [C0 _]].
  assert (Hk : forall k, ~ In k [K_read; K_tree_new; K_parser_free] ->
                         ~ In k [K_lua; K_stderr] ->
                         count k (tr_in ++ tr_f ++
                           [E_cmark_node_free; E_free_files; E_free_luafiles])
                         = count k [E_cmark_node_free; E_free_files;
                                    E_free_luafiles]).
  { intros k H1 H2.
    rewrite !count_app, (C0 k H1), (filters_counts _ _ _ _ _ _ _ _ _ k Hf H2).
    reflexivity. }
  split; [reflexivity|].
  assert (Hout : count K_stdout (tr_in ++ tr_f ++
            [E_cmark_node_free; E_free_files; E_free_luafiles]) = O)
    by (rewrite Hk by not_listed; reflexivity).
  split; [rewrite Hk by not_listed; reflexivity|].
  split; [exact Hout|].
  split; [apply stdout_of_silent; exact Hout|].
  rewrite Hk by not_listed. reflexivity.
Qed.

Lemma skipped_rendering_is_silent_and_succeeds_witness :
  let w := Toy.world 0 (Toy.text "# Hi") in
  let argv := ["cmark"; "--lua"; "zero.lua"; "--lua"; "skip.lua"] in
  snd (main w argv) = Exit 0 /\
  count K_render (fst (main w argv)) = O /\
  count K_stdout (fst (main w argv)) = O /\
  stdout_of (fst (main w argv)) = "" /\
  count K_tree_free (fst (main w argv)) = 1%nat.
Proof.
  intros w argv.
  apply (skipped_rendering_is_silent_and_succeeds w argv
           (fst (parse_input w argv)) (Toy.scanned w argv)
           (cmark_parse w 0 [Toy.text "# Hi"])
           (fst (run_filters w argv (Toy.scanned w argv) 2 0
                   (cmark_parse w 0 [Toy.text "# Hi"]) false))
           {| Toy.source := [Toy.text "# Hi"];
              Toy.edits := ["zero.lua"; "skip.lua"] |});
    vm_compute; reflexivity.
Defined.

(** ** An error object without a message *)

(** C5 at a failing input.  A filter may raise any value.  For an error
    object that is neither a string nor a number [lua_tostring] gives
    the null pointer, which [main] hands to [fprintf] for a [%s] without
    a test: the behaviour is undefined, so that neither a diagnostic nor
    the status 3 or 5 is the outcome.  The first filter here raises
    [nil] when it is invoked, the second raises a table when its chunk
    is run. *)
Theorem error_object_without_message_is_printed_unchecked :
  main (Toy.world 0 (Toy.text "# Hi")) ["cmark"; "--lua"; "nomessage.lua"]
  = ([E_cmark_parser_new 0; E_cmark_parser_feed (Toy.text "# Hi");
      E_cmark_parser_finish; E_cmark_parser_free;
      E_luaL_newstate 0; E_luaL_openlibs 0; E_luaL_requiref 0 "utf8";
      E_luaL_requiref 0 "cmark"; E_luaL_loadfile 0 "nomessage.lua";
      E_lua_pcall 0 (LuaChunk "nomessage.lua") []
        (inr (LuaOther "nomessage.lua"));
      E_lua_pcall 0 (LuaOther "nomessage.lua") [LuaNode; LuaString "html"]
        (inl LuaNil)],
     Undefined) /\
  main (Toy.world 0 (Toy.text "# Hi")) ["cmark"; "--lua"; "table.lua"]
  = ([E_cmark_parser_new 0; E_cmark_parser_feed (Toy.text "# Hi");
      E_cmark_parser_finish; E_cmark_parser_free;
      E_luaL_newstate 0; E_luaL_openlibs 0; E_luaL_requiref 0 "utf8";
      E_luaL_requiref 0 "cmark"; E_luaL_loadfile 0 "table.lua";
      E_lua_pcall 0 (LuaChunk "table.lua") [] (inl (LuaOther "table"))],
     Undefined) /\
  lua_tostring (Toy.world 0 (Toy.text "# Hi")) [LuaNil] = None /\
  lua_tostring (Toy.world 0 (Toy.text "# Hi")) [LuaOther "table"] = None.
Proof. vm_compute. auto. Qed.

(** ** The arguments of the filters *)

(** After [-t name] or [--to name] with a known format name, and no
    further such flag, the format name is [name]. *)
Lemma parse_args_last_format w i flag name post st st' :
  flag = "-t" \/ flag = "--to" ->
  parse_args w i (flag :: name :: post) st = Scanned st' ->
  ~ In "-t" post -> ~ In "--to" post ->
  format st' = name.
Proof.
  intros Hflag H H1 H2.
  assert (E : parse_args w i (flag :: name :: post) st =
              match writer_of_name name with
              | Some wr => parse_args w (i + 2) post (set_format st name wr)
              | None => Stopped [E_fprintf_stderr
                                   ("Unknown format " ++ name ++ nl)%string]
                                (Exit 1)
              end)
    by (destruct Hflag as [-> | ->]; reflexivity).
  rewrite E in H. destruct (writer_of_name name) as [wr|]; [|discriminate].
  apply parse_args_format in H; [|assumption|assumption]. exact H.
Qed.

Lemma In_invoked L f a args r tr :
  In (E_lua_pcall L f (a :: args) r) tr ->
  In (E_lua_pcall L f (a :: args) r) (invoked tr).
Proof.
  induction tr as [|x tr IH]; [tauto|].
  intros [->|H]; [left; reflexivity|].
  specialize (IH H). destruct x; cbn [invoked]; try exact IH.
  destruct args0; [exact IH | right; exact IH].
Qed.

(** Every call of the chain has the two arguments. *)
Lemma invocations_args w fmt paths :
  forall i d L f args r,
    In (E_lua_pcall L f args r) (invocations w fmt i paths d) ->
    args = [LuaNode; LuaString fmt].
Proof.
  induction paths as [|path paths IH]; intros i d L f args r H; [destruct H|].
  cbn [invocations] in H.
  destruct (luaL_loadfile w i path); [destruct H|].
  destruct (lua_chunk w i path) as [e|f0]; [destruct H|].
  destruct (lua_call w i f0 [LuaNode; LuaString fmt] d) as [[e|v] d'].
  - destruct H as [H|[]]. injection H as _ _ <- _. reflexivity.
  - destruct H as [H|H]; [injection H as _ _ <- _; reflexivity|].
    eapply IH. exact H.
Qed.

(** C6.  In a run that holds a tree the format name is fixed by the scan
    of the arguments, before any Lua call is made: it is "html" when no
    [-t] or [--to] is given, and the name after the last such flag
    otherwise, and it names the writer used for rendering.  The calls
    [main] makes with arguments are those of the chain of the
    specification, in order: the filter of index [k], the [k]-th file
    named after [--lua], when the filters before it have returned and it
    loads, is invoked in the Lua state [k]; the callee is the value its
    chunk returned, the arguments are exactly two, the handle of the
    document tree and the format name, and the call runs on the tree as
    the filters before it have left it.  No call has another number of
    arguments than none or these two.  When the run returns 0 every
    filter of the list has been invoked. *)
Theorem filters_receive_tree_and_format w argv tr_in st document tr o :
  parse_input w argv = (tr_in, Continue (st, document)) ->
  main w argv = (tr, o) ->
  (writer_of_name (format st) = Some (writer st) /\
   count K_lua tr_in = O /\
   (~ In "-t" (tl argv) -> ~ In "--to" (tl argv) -> format st = "html") /\
   (forall pre flag name post st_pre,
      tl argv = pre ++ flag :: name :: post ->
      flag = "-t" \/ flag = "--to" ->
      parse_args w 1 pre (init_scan w (List.length argv)) = Scanned st_pre ->
      ~ In "-t" post -> ~ In "--to" post ->
      format st = name)) /\
  invoked tr = invocations w (format st) 0 (lua_files (tl argv)) document /\
  (forall pre path post d f,
     lua_files (tl argv) = pre ++ path :: post ->
     filtered w (format st) 0 pre document = Some d ->
     luaL_loadfile w (Z.of_nat (List.length pre)) path = None ->
     lua_chunk w (Z.of_nat (List.length pre)) path = inr f ->
     In (E_lua_pcall (Z.of_nat (List.length pre)) f
           [LuaNode; LuaString (format st)]
           (fst (lua_call w (Z.of_nat (List.length pre)) f
                   [LuaNode; LuaString (format st)] d)))
        tr) /\
  (forall L f args r,
     In (E_lua_pcall L f args r) tr ->
     args = [] \/ args = [LuaNode; LuaString (format st)]) /\
  (o = Exit 0 ->
   List.length (invoked tr) = List.length (lua_files (tl argv)) /\
   exists d', filtered w (format st) 0 (lua_files (tl argv)) document
              = Some d').
Proof.
  intros Hi Hm.
  pose proof (parse_input_continue _ _ _ _ _ Hi) as [Ha _].
  destruct (parsed_counts _ _ _ _ _ Hi) as [_ [C0 _]].
  pose proof (main_invoked _ _ _ _ _ Hi) as Hinv.
  rewrite Hm in Hinv. cbn [fst] in Hinv.
  split; [split; [|split; [|split]]|split; [|split; [|split]]].
  - apply parse_args_writer in Ha; [exact Ha | reflexivity].
  - apply C0. not_listed.
  - intros H1 H2. apply parse_args_format in Ha; assumption.
  - intros pre flag name post st_pre Eargv Hflag Hpre H1 H2.
    rewrite Eargv, (parse_args_app _ _ _ _ _ _ Hpre) in Ha.
    eapply parse_args_last_format; eassumption.
  - exact Hinv.
  - intros pre path post d f Epaths Hd Hl Hc.
    apply invoked_In. rewrite Hinv, Epaths.
    destruct (invocations_app w (format st) pre (path :: post) 0 document d Hd)
      as [-> _].
    apply in_or_app. right. cbn [invocations Z.add]. rewrite Hl, Hc.
    destruct (lua_call w (Z.of_nat (List.length pre)) f
                [LuaNode; LuaString (format st)] d) as [[e|v] d'];
      left; reflexivity.
  - intros L f [|a args] r H; [left; reflexivity | right].
    apply In_invoked in H. rewrite Hinv in H.
    eapply invocations_args. exact H.
  - intros ->. rewrite Hinv.
    destruct (scanned_lua_files _ _ _ Ha) as [Hn Hp].
    pose proof (run_filters_chain w argv st (lua_files (tl argv)) 0 document
                  false Hp) as [_ Hr].
    rewrite (main_unfold _ _ _ _ _ Hi) in Hm. injection Hm as _ Ho.
    unfold filter_and_render in Ho. rewrite Hn, Nat2Z.id in Ho.
    pose proof (run_filters_spec w argv st
                  (List.length (lua_files (tl argv))) 0 document false) as R.
    destruct (run_filters w argv st (List.length (lua_files (tl argv))) 0
                document false) as [tr_f [[d' skip]|o]]; cbn [fst snd] in *.
    + destruct Hr as [F [L _]]. split; [exact L | exists d'; exact F].
    + exfalso. rewrite <- (Nat2Z.id (List.length _)), <- Hn in R.
      destruct (filters_stop_status _ _ _ _ _ _ _ Hi R) as [H|[H|H]];
        congruence.
Qed.

Lemma filters_receive_tree_and_format_witness :
  let w := Toy.world 0 (Toy.text "# Hi") in
  let argv := ["cmark"; "-t"; "xml"; "--lua"; "zero.lua"; "--to"; "latex";
               "--lua"; "nil.lua"] in
  invoked (fst (main w argv)) =
  [E_lua_pcall 0 (LuaOther "zero.lua") [LuaNode; LuaString "latex"]
     (inr (LuaNumber (Finite 0)));
   E_lua_pcall 1 (LuaOther "nil.lua") [LuaNode; LuaString "latex"]
     (inr LuaNil)].
Proof.
  intros w argv.
  destruct (filters_receive_tree_and_format w argv
              (fst (parse_input w argv)) (Toy.scanned w argv)
              (cmark_parse w 0 [Toy.text "# Hi"])
              (fst (main w argv)) (snd (main w argv)))
    as [_ [H _]].
  - vm_compute. reflexivity.
  - apply surjective_pairing.
  - rewrite H. vm_compute. reflexivity.
Defined.

(** ** The wrap width *)

(** C8, as amended.  [print_document] hands the width to the renderers
    of the formats man, commonmark and latex, whose output is what the
    renderer makes of the document, the options and that width; for html
    and xml the renderer is not given the width, and what is written is
    the same for every width as for width 0.  The usage text gives width
    0 as the default and as meaning no wrapping. *)
Theorem width_reaches_man_commonmark_latex
    w (document : cmark_node w) options width :
  (forall writer, In writer [FORMAT_HTML; FORMAT_XML] ->
     print_document w document writer options width =
     print_document w document writer options 0) /\
  print_document w document FORMAT_MAN options width =
    ([E_cmark_render_man options width;
      E_printf (cmark_render_man w document options width)], None) /\
  print_document w document FORMAT_COMMONMARK options width =
    ([E_cmark_render_commonmark options width;
      E_printf (cmark_render_commonmark w document options width)], None) /\
  print_document w document FORMAT_LATEX options width =
    ([E_cmark_render_latex options width;
      E_printf (cmark_render_latex w document options width)], None) /\
  In (E_printf ("  --width WIDTH    Specify wrap width (default 0 = nowrap)"
                ++ nl)%string) print_usage.
Proof.
  split; [|repeat split].
  - intros writer [<-|[<-|[]]]; reflexivity.
  - unfold print_usage. simpl. tauto.
Qed.

Lemma width_reaches_man_commonmark_latex_witness :
  let w := Toy.world 0 [] in
  let document := cmark_parse w 0 [Toy.text "# Hi"] in
  print_document w document FORMAT_XML 0 72 =
  print_document w document FORMAT_XML 0 0.
Proof.
  intros w document.
  apply (proj1 (width_reaches_man_commonmark_latex w document 0 72)).
  simpl. tauto.
Defined.

(** C8, as the specification words it, fails for man: the man renderer
    is given the width, and one that wraps writes another text for width
    72 than for width 0. *)
Lemma man_output_depends_on_width :
  ~ width_ignored_outside_reflow_formats (Toy.world 0 []).
Proof.
  intros H.
  specialize (H (cmark_parse (Toy.world 0 []) 0 [Toy.text "# Hi"])
                FORMAT_MAN 0 72).
  assert (Hin : In FORMAT_MAN [FORMAT_HTML; FORMAT_XML; FORMAT_MAN])
    by (simpl; tauto).
  specialize (H Hin). vm_compute in H. discriminate.
Qed.

Lemma read_digits_all s acc count :
  all_digits s = true ->
  exists v, LibC.read_digits s acc count
            = ((count + String.length s)%nat, v, "").
Proof.
  revert acc count. induction s as [|c s IH]; intros acc count H;
    cbn [LibC.read_digits all_digits String.length] in *.
  - exists acc. rewrite Nat.add_0_r. reflexivity.
  - apply andb_true_iff in H. destruct H as [Hc Hs]. rewrite Hc.
    destruct (IH (10 * acc + LibC.digit_value c) (S count) Hs) as [v ->].
    exists v. f_equal. f_equal. lia.
Qed.

Lemma read_digits_to_end s acc count count' v :
  LibC.read_digits s acc count = (count', v, "") -> all_digits s = true.
Proof.
  revert acc count. induction s as [|c s IH]; intros acc count H;
    cbn [LibC.read_digits all_digits] in *; [reflexivity|].
  destruct (LibC.isdigit c); [|discriminate]. simpl. eapply IH, H.
Qed.

(** [strtol] reads its argument to the end exactly when the argument is
    a valid integer, or empty. *)
Lemma strtol_rest s :
  snd (LibC.strtol s) = "" <-> s = "" \/ valid_integer s = true.
Proof.
  unfold LibC.strtol, valid_integer.
  set (d := LibC.strip_sign (LibC.skip_spaces s)).
  set (negative := match LibC.skip_spaces s with
                   | String c _ => Ascii.eqb c "-"
                   | EmptyString => false
                   end).
  split.
  - destruct (LibC.read_digits d 0 0) as [[count v] rest] eqn:E.
    destruct count as [|count]; cbn [snd]; [tauto|].
    intros ->. right. rewrite (read_digits_to_end _ _ _ _ _ E).
    destruct d; [discriminate | reflexivity].
  - intros [->|H]; [reflexivity|].
    apply andb_true_iff in H. destruct H as [Hne Hd].
    destruct (read_digits_all d 0 0 Hd) as [v ->].
    destruct d; [discriminate | reflexivity].
Qed.

(** One turn of the scan at [--width] with an argument. *)
Lemma parse_args_width_step w i value post st :
  parse_args w i ("--width" :: value :: post) st =
  if (0 <? String.length (snd (LibC.strtol value)))%nat
  then Stopped [E_fprintf_stderr
                  ("failed parsing width '" ++ value ++ "' at '"
                   ++ snd (LibC.strtol value) ++ "'" ++ nl)%string]
               (Exit 1)
  else parse_args w (i + 2) post
         (set_width st (LibC.int_of_long (fst (LibC.strtol value)))).
Proof.
  cbn [parse_args]. change (streq "--width" "--version") with false.
  cbv iota. destruct (LibC.strtol value) as [v unparsed]. reflexivity.
Qed.

(** C9, as amended.  When the left-to-right scan of the arguments
    reaches a [--width] (every argument before it is accepted) that is
    followed by a non-empty argument that is not a valid integer, or by
    no argument, [main] prints an error on standard error and exits with
    status 1 without having created the parser.  When no argument is
    [--width], the width is 0. *)
Theorem unparsed_width_is_fatal_when_reached w argv :
  (forall pre value post st,
     tl argv = pre ++ "--width" :: value :: post ->
     parse_args w 1 pre (init_scan w (List.length argv)) = Scanned st ->
     value <> "" -> valid_integer value = false ->
     main w argv =
     ([E_fprintf_stderr ("failed parsing width '" ++ value ++ "' at '"
                         ++ snd (LibC.strtol value) ++ "'" ++ nl)%string],
      Exit 1)) /\
  (forall pre st,
     tl argv = pre ++ ["--width"] ->
     parse_args w 1 pre (init_scan w (List.length argv)) = Scanned st ->
     main w argv =
     ([E_fprintf_stderr ("--width requires an argument" ++ nl)%string],
      Exit 1)) /\
  (~ In "--width" (tl argv) ->
   forall tr_in st document,
     parse_input w argv = (tr_in, Continue (st, document)) ->
     width st = 0).
Proof.
  split; [|split].
  - intros pre value post st Eargv Hpre Hne Hbad.
    assert (Hrest : snd (LibC.strtol value) <> "").
    { intros E. apply strtol_rest in E. destruct E as [E|E]; congruence. }
    unfold main, parse_input.
    rewrite Eargv, (parse_args_app _ _ _ _ _ _ Hpre), parse_args_width_step.
    destruct (snd (LibC.strtol value)) as [|c rest]; [congruence|].
    reflexivity.
  - intros pre st Eargv Hpre. unfold main, parse_input.
    rewrite Eargv, (parse_args_app _ _ _ _ _ _ Hpre). reflexivity.
  - intros Hin tr_in st document Hi.
    apply parse_input_continue in Hi. destruct Hi as [Ha _].
    apply parse_args_width in Ha; [exact Ha | exact Hin].
Qed.

Lemma unparsed_width_is_fatal_when_reached_witness :
  let w := Toy.world 0 (Toy.text "# Hi") in
  main w ["cmark"; "--smart"; "--lua"; "zero.lua"; "--width"; "12abc"; "a.md"]
  = ([E_fprintf_stderr ("failed parsing width '12abc' at 'abc'" ++ nl)%string],
     Exit 1).
Proof.
  intros w.
  apply (proj1 (unparsed_width_is_fatal_when_reached w
           ["cmark"; "--smart"; "--lua"; "zero.lua"; "--width"; "12abc"; "a.md"])
           ["--smart"; "--lua"; "zero.lua"] "12abc" ["a.md"]
           (Toy.scan_of w 7 ["--smart"; "--lua"; "zero.lua"])).
  - reflexivity.
  - vm_compute. reflexivity.
  - discriminate.
  - vm_compute. reflexivity.
Defined.

(** C9, as the specification words it, fails: [--help] before
    [--width abc] makes [main] print the usage text and exit with status
    0. *)
Lemma bad_width_after_help_is_not_fatal :
  ~ bad_width_is_fatal (Toy.world 0 []) ["cmark"; "--help"; "--width"; "abc"].
Proof.
  intros H. destruct (H ["--help"] "abc" [] eq_refl eq_refl) as [msg E].
  vm_compute in E. discriminate.
Qed.

(** ** The counter [numfps] *)

(** C7 at a failing input.  With the file a.md named on the command
    line, and [numfps] holding 1 when [main] starts, the index of a.md is
    stored in [files[1]] and the loop over the files reads [files[0]],
    which holds no value: a.md is never opened.  With no file named, and
    [numfps] holding -1, neither loop runs and standard input is never
    fed to the parser. *)
Theorem files_not_read_when_numfps_starts_nonzero :
  main (Toy.world 1 (Toy.text "# Hi")) ["cmark"; "a.md"]
    = ([E_cmark_parser_new 0], Undefined) /\
  fed (fst (main (Toy.world (-1) (Toy.text "# Hi")) ["cmark"])) = [] /\
  snd (main (Toy.world (-1) (Toy.text "# Hi")) ["cmark"]) = Exit 0.
Proof. vm_compute. auto. Qed.

(** C10 at a failing input.  [numfps] is read before it is written: the
    scan starts from the value the variable happens to hold.  For the
    command line without arguments and the same bytes on standard input,
    [main] feeds standard input to the parser when that value is 0 and
    feeds nothing when it is -1. *)
Theorem numfps_is_not_initialized :
  (forall w argc, numfps (init_scan w argc) = numfps_indeterminate w) /\
  fed (fst (main (Toy.world 0 (Toy.text "# Hi")) ["cmark"]))
    = [Toy.text "# Hi"] /\
  fed (fst (main (Toy.world (-1) (Toy.text "# Hi")) ["cmark"])) = [].
Proof. split; [reflexivity | vm_compute; auto]. Qed.

(** ** The input protocol when [numfps] starts at 0 *)

(** The chunks of one stream: they make up the stream, none is empty or
    longer than the buffer, and every chunk but the last fills the
    buffer (the loop stops at the first short read). *)
Lemma fread_loop_chunks size stream :
  (0 < size)%nat ->
  fread_loop size stream = map E_cmark_parser_feed (fed (fread_loop size stream))
  /\ List.concat (fed (fread_loop size stream)) = stream
  /\ Forall (fun c => (0 < List.length c <= size)%nat)
            (fed (fread_loop size stream))
  /\ forall pre c post,
       fed (fread_loop size stream) = pre ++ c :: post -> post <> [] ->
       List.length c = size.
Proof.
  funelim (fread_loop size stream); intros Hsize.
  - assert (stream = [])
      by (destruct size; [lia | destruct stream; [reflexivity | discriminate]]).
    subst stream. simpl. repeat split; auto.
    intros [|x pre] c post E; discriminate.
  - assert (Hle : (List.length (b :: chunk) <= size)%nat)
      by (rewrite <- e; apply firstn_le_length).
    destruct (List.length (b :: chunk) <? size)%nat eqn:Hshort.
    + apply Nat.ltb_lt in Hshort.
      assert (Hall : b :: chunk = stream).
      { rewrite <- e. apply firstn_all2.
        rewrite <- e, length_firstn in Hshort. lia. }
      cbn [fed map List.concat]. rewrite app_nil_r.
      repeat split; auto.
      * constructor; [simpl in *; lia | constructor].
      * intros [|x [|y pre]] c post E Hp; try discriminate.
        injection E as _ <-. congruence.
    + apply Nat.ltb_ge in Hshort.
      destruct (H Hsize) as [H1 [H2 [H3 H4]]].
      cbn [fed map List.concat]. repeat split.
      * f_equal. exact H1.
      * rewrite H2, <- e. apply firstn_skipn.
      * constructor; [simpl in *; lia | exact H3].
      * intros [|x pre] c post E Hp.
        -- injection E as <- _. lia.
        -- injection E as _ E. eapply H4; eassumption.
Qed.

Lemma feed_chunks stream :
  feed stream = map E_cmark_parser_feed (fed (feed stream))
  /\ List.concat (fed (feed stream)) = stream
  /\ Forall (fun c => (0 < List.length c <= sizeof_buffer)%nat)
            (fed (feed stream))
  /\ forall pre c post,
       fed (feed stream) = pre ++ c :: post -> post <> [] ->
       List.length c = sizeof_buffer.
Proof.
  apply fread_loop_chunks. unfold sizeof_buffer. apply Nat.lt_0_succ.
Qed.

(** The scan stores the indices of the positional arguments in [files],
    in order, from cell [numfps] on. *)
Lemma parse_args_files w argv i rest st st' paths :
  parse_args w i rest st = Scanned st' ->
  skipn (Z.to_nat i) argv = rest -> 1 <= i ->
  numfps st = Z.of_nat (List.length paths) ->
  names argv (files st) paths ->
  numfps st' = Z.of_nat (List.length (paths ++ positional rest)) /\
  names argv (files st') (paths ++ positional rest).
Proof.
  revert paths.
  functional induction (parse_args w i rest st); intros paths H Hk Hi Hn Hf;
    try discriminate;
    try (same_branch; apply IHs; try assumption;
         [ replace (Z.to_nat (i + 1)) with (S (Z.to_nat i)) by lia;
           apply (skipn_cons_nth _ _ _ _ _ Hk)
         | lia ]).
  - injection H as <-. simpl. rewrite app_nil_r. auto.
  - same_branch. apply IHs; try assumption; [|lia].
    replace (Z.to_nat (i + 2)) with (S (S (Z.to_nat i))) by lia.
    apply skipn_cons_nth in Hk. destruct Hk as [_ Hk].
    apply skipn_cons_nth in Hk. apply Hk.
  - same_branch. apply IHs; try assumption; [|lia].
    replace (Z.to_nat (i + 2)) with (S (S (Z.to_nat i))) by lia.
    apply skipn_cons_nth in Hk. destruct Hk as [_ Hk].
    apply skipn_cons_nth in Hk. apply Hk.
  - same_branch. apply IHs; try assumption; [|lia].
    replace (Z.to_nat (i + 2)) with (S (S (Z.to_nat i))) by lia.
    apply skipn_cons_nth in Hk. destruct Hk as [_ Hk].
    apply skipn_cons_nth in Hk. apply Hk.
  - same_branch.
    replace (paths ++ arg :: positional rest')
      with ((paths ++ [arg]) ++ positional rest')
      by (rewrite <- app_assoc; reflexivity).
    apply skipn_cons_nth in Hk. destruct Hk as [Harg Hk].
    apply IHs; try assumption.
    + replace (Z.to_nat (i + 1)) with (S (Z.to_nat i)) by lia. exact Hk.
    + lia.
    + cbn [numfps push_file]. rewrite length_app. simpl. lia.
    + cbn [files push_file]. eapply names_store; [exact Hf | |].
      * rewrite <- Hn. eassumption.
      * unfold LibC.arg_at. replace (0 <=? i) with true by lia. exact Harg.
Qed.

Lemma read_files_paths w argv st paths n i0 :
  (forall k, (k < List.length paths)%nat ->
             file_name argv (files st) (i0 + k) = nth_error paths k) ->
  n = List.length paths ->
  read_files w argv st n (Z.of_nat i0) = read_paths w paths.
Proof.
  revert paths i0. induction n as [|n IH]; intros paths i0 N Hn.
  - destruct paths; [reflexivity | discriminate].
  - destruct paths as [|p paths]; [discriminate|].
    cbn [read_files read_paths].
    pose proof (N O) as N0. rewrite Nat.add_0_r in N0.
    unfold file_name in N0. cbn [nth_error List.length] in N0.
    destruct (LibC.load (files st) (Z.of_nat i0)) as [idx|];
      [|discriminate N0; lia].
    rewrite N0 by lia.
    replace (Z.of_nat i0 + 1) with (Z.of_nat (S i0)) by lia.
    rewrite (IH paths (S i0)).
    + reflexivity.
    + intros k Hk. replace (S i0 + k)%nat with (i0 + S k)%nat by lia.
      apply (N (S k)). simpl. lia.
    + simpl in Hn. lia.
Qed.

(** When [numfps] happens to hold 0 at the start of [main], the files
    that [main] reads are the positional arguments, in the order given,
    by the protocol [read_paths], and standard input is read exactly
    when there is none. *)
Lemma files_fed_in_order_when_numfps_starts_at_zero w argv st :
  numfps_indeterminate w = 0 ->
  parse_args w 1 (tl argv) (init_scan w (List.length argv)) = Scanned st ->
  read_files w argv st (Z.to_nat (numfps st)) 0
    = read_paths w (positional (tl argv)) /\
  ((numfps st =? 0) = true <-> positional (tl argv) = []).
Proof.
  intros Hz Ha.
  destruct (parse_args_files w argv 1 (tl argv) _ st [] Ha) as [Hn Hf].
  - destruct argv; reflexivity.
  - lia.
  - exact Hz.
  - intros k Hk. simpl in Hk. lia.
  - simpl in Hn, Hf. split.
    + apply (read_files_paths w argv st (positional (tl argv)) _ O).
      * intros k Hk. apply Hf. exact Hk.
      * rewrite Hn. apply Nat2Z.id.
    + rewrite Hn, Z.eqb_eq. destruct (positional (tl argv));
        [tauto | simpl; split; [lia | discriminate]].
Qed.

(** * Further properties of the driver *)

(** ** The read loop *)

(** X1.  The read loop feeds a stream to the parser in chunks that, put
    together, are the stream: no chunk is empty or longer than the
    buffer of 4096 bytes, every chunk but the last fills the buffer, and
    an empty stream feeds nothing.  The loop makes no other call. *)
Theorem feed_delivers_stream_in_chunks stream :
  feed stream = map E_cmark_parser_feed (fed (feed stream)) /\
  List.concat (fed (feed stream)) = stream /\
  Forall (fun c => (0 < List.length c <= 4096)%nat) (fed (feed stream)) /\
  (forall pre c post,
     fed (feed stream) = pre ++ c :: post -> post <> [] ->
     List.length c = 4096%nat) /\
  (fed (feed stream) = [] <-> stream = []).
Proof.
  destruct (fread_loop_chunks sizeof_buffer stream) as [H1 [H2 [H3 H4]]];
    [unfold sizeof_buffer; apply Nat.lt_0_succ|].
  fold (feed stream) in *.
  split; [exact H1|]. split; [exact H2|]. split; [exact H3|].
  split; [exact H4|]. split.
  - intros E. rewrite E in H2. symmetry. exact H2.
  - intros ->. destruct (fed (feed [])) as [|c cs]; [reflexivity|].
    inversion H3 as [|? ? Hc _]; subst.
    destruct c; [simpl in Hc; lia | discriminate].
Qed.

(** ** Access to the arrays *)

(** A scan that starts with both counters inside the arrays never
    stores outside them. *)
Lemma parse_args_defined w i rest st tr o argc :
  parse_args w i rest st = Stopped tr o ->
  i + Z.of_nat (List.length rest) = argc -> 1 <= i ->
  Z.of_nat (List.length (files st)) = argc ->
  Z.of_nat (List.length (luafiles st)) = argc ->
  0 <= numfps st < i -> 0 <= numluafps st < i ->
  o <> Undefined.
Proof.
  functional induction (parse_args w i rest st);
    intros H Hlen Hi Hf Hl Hn Hm;
    try discriminate;
    try (injection H as <- <-; discriminate);
    try (apply IHs; cbn [List.length files luafiles numfps numluafps
                         set_options set_width set_format] in *;
         solve [assumption | lia]).
  - apply IHs; cbn [List.length files luafiles numfps numluafps push_luafile]
      in *; try solve [assumption | lia].
    erewrite store_length by eassumption. exact Hl.
  - exfalso. unfold LibC.store in *. cbn [List.length] in Hlen.
    replace ((0 <=? numluafps st) && (numluafps st <?
             Z.of_nat (List.length (luafiles st)))) with true in * by lia.
    discriminate.
  - apply IHs; cbn [List.length files luafiles numfps numluafps push_file]
      in *; try solve [assumption | lia].
    erewrite store_length by eassumption. exact Hf.
  - exfalso. unfold LibC.store in *. cbn [List.length] in Hlen.
    replace ((0 <=? numfps st) && (numfps st <?
             Z.of_nat (List.length (files st)))) with true in * by lia.
    discriminate.
Qed.

Lemma read_paths_outcome w paths tr o :
  read_paths w paths = (tr, Some o) -> o = Exit 1.
Proof.
  revert tr. induction paths as [|p paths IH]; intros tr H; simpl in H;
    [discriminate|].
  destruct (fopen w p); [injection H as _ <-; reflexivity|].
  destruct (read_paths w paths) as [tr' o']. injection H as _ ->.
  eapply IH. reflexivity.
Qed.

Lemma parse_input_defined w argv tr o :
  numfps_indeterminate w = 0 ->
  parse_input w argv = (tr, Return o) -> o <> Undefined.
Proof.
  intros Hz. unfold parse_input.
  destruct (parse_args w 1 (tl argv) _) as [st|tr0 o0] eqn:Ea.
  - destruct (files_fed_in_order_when_numfps_starts_at_zero w argv st Hz Ea)
      as [Er _].
    rewrite Er.
    destruct (read_paths w (positional (tl argv))) as [trf [x|]] eqn:Ep;
      [|discriminate].
    intros H. injection H as _ <-. apply read_paths_outcome in Ep. subst x.
    discriminate.
  - intros H. injection H as _ <-. destruct argv as [|prog args].
    + discriminate Ea.
    + eapply parse_args_defined with (argc := Z.of_nat (List.length (prog :: args)));
        [exact Ea | | | | | |].
      * cbn [tl List.length]. lia.
      * lia.
      * simpl. unfold LibC.malloc. rewrite repeat_length. reflexivity.
      * simpl. unfold LibC.malloc. rewrite repeat_length. reflexivity.
      * cbn [numfps init_scan]. lia.
      * cbn [numluafps init_scan]. lia.
Qed.

(** X2.  When [numfps] holds 0 at the start of [main], every access to
    the arrays [files], [luafiles] and [argv] is inside the array and
    reads a cell that was written.  The process ends with status 0, 1,
    3 or 5, but for one case of undefined behaviour, which is no access
    to an array: the last call of the run is a protected call that has
    raised an error object without a message, which [main] hands to
    [fprintf] unchecked.  When every error object that a chunk or a
    call raises has a message, no run has undefined behaviour. *)
Theorem arrays_stay_in_bounds_when_numfps_starts_at_zero w argv tr o :
  numfps_indeterminate w = 0 ->
  main w argv = (tr, o) ->
  (o = Exit 0 \/ o = Exit 1 \/ o = Exit 3 \/ o = Exit 5 \/
   (o = Undefined /\ null_message w tr)) /\
  ((forall L path e, lua_chunk w L path = inl e -> lua_tostring w [e] <> None) ->
   (forall L f args d e d',
      lua_call w L f args d = (inl e, d') -> lua_tostring w [e] <> None) ->
   o <> Undefined).
Proof.
  intros Hz Hm. apply main_run in Hm.
  destruct Hm as [tr o Hi | tr_in st document tr_f o Hi Hf
                 | tr_in st document tr_f document' skip Hi Hf].
  - pose proof (parse_input_defined _ _ _ _ Hz Hi) as Hd.
    apply parse_input_return in Hi. split; [|intros _ _; exact Hd].
    destruct Hi as [_ [-> | [-> | ->]]]; tauto || congruence.
  - destruct (filters_defined _ _ _ _ _ _ _ Hi Hf)
      as [[[-> | ->] _]|[-> [Hn [k [d' He]]]]].
    + split; [tauto | discriminate].
    + split; [tauto | discriminate].
    + split.
      * right. right. right. right. split; [reflexivity|].
        destruct Hn as [tr0 [L [f [args [e [-> Hn]]]]]].
        exists (tr_in ++ tr0), L, f, args, e.
        split; [apply app_assoc | exact Hn].
      * intros Hc Hcall _.
        destruct He as [path [_ [_ [[e [E N]]|[f [e [d1 [_ [E N]]]]]]]]].
        -- exact (Hc _ _ _ E N).
        -- exact (Hcall _ _ _ _ _ _ E N).
  - split; [tauto | discriminate].
Qed.

Lemma arrays_stay_in_bounds_when_numfps_starts_at_zero_witness :
  snd (main (Toy.world 0 (Toy.text "# Hi"))
         ["cmark"; "a.md"; "--lua"; "zero.lua"; "b.md"]) <> Undefined.
Proof.
  destruct (arrays_stay_in_bounds_when_numfps_starts_at_zero
              (Toy.world 0 (Toy.text "# Hi"))
              ["cmark"; "a.md"; "--lua"; "zero.lua"; "b.md"]
              (fst (main (Toy.world 0 (Toy.text "# Hi"))
                      ["cmark"; "a.md"; "--lua"; "zero.lua"; "b.md"]))
              (snd (main (Toy.world 0 (Toy.text "# Hi"))
                      ["cmark"; "a.md"; "--lua"; "zero.lua"; "b.md"])))
    as [[H|[H|[H|[H|[H _]]]]] _];
    [reflexivity | apply surjective_pairing | ..];
    rewrite H; discriminate.
Defined.

(** ** What the parser is fed *)

Lemma fed_app tr1 tr2 : fed (tr1 ++ tr2) = fed tr1 ++ fed tr2.
Proof.
  induction tr1 as [|e tr1 IH]; [reflexivity|].
  destruct e; simpl; auto. f_equal. exact IH.
Qed.

Lemma feed_bytes stream :
  List.concat (fed (feed stream)) = stream /\
  Forall (fun c => (0 < List.length c <= 4096)%nat) (fed (feed stream)).
Proof.
  destruct (fread_loop_chunks sizeof_buffer stream) as [_ [H2 [H3 _]]];
    [unfold sizeof_buffer; apply Nat.lt_0_succ|].
  split; assumption.
Qed.

(** When all the files open, the protocol feeds their bytes in order. *)
Lemma read_paths_bytes w paths tr :
  read_paths w paths = (tr, None) ->
  Forall (fun p => exists c, fopen w p = inr c) paths /\
  List.concat (fed tr) = List.concat (map (contents w) paths) /\
  Forall (fun c => (0 < List.length c <= 4096)%nat) (fed tr).
Proof.
  revert tr. induction paths as [|p paths IH]; intros tr H; simpl in H.
  - injection H as <-. simpl. auto.
  - destruct (fopen w p) as [err|c] eqn:Ep; [discriminate|].
    destruct (read_paths w paths) as [tr' o'] eqn:Er. injection H as <- ->.
    destruct (IH tr' eq_refl) as [I1 [I2 I3]].
    destruct (feed_bytes c) as [F1 F2].
    split; [constructor; [eauto | exact I1]|].
    cbn [fed]. rewrite fed_app. cbn [fed map List.concat].
    unfold contents at 1. rewrite Ep, concat_app, F1, I2.
    split; [reflexivity|]. apply Forall_app. split; assumption.
Qed.

(** X3.  When [numfps] holds 0 at the start of [main], a run that
    reaches [cmark_parser_finish] has opened every positional argument,
    and the chunks it fed to the parser, put together, are the bytes of
    these files in the order of the command line, or the bytes of
    standard input when no file is named; standard input is not read
    when a file is named.  The tree is the one parsed from these chunks
    with the options of the scan. *)
Theorem parser_receives_files_in_order_or_stdin w argv tr st document :
  numfps_indeterminate w = 0 ->
  parse_input w argv = (tr, Continue (st, document)) ->
  Forall (fun p => exists c, fopen w p = inr c) (positional (tl argv)) /\
  List.concat (fed tr) = input_bytes w (positional (tl argv)) /\
  Forall (fun c => (0 < List.length c <= 4096)%nat) (fed tr) /\
  document = cmark_parse w (options st) (fed tr).
Proof.
  intros Hz. unfold parse_input.
  destruct (parse_args w 1 (tl argv) _) as [st0|tr0 o0] eqn:Ea; [|discriminate].
  destruct (files_fed_in_order_when_numfps_starts_at_zero w argv st0 Hz Ea)
    as [Er Hn].
  rewrite Er.
  destruct (read_paths w (positional (tl argv))) as [trf [x|]] eqn:Ep;
    [discriminate|].
  intros H. injection H as <- <- <-.
  destruct (read_paths_bytes _ _ _ Ep) as [P1 [P2 P3]].
  unfold start_timer, end_timer. cbn [app fed].
  rewrite !fed_app. cbn [fed]. rewrite !app_nil_r.
  split; [exact P1|].
  destruct (positional (tl argv)) as [|p ps] eqn:Epos.
  - assert (E0 : (numfps st0 =? 0) = true) by (apply Hn; reflexivity).
    rewrite E0. simpl in Ep. injection Ep as <-.
    destruct (feed_bytes (stdin w)) as [F1 F2]. simpl. auto.
  - assert (E0 : (numfps st0 =? 0) = false).
    { destruct (numfps st0 =? 0); [|reflexivity].
      destruct Hn as [Hn _]. discriminate (Hn eq_refl). }
    rewrite E0. simpl fed. rewrite !app_nil_r.
    split; [exact P2 | split; [exact P3 | reflexivity]].
Qed.

Lemma parser_receives_files_in_order_or_stdin_witness :
  let w := Toy.world 0 (Toy.text "stdin") in
  let argv := ["cmark"; "big.md"; "--smart"; "a.md"] in
  List.concat (fed (fst (parse_input w argv))) =
  repeat x61 5000 ++ Toy.text "# Hi".
Proof.
  intros w argv.
  pose proof (parser_receives_files_in_order_or_stdin w argv
                (fst (parse_input w argv)) (Toy.scanned w argv)
                (cmark_parse w 1024 (fed (fst (parse_input w argv))))
                eq_refl) as H.
  destruct H as [_ [H _]]; [vm_compute; reflexivity|].
  rewrite H. vm_compute. reflexivity.
Defined.

(** ** A file that cannot be opened *)

Lemma read_files_exit w argv st n i tr status :
  read_files w argv st n i = (tr, Some (Exit status)) ->
  status = 1 /\
  exists tr0 p err,
    tr = tr0 ++ [E_fopen p;
                 E_fprintf_stderr ("Error opening file " ++ p ++ ": "
                                   ++ err ++ nl)%string] /\
    fopen w p = inl err.
Proof.
  revert i tr. induction n as [|n IH]; intros i tr H; simpl in H;
    [discriminate|].
  destruct (LibC.load (files st) i) as [idx|]; [|discriminate].
  destruct (LibC.arg_at argv idx) as [p|]; [|discriminate].
  destruct (fopen w p) as [err|c] eqn:Ep.
  - injection H as <- <-. split; [reflexivity|].
    exists [], p, err. auto.
  - destruct (read_files w argv st n (i + 1)) as [tr' o'] eqn:Er.
    injection H as <- ->. destruct (IH _ _ Er) as [Hs [tr0 [q [err [-> Hq]]]]].
    split; [exact Hs|].
    exists (E_fopen p :: start_timer ++ feed c ++
            end_timer "processing lines" ++ E_fclose p :: tr0), q, err.
    split; [|exact Hq].
    unfold start_timer, end_timer. cbn [app].
    rewrite <- app_assoc. reflexivity.
Qed.

(** X4.  A run that has created the parser and ends with status 1 has
    failed to open a file: the last two things it did are the [fopen]
    that failed and the message "Error opening file ..." with the path
    and the reason, on standard error.  It has built no tree, made no
    Lua call and written nothing to standard output. *)
Theorem status_1_after_parser_new_is_an_open_failure w argv tr opts :
  main w argv = (tr, Exit 1) ->
  In (E_cmark_parser_new opts) tr ->
  (exists tr0 p err,
     tr = tr0 ++ [E_fopen p;
                  E_fprintf_stderr ("Error opening file " ++ p ++ ": "
                                    ++ err ++ nl)%string] /\
     fopen w p = inl err) /\
  count K_tree_new tr = O /\ count K_lua tr = O /\ count K_stdout tr = O.
Proof.
  intros Hm Hin. apply main_run in Hm. remember (Exit 1) as o eqn:Eo.
  destruct Hm as [tr o Hi | tr_in st document tr_f o Hi Hf
                 | tr_in st document tr_f document' skip Hi Hf].
  - subst o. unfold parse_input in Hi.
    destruct (parse_args w 1 (tl argv) _) as [st0|tr0 o0] eqn:Ea.
    + destruct (read_files w argv st0 _ 0) as [trf [x|]] eqn:Er;
        [|discriminate].
      injection Hi as <- ->.
      pose proof (read_files_only _ _ _ _ _ _ _ Er) as [Ho _].
      destruct (read_files_exit _ _ _ _ _ _ _ Er)
        as [_ [tr0 [p [err [-> Hp]]]]].
      split.
      * exists (E_cmark_parser_new (options st0) :: tr0), p, err.
        split; [reflexivity | exact Hp].
      * rewrite !count_cons. cbn [kind_of kind_eqb Nat.add].
        rewrite !(only_count_0 _ _ _ Ho) by not_listed. auto.
    + exfalso. injection Hi as <- _. apply parse_args_stopped in Ea.
      destruct Ea as [Ho _].
      eapply (count_0_not_in K_read); [|exact Hin|reflexivity].
      eapply only_count_0; [exact Ho | not_listed].
  - subst o. destruct (filters_stop_status _ _ _ _ _ _ _ Hi Hf) as [H|[H|H]];
      discriminate.
  - discriminate.
Qed.

Lemma status_1_after_parser_new_is_an_open_failure_witness :
  let w := Toy.world 0 [] in
  let argv := ["cmark"; "a.md"; "nope.md"; "b.md"] in
  count K_tree_new (fst (main w argv)) = O /\
  count K_lua (fst (main w argv)) = O /\
  count K_stdout (fst (main w argv)) = O.
Proof.
  intros w argv.
  apply (status_1_after_parser_new_is_an_open_failure w argv
           (fst (main w argv)) 0).
  - vm_compute. reflexivity.
  - vm_compute. tauto.
Defined.

Lemma read_paths_stops w pre p post err :
  Forall (fun q => exists c, fopen w q = inr c) pre ->
  fopen w p = inl err ->
  read_paths w (pre ++ p :: post) =
  (fst (read_paths w pre) ++
   [E_fopen p;
    E_fprintf_stderr ("Error opening file " ++ p ++ ": " ++ err ++ nl)%string],
   Some (Exit 1)).
Proof.
  intros Hpre Hp. induction Hpre as [|q pre [c Hq] _ IH]; simpl.
  - rewrite Hp. reflexivity.
  - rewrite Hq, IH. destruct (read_paths w pre) as [tr o]. simpl.
    rewrite <- app_assoc. reflexivity.
Qed.

(** X5.  When [numfps] holds 0 at the start of [main] and the scan
    accepts the command line, the first positional argument that cannot
    be opened ends the run with status 1: the files before it have been
    opened, fed and closed in order, the message names the path and the
    reason, and no later file is opened; there is no partial output. *)
Theorem first_unopenable_file_ends_the_run w argv st pre p post err :
  numfps_indeterminate w = 0 ->
  parse_args w 1 (tl argv) (init_scan w (List.length argv)) = Scanned st ->
  positional (tl argv) = pre ++ p :: post ->
  Forall (fun q => exists c, fopen w q = inr c) pre ->
  fopen w p = inl err ->
  main w argv =
  (E_cmark_parser_new (options st) :: fst (read_paths w pre) ++
   [E_fopen p;
    E_fprintf_stderr ("Error opening file " ++ p ++ ": " ++ err ++ nl)%string],
   Exit 1) /\
  stdout_of (fst (main w argv)) = "".
Proof.
  intros Hz Ha Hpos Hpre Hp.
  assert (Hm : main w argv =
    (E_cmark_parser_new (options st) :: fst (read_paths w pre) ++
     [E_fopen p;
      E_fprintf_stderr ("Error opening file " ++ p ++ ": " ++ err ++ nl)%string],
     Exit 1)).
  { unfold main, parse_input. rewrite Ha.
    destruct (files_fed_in_order_when_numfps_starts_at_zero w argv st Hz Ha)
      as [Er _].
    rewrite Er, Hpos, (read_paths_stops _ _ _ _ _ Hpre Hp). reflexivity. }
  split; [exact Hm|]. rewrite Hm. cbn [fst].
  apply stdout_of_silent. rewrite count_cons, count_app. cbn [kind_of kind_eqb].
  assert (Ho : only [K_read] (fst (read_paths w pre))).
  { clear -Hpre. induction Hpre as [|q pre [c Hq] _ IH]; [apply only_nil|].
    simpl. rewrite Hq. destruct (read_paths w pre) as [tr o]. simpl in *.
    apply Forall_cons; [simpl; tauto|]. apply only_app; [apply feed_only|].
    apply Forall_cons; [simpl; tauto | exact IH]. }
  rewrite (only_count_0 _ _ _ Ho) by not_listed. reflexivity.
Qed.

Lemma first_unopenable_file_ends_the_run_witness :
  let w := Toy.world 0 [] in
  main w ["cmark"; "a.md"; "--smart"; "nope.md"; "b.md"] =
  ([E_cmark_parser_new 1024;
    E_fopen "a.md"; E_cmark_parser_feed (Toy.text "# Hi"); E_fclose "a.md";
    E_fopen "nope.md";
    E_fprintf_stderr ("Error opening file nope.md: No such file or directory"
                      ++ nl)%string],
   Exit 1).
Proof.
  intros w.
  destruct (first_unopenable_file_ends_the_run w
              ["cmark"; "a.md"; "--smart"; "nope.md"; "b.md"]
              (Toy.scanned w ["cmark"; "a.md"; "--smart"; "nope.md"; "b.md"])
              ["a.md"] "nope.md" ["b.md"] "No such file or directory")
    as [H _].
  - reflexivity.
  - vm_compute. reflexivity.
  - vm_compute. reflexivity.
  - repeat constructor. eexists. vm_compute. reflexivity.
  - reflexivity.
  - rewrite H. vm_compute. reflexivity.
Defined.

(** ** The order of the filters *)

Lemma loaded_app tr1 tr2 : loaded (tr1 ++ tr2) = loaded tr1 ++ loaded tr2.
Proof.
  induction tr1 as [|e tr1 IH]; [reflexivity|].
  destruct e; simpl; auto. f_equal. exact IH.
Qed.

Lemma loaded_no_lua ks tr : only ks tr -> ~ In K_lua ks -> loaded tr = [].
Proof.
  intros H Hk. induction H as [|e tr He _ IH]; [reflexivity|].
  destruct e; simpl; try exact IH. exfalso. apply Hk. exact He.
Qed.

(** One turn loads the file of its index, in the state of its index. *)
Lemma filter_run_loaded w argv st i d s tr r path :
  filter_run w argv st i d s tr r ->
  filter_path argv st i = Some path ->
  loaded tr = [(i, path)].
Proof.
  intros H Hp. destruct H; cbn; congruence.
Qed.

Lemma filters_run_loaded w argv st n i d s tr r :
  filters_run w argv st n i d s tr r ->
  forall paths,
    List.length paths = n ->
    (forall k, (k < n)%nat ->
               filter_path argv st (i + Z.of_nat k) = nth_error paths k) ->
    exists done rest,
      paths = done ++ rest /\
      loaded tr = numbered i done /\
      match r with
      | Continue _ => rest = []
      | Return _ => done <> []
      end.
Proof.
  induction 1 as [| n i d s tr o H | n i d s tr d' s' tr' r H ? IH];
    intros paths Hl Hp.
  - destruct paths; [|discriminate]. exists [], []. auto.
  - destruct paths as [|p paths]; [discriminate|].
    pose proof (Hp O (Nat.lt_0_succ _)) as Hp0.
    rewrite Z.add_0_r in Hp0. simpl in Hp0.
    exists [p], paths. split; [reflexivity|].
    split; [exact (filter_run_loaded _ _ _ _ _ _ _ _ _ H Hp0) | discriminate].
  - destruct paths as [|p paths]; [discriminate|].
    pose proof (Hp O (Nat.lt_0_succ _)) as Hp0.
    rewrite Z.add_0_r in Hp0. simpl in Hp0.
    destruct (IH paths) as [done [rest [-> [Hd Hr]]]].
    + simpl in Hl. lia.
    + intros k Hk. replace (i + 1 + Z.of_nat k) with (i + Z.of_nat (S k)) by lia.
      apply (Hp (S k)). lia.
    + exists (p :: done), rest. split; [reflexivity|].
      rewrite loaded_app, (filter_run_loaded _ _ _ _ _ _ _ _ _ H Hp0), Hd.
      split; [reflexivity|]. destruct r; [exact Hr | discriminate].
Qed.

(** X6.  The filters are loaded in the order of their [--lua] flags,
    the filter of index [i] in the Lua state of turn [i]: the files a
    run loads are the first of the files named after [--lua], numbered
    from 0.  A run that reaches [cmark_parser_finish] and returns 0 has
    loaded all of them; one that returns 3 or 5 has loaded at least
    one. *)
Theorem filters_load_in_command_line_order w argv tr o :
  main w argv = (tr, o) ->
  exists done rest,
    lua_files (tl argv) = done ++ rest /\
    loaded tr = numbered 0 done /\
    (o = Exit 0 -> In E_cmark_parser_finish tr -> rest = []) /\
    (o = Exit 3 \/ o = Exit 5 -> done <> []).
Proof.
  intros Hm. apply main_run in Hm.
  destruct Hm as [tr o Hi | tr_in st document tr_f o Hi Hf
                 | tr_in st document tr_f document' skip Hi Hf].
  - apply parse_input_return in Hi. destruct Hi as [Ho Hx].
    exists [], (lua_files (tl argv)). split; [reflexivity|].
    split; [apply (loaded_no_lua _ _ Ho); not_listed|]. split.
    + intros _ Hin. exfalso.
      eapply (count_0_not_in K_tree_new); [|exact Hin|reflexivity].
      eapply only_count_0; [exact Ho | not_listed].
    + intros [-> | ->]; destruct Hx as [Hx|[Hx|Hx]]; discriminate.
  - pose proof (filters_stop_status _ _ _ _ _ _ _ Hi Hf) as Ho.
    pose proof (parse_input_continue _ _ _ _ _ Hi) as [Ha [trf [-> [Hr _]]]].
    destruct (scanned_lua_files _ _ _ Ha) as [Hn Hp].
    destruct (filters_run_loaded _ _ _ _ _ _ _ _ _ Hf (lua_files (tl argv)))
      as [done [rest [E [Hd Hne]]]].
    + rewrite Hn. symmetry. apply Nat2Z.id.
    + intros k Hk. apply Hp. rewrite Hn, Nat2Z.id in Hk. exact Hk.
    + exists done, rest. split; [exact E|]. split; [|split].
      * rewrite loaded_app, Hd.
        rewrite (loaded_no_lua [K_read; K_tree_new; K_parser_free]);
          [reflexivity | | not_listed].
        apply Forall_cons; [simpl; tauto|]. apply only_app; [|only_events].
        eapply only_weaken; [|exact Hr]. intros x [<-|[]]. simpl. tauto.
      * intros ->. destruct Ho as [Ho|[Ho|Ho]]; discriminate.
      * intros _. exact Hne.
  - pose proof (parse_input_continue _ _ _ _ _ Hi) as [Ha [trf [-> [Hr _]]]].
    destruct (scanned_lua_files _ _ _ Ha) as [Hn Hp].
    pose proof (scanned_writer _ _ _ Ha) as Hw.
    destruct (print_document_renders w document' (writer st) (options st)
                (width st) Hw) as [_ [Hpd _]].
    destruct (filters_run_loaded _ _ _ _ _ _ _ _ _ Hf (lua_files (tl argv)))
      as [done [rest [E [Hd ->]]]].
    + rewrite Hn. symmetry. apply Nat2Z.id.
    + intros k Hk. apply Hp. rewrite Hn, Nat2Z.id in Hk. exact Hk.
    + exists done, []. split; [exact E|]. split; [|split].
      * rewrite !loaded_app, Hd.
        rewrite (loaded_no_lua [K_read; K_tree_new; K_parser_free]);
          [| | not_listed].
        -- rewrite (loaded_no_lua [K_render; K_stdout]);
             [| |not_listed].
           ++ simpl. rewrite app_nil_r. reflexivity.
           ++ destruct skip; [apply only_nil | exact Hpd].
        -- apply Forall_cons; [simpl; tauto|]. apply only_app; [|only_events].
           eapply only_weaken; [|exact Hr]. intros x [<-|[]]. simpl. tauto.
      * reflexivity.
      * intros [H|H]; discriminate.
Qed.

Lemma filters_load_in_command_line_order_witness :
  let w := Toy.world 0 (Toy.text "# Hi") in
  let argv := ["cmark"; "--lua"; "zero.lua"; "-t"; "man"; "--lua"; "--help";
               "--lua"; "skip.lua"] in
  loaded (fst (main w argv)) = [(0, "zero.lua"); (1, "--help"); (2, "skip.lua")].
Proof.
  intros w argv.
  destruct (filters_load_in_command_line_order w argv (fst (main w argv))
              (snd (main w argv)) (surjective_pairing _))
    as [done [rest [E [H [H0 _]]]]].
  rewrite H. rewrite (H0 eq_refl) in E by (vm_compute; tauto).
  rewrite app_nil_r in E. rewrite <- E. reflexivity.
Defined.

(** ** The options *)

Lemma feed_events stream e :
  In e (feed stream) -> exists c, e = E_cmark_parser_feed c.
Proof.
  destruct (fread_loop_chunks sizeof_buffer stream) as [H _];
    [unfold sizeof_buffer; apply Nat.lt_0_succ|].
  fold (feed stream) in H. rewrite H. intros Hin.
  apply in_map_iff in Hin. destruct Hin as [c [<- _]]. eauto.
Qed.

Lemma read_files_no_parser_new w argv st n i tr o x :
  read_files w argv st n i = (tr, o) -> ~ In (E_cmark_parser_new x) tr.
Proof.
  revert i tr o. induction n as [|n IH]; intros i tr o H; simpl in H.
  - injection H as <- _. intros [].
  - destruct (LibC.load (files st) i) as [idx|];
      [|injection H as <- _; intros []].
    destruct (LibC.arg_at argv idx) as [p|];
      [|injection H as <- _; intros []].
    destruct (fopen w p) as [err|c].
    + injection H as <- _. intros [E|[E|[]]]; discriminate.
    + destruct (read_files w argv st n (i + 1)) as [tr' o'] eqn:Er.
      injection H as <- _. unfold start_timer, end_timer. cbn [app].
      intros [E|Hin]; [discriminate|].
      apply in_app_or in Hin. destruct Hin as [Hin|[E|Hin]].
      * apply feed_events in Hin. destruct Hin as [c' E]. discriminate.
      * discriminate.
      * exact (IH _ _ _ Er Hin).
Qed.

(** X7.  In a run that holds a tree, the parser was created with the
    options the scan of the arguments has set, and every render call is
    the one of the writer that the scan has set, with the same options
    and with the width the scan has set. *)
Theorem parser_and_renderer_get_the_scanned_settings
    w argv tr_in st document tr o :
  parse_input w argv = (tr_in, Continue (st, document)) ->
  main w argv = (tr, o) ->
  (forall x, In (E_cmark_parser_new x) tr -> x = options st) /\
  (forall e, In e tr -> kind_of e = K_render ->
             render_call (writer st) (options st) (width st) = Some e).
Proof.
  intros Hi Hm.
  pose proof (parse_input_continue _ _ _ _ _ Hi) as [Ha _].
  pose proof (parsed_counts _ _ _ _ _ Hi) as [_ [C0 _]].
  assert (Hnew : forall x, In (E_cmark_parser_new x) tr_in -> x = options st).
  { intros x Hin. unfold parse_input in Hi. rewrite Ha in Hi.
    destruct (read_files w argv st _ 0) as [trr [y|]] eqn:Er; [discriminate|].
    injection Hi as <- _. destruct Hin as [E|Hin]; [congruence|].
    exfalso. unfold start_timer, end_timer in Hin. cbn [app] in Hin.
    apply in_app_or in Hin. destruct Hin as [Hin|[E|[E|[]]]];
      try discriminate.
    apply in_app_or in Hin. destruct Hin as [Hin|Hin].
    - exact (read_files_no_parser_new _ _ _ _ _ _ _ _ Er Hin).
    - destruct (numfps st =? 0); [|destruct Hin].
      apply feed_events in Hin. destruct Hin as [c E]. discriminate. }
  assert (Hpd : forall (d : cmark_node w) e,
            In e (fst (print_document w d (writer st) (options st) (width st)))
            -> (kind_of e = K_stdout \/ kind_of e = K_stderr) \/
               render_call (writer st) (options st) (width st) = Some e).
  { intros d e. destruct (writer st); simpl;
      intros [<-|[<-|[]]] || intros [<-|[]]; simpl; tauto. }
  apply main_run in Hm.
  destruct Hm as [tr o Hi' | tr_in' st' document0 tr_f o Hi' Hf
                 | tr_in' st' document0 tr_f document' skip Hi' Hf];
    rewrite Hi in Hi'; [discriminate | |];
    injection Hi' as <- <- <-;
    pose proof (filters_run_only _ _ _ _ _ _ _ _ _ Hf) as Hl.
  - split.
    + intros x Hin. apply in_app_or in Hin. destruct Hin as [Hin|Hin];
        [apply Hnew; exact Hin|].
      exfalso. eapply (count_0_not_in K_read); [|exact Hin|reflexivity].
      eapply only_count_0; [exact Hl | not_listed].
    + intros e Hin Hk. exfalso. apply in_app_or in Hin.
      destruct Hin as [Hin|Hin];
        (eapply (count_0_not_in K_render); [|exact Hin|exact Hk]).
      * apply C0. not_listed.
      * eapply only_count_0; [exact Hl | not_listed].
  - split.
    + intros x Hin. apply in_app_or in Hin. destruct Hin as [Hin|Hin];
        [apply Hnew; exact Hin|].
      exfalso. apply in_app_or in Hin. destruct Hin as [Hin|Hin].
      * eapply (count_0_not_in K_read); [|exact Hin|reflexivity].
        eapply only_count_0; [exact Hl | not_listed].
      * apply in_app_or in Hin. destruct Hin as [Hin|[E|[E|[E|[]]]]];
          try discriminate E.
        destruct skip; [destruct Hin|]. apply Hpd in Hin.
        destruct Hin as [[E|E]|E]; try discriminate E.
        destruct (writer st); discriminate E.
    + intros e Hin Hk. apply in_app_or in Hin. destruct Hin as [Hin|Hin].
      * exfalso. eapply (count_0_not_in K_render); [|exact Hin|exact Hk].
        apply C0. not_listed.
      * apply in_app_or in Hin. destruct Hin as [Hin|Hin].
        -- exfalso. eapply (count_0_not_in K_render); [|exact Hin|exact Hk].
           eapply only_count_0; [exact Hl | not_listed].
        -- apply in_app_or in Hin. destruct Hin as [Hin|[<-|[<-|[<-|[]]]]];
             try discriminate Hk.
           destruct skip; [destruct Hin|]. apply Hpd in Hin.
           destruct Hin as [[E|E]|E]; congruence.
Qed.

Lemma parser_and_renderer_get_the_scanned_settings_witness :
  let w := Toy.world 0 (Toy.text "# Hi") in
  let argv := ["cmark"; "--smart"; "-t"; "latex"; "--width"; "40"; "--safe"] in
  render_call (writer (Toy.scanned w argv)) (options (Toy.scanned w argv))
    (width (Toy.scanned w argv))
  = Some (E_cmark_render_latex 1032 40).
Proof.
  intros w argv.
  apply (parser_and_renderer_get_the_scanned_settings w argv
           (fst (parse_input w argv)) (Toy.scanned w argv)
           (cmark_parse w 1032 [Toy.text "# Hi"])
           (fst (main w argv)) (snd (main w argv))).
  - vm_compute. reflexivity.
  - apply surjective_pairing.
  - vm_compute. tauto.
  - reflexivity.
Defined.

Lemma covers_refl x : covers x x.
Proof. intros n H. exact H. Qed.

Lemma covers_lor x f m : covers x m -> covers (Z.lor x f) m.
Proof. intros H n Hn. rewrite Z.lor_spec, (H n Hn). reflexivity. Qed.

Lemma covers_lor_r x f : covers (Z.lor x f) f.
Proof. intros n Hn. rewrite Z.lor_spec, Hn. apply orb_true_r. Qed.

Lemma covers_trans x y z : covers x y -> covers y z -> covers x z.
Proof. intros H1 H2 n Hn. apply H1, H2, Hn. Qed.

(** No argument clears a bit of the options. *)
Lemma parse_args_options_grow w i rest st st' :
  parse_args w i rest st = Scanned st' -> covers (options st') (options st).
Proof.
  functional induction (parse_args w i rest st); intros H; try discriminate;
    try (eapply covers_trans; [apply IHs; exact H|];
         cbn [options set_options set_width set_format push_file push_luafile];
         solve [apply covers_refl | apply covers_lor, covers_refl]).
  injection H as <-. apply covers_refl.
Qed.

(** Without option flags the options stay as they are. *)
Lemma parse_args_options_kept w i rest st st' :
  parse_args w i rest st = Scanned st' ->
  Forall (fun a => is_option_flag a = false) rest ->
  options st' = options st.
Proof.
  functional induction (parse_args w i rest st); intros H Hn;
    try discriminate;
    try (injection H as <-; reflexivity);
    try (exfalso; inversion Hn as [|? ? Hf _]; subst;
         unfold is_option_flag in Hf;
         repeat match goal with
         | E : streq ?a ?s = _ |- _ => rewrite E in Hf; clear E
         end;
         discriminate Hf);
    try (rewrite IHs; [reflexivity | exact H |];
         repeat match goal with
         | Hn : Forall _ (_ :: _) |- _ =>
             apply Forall_inv_tail in Hn
         end; exact Hn).
Qed.

(** One turn of the scan at an argument that is not the name of a
    filter file, a width or a format. *)
Lemma parse_args_option_step w i flag post st :
  is_option_flag flag = true ->
  parse_args w i (flag :: post) st =
  parse_args w (i + 1) post
    (set_options st (Z.lor (options st) (option_bits w flag))).
Proof.
  unfold is_option_flag, option_bits. intros H.
  destruct (streq flag "--sourcepos") eqn:E1;
    [apply String.eqb_eq in E1; subst; reflexivity|].
  destruct (streq flag "--hardbreaks") eqn:E2;
    [apply String.eqb_eq in E2; subst; reflexivity|].
  destruct (streq flag "--smart") eqn:E3;
    [apply String.eqb_eq in E3; subst; reflexivity|].
  destruct (streq flag "--safe") eqn:E4;
    [apply String.eqb_eq in E4; subst; reflexivity|].
  destruct (streq flag "--normalize") eqn:E5;
    [apply String.eqb_eq in E5; subst; reflexivity|].
  destruct (streq flag "--validate-utf8") eqn:E6;
    [apply String.eqb_eq in E6; subst; reflexivity|].
  discriminate H.
Qed.

(** X8.  The options of a command line that the scan accepts hold every
    bit of [CMARK_OPT_DEFAULT] and every bit of each option flag the
    scan has reached; no later argument clears a bit.  When none of the
    six option flags is among the arguments, the options are
    [CMARK_OPT_DEFAULT]. *)
Theorem option_flags_add_their_bits w argv st :
  parse_args w 1 (tl argv) (init_scan w (List.length argv)) = Scanned st ->
  covers (options st) (CMARK_OPT_DEFAULT w) /\
  (forall pre flag post st_pre,
     tl argv = pre ++ flag :: post ->
     parse_args w 1 pre (init_scan w (List.length argv)) = Scanned st_pre ->
     is_option_flag flag = true ->
     covers (options st) (option_bits w flag) /\
     covers (options st) (options st_pre)) /\
  (Forall (fun a => is_option_flag a = false) (tl argv) ->
   options st = CMARK_OPT_DEFAULT w).
Proof.
  intros Ha. split; [|split].
  - apply parse_args_options_grow in Ha. exact Ha.
  - intros pre flag post st_pre Eargv Hpre Hflag.
    rewrite Eargv, (parse_args_app _ _ _ _ _ _ Hpre),
      (parse_args_option_step _ _ _ _ _ Hflag) in Ha.
    apply parse_args_options_grow in Ha. cbn [options set_options] in Ha.
    split; (eapply covers_trans; [exact Ha|]);
      [apply covers_lor_r | apply covers_lor, covers_refl].
  - intros Hn. apply (parse_args_options_kept _ _ _ _ _ Ha Hn).
Qed.

Lemma option_flags_add_their_bits_witness :
  let w := Toy.world 0 [] in
  let argv := ["cmark"; "--lua"; "zero.lua"; "--smart"; "a.md"; "--safe"] in
  covers (options (Toy.scanned w argv)) (option_bits w "--smart").
Proof.
  intros w argv.
  destruct (option_flags_add_their_bits w argv (Toy.scanned w argv))
    as [_ [H _]]; [vm_compute; reflexivity|].
  apply (H ["--lua"; "zero.lua"] "--smart" ["a.md"; "--safe"]
           (Toy.scan_of w 6 ["--lua"; "zero.lua"])).
  - reflexivity.
  - vm_compute. reflexivity.
  - reflexivity.
Defined.

(** ** Arguments that end the scan *)

Lemma not_in_streq a l k : ~ In a l -> In k l -> streq a k = false.
Proof.
  intros Hn Hk. apply String.eqb_neq. intros ->. contradiction.
Qed.

(** One turn of the scan at an argument that starts with a dash and is
    none of the arguments [main] knows. *)
Lemma parse_args_unknown_step w i arg post st :
  starts_with_dash arg = true -> ~ In arg known_options ->
  parse_args w i (arg :: post) st = Stopped print_usage (Exit 1).
Proof.
  intros Hd Hn. cbn [parse_args].
  rewrite !(not_in_streq arg known_options) by
    (assumption || (unfold known_options; simpl; tauto)).
  cbn [orb]. rewrite Hd. reflexivity.
Qed.

(** X9.  An argument that ends the scan does so before the parser is
    created and before any file is opened, whatever follows it:
    [--help] and [-h] print the usage text and exit with status 0,
    [--version] prints the version and exits with status 0, and an
    argument that starts with a dash and that [main] does not know
    prints the usage text and exits with status 1.  The usage text goes
    to standard output in both cases. *)
Theorem help_version_and_unknown_flags_end_the_scan w argv pre arg post st :
  tl argv = pre ++ arg :: post ->
  parse_args w 1 pre (init_scan w (List.length argv)) = Scanned st ->
  (arg = "--help" \/ arg = "-h" -> main w argv = (print_usage, Exit 0)) /\
  (arg = "--version" ->
   main w argv =
   ([E_printf ("cmark " ++ CMARK_VERSION_STRING w)%string;
     E_printf (" - CommonMark converter" ++ nl
               ++ "(C) 2014, 2015 John MacFarlane" ++ nl)%string],
    Exit 0)) /\
  (starts_with_dash arg = true -> ~ In arg known_options ->
   main w argv = (print_usage, Exit 1)) /\
  only [K_stdout] print_usage.
Proof.
  intros Eargv Hpre.
  assert (Hm : forall tr o,
            parse_args w (1 + Z.of_nat (List.length pre)) (arg :: post) st
            = Stopped tr o -> main w argv = (tr, o)).
  { intros tr o E. unfold main, parse_input.
    rewrite Eargv, (parse_args_app _ _ _ _ _ _ Hpre), E. reflexivity. }
  split; [|split; [|split]].
  - intros [-> | ->]; apply Hm; reflexivity.
  - intros ->. apply Hm. reflexivity.
  - intros Hd Hn. apply Hm. apply parse_args_unknown_step; assumption.
  - unfold print_usage. only_events.
Qed.

Lemma help_version_and_unknown_flags_end_the_scan_witness :
  let w := Toy.world 0 [] in
  main w ["cmark"; "a.md"; "--lua"; "zero.lua"; "--frobnicate"; "nope.md"]
  = (print_usage, Exit 1).
Proof.
  intros w.
  apply (help_version_and_unknown_flags_end_the_scan w
           ["cmark"; "a.md"; "--lua"; "zero.lua"; "--frobnicate"; "nope.md"]
           ["a.md"; "--lua"; "zero.lua"] "--frobnicate" ["nope.md"]
           (Toy.scan_of w 6 ["a.md"; "--lua"; "zero.lua"])).
  - reflexivity.
  - vm_compute. reflexivity.
  - reflexivity.
  - unfold known_options. simpl. intuition discriminate.
Defined.

Lemma writer_of_name_none name :
  ~ In name format_names -> writer_of_name name = None.
Proof.
  intros Hn. unfold writer_of_name.
  rewrite !(not_in_streq name format_names) by
    (assumption || (unfold format_names; simpl; tauto)).
  reflexivity.
Qed.

(** X10.  When the scan reaches [-t] or [--to] followed by a name that
    is not one of man, html, xml, commonmark and latex, spelled so, or
    reaches [-t], [--to] or [--lua] as the last argument, [main] prints
    one message on standard error and exits with status 1; it has not
    created the parser. *)
Theorem unknown_format_and_missing_values_are_fatal w argv pre st :
  parse_args w 1 pre (init_scan w (List.length argv)) = Scanned st ->
  (forall flag name post,
     tl argv = pre ++ flag :: name :: post ->
     flag = "-t" \/ flag = "--to" -> ~ In name format_names ->
     main w argv =
     ([E_fprintf_stderr ("Unknown format " ++ name ++ nl)%string], Exit 1)) /\
  (forall flag,
     tl argv = pre ++ [flag] ->
     flag = "-t" \/ flag = "--to" ->
     main w argv =
     ([E_fprintf_stderr ("No argument provided for " ++ flag ++ nl)%string],
      Exit 1)) /\
  (tl argv = pre ++ ["--lua"] ->
   main w argv =
   ([E_fprintf_stderr ("No --lua file specified" ++ nl)%string], Exit 1)).
Proof.
  intros Hpre.
  assert (Hm : forall rest tr o,
            tl argv = pre ++ rest ->
            parse_args w (1 + Z.of_nat (List.length pre)) rest st
            = Stopped tr o -> main w argv = (tr, o)).
  { intros rest tr o Eargv E. unfold main, parse_input.
    rewrite Eargv, (parse_args_app _ _ _ _ _ _ Hpre), E. reflexivity. }
  split; [|split].
  - intros flag name post Eargv Hflag Hname.
    apply (Hm _ _ _ Eargv).
    assert (E : parse_args w (1 + Z.of_nat (List.length pre))
                  (flag :: name :: post) st =
                match writer_of_name name with
                | Some wr => parse_args w (1 + Z.of_nat (List.length pre) + 2)
                               post (set_format st name wr)
                | None => Stopped [E_fprintf_stderr
                                     ("Unknown format " ++ name ++ nl)%string]
                                  (Exit 1)
                end)
      by (destruct Hflag as [-> | ->]; reflexivity).
    rewrite E, (writer_of_name_none _ Hname). reflexivity.
  - intros flag Eargv [-> | ->]; apply (Hm _ _ _ Eargv); reflexivity.
  - intros Eargv. apply (Hm _ _ _ Eargv). reflexivity.
Qed.

Lemma unknown_format_and_missing_values_are_fatal_witness :
  let w := Toy.world 0 [] in
  main w ["cmark"; "a.md"; "--to"; "HTML"; "b.md"]
  = ([E_fprintf_stderr ("Unknown format HTML" ++ nl)%string], Exit 1).
Proof.
  intros w.
  destruct (unknown_format_and_missing_values_are_fatal w
              ["cmark"; "a.md"; "--to"; "HTML"; "b.md"] ["a.md"]
              (Toy.scan_of w 5 ["a.md"])) as [H _].
  - vm_compute. reflexivity.
  - apply (H "--to" "HTML" ["b.md"]).
    + reflexivity.
    + right. reflexivity.
    + unfold format_names. simpl. intuition discriminate.
Defined.

(** ** Rendering *)

Lemma stdout_of_app tr1 tr2 :
  stdout_of (tr1 ++ tr2) = (stdout_of tr1 ++ stdout_of tr2)%string.
Proof.
  induction tr1 as [|e tr1 IH]; [reflexivity|].
  destruct e; simpl; try exact IH. rewrite IH.
  clear. induction s as [|c s IHs]; simpl; [reflexivity | f_equal; exact IHs].
Qed.

Lemma string_app_nil_r (s : string) : (s ++ "")%string = s.
Proof. induction s as [|c s IH]; simpl; [reflexivity | f_equal; exact IH]. Qed.

(** X11.  When all filters have returned and left [skip_rendering]
    clear, [main] makes exactly one render call, after the last filter,
    writes the text it returns to standard output as the only output of
    the run, then destroys the tree and returns 0. *)
Theorem rendered_run_writes_one_buffer
    w argv tr_in st document tr_f document' :
  parse_input w argv = (tr_in, Continue (st, document)) ->
  run_filters w argv st (Z.to_nat (numluafps st)) 0 document false
    = (tr_f, Continue (document', false)) ->
  main w argv =
  (tr_in ++ tr_f ++
   fst (print_document w document' (writer st) (options st) (width st)) ++
   [E_cmark_node_free; E_free_files; E_free_luafiles],
   Exit 0) /\
  count K_render (fst (main w argv)) = 1%nat /\
  count K_stdout (fst (main w argv)) = 1%nat /\
  stdout_of (fst (main w argv)) =
  stdout_of (fst (print_document w document' (writer st) (options st)
                    (width st))) /\
  count K_tree_free (fst (main w argv)) = 1%nat.
Proof.
  intros Hi Hf.
  pose proof (parse_input_continue _ _ _ _ _ Hi) as [Ha _].
  apply scanned_writer in Ha.
  destruct (print_document_renders w document' (writer st) (options st)
              (width st) Ha) as [Hs [Hp Hc]].
  assert (Hm : main w argv =
    (tr_in ++ tr_f ++
     fst (print_document w document' (writer st) (options st) (width st)) ++
     [E_cmark_node_free; E_free_files; E_free_luafiles], Exit 0)).
  { rewrite (main_unfold _ _ _ _ _ Hi). unfold filter_and_render.
    rewrite Hf. cbn [negb].
    destruct (print_document w document' (writer st) (options st) (width st))
      as [trp stop]. simpl in Hs. subst stop.
    unfold start_timer, end_timer. cbn [fst snd app].
    rewrite app_nil_r. reflexivity. }
  split; [exact Hm|]. rewrite Hm. cbn [fst].
  apply run_filters_run in Hf.
  destruct (parsed_counts _ _ _ _ _ Hi) as [_ [C0 _]].
  set (trp := fst (print_document w document' (writer st) (options st)
                     (width st))) in *.
  assert (Hout : count K_stdout trp = 1%nat)
    by (subst trp; destruct (writer st); try congruence; reflexivity).
  assert (Hin0 : count K_stdout tr_in = O) by (apply C0; not_listed).
  assert (Hf0 : count K_stdout tr_f = O)
    by (eapply filters_counts; [exact Hf | not_listed]).
  split; [|split; [|split]].
  - rewrite !count_app, (C0 K_render), Hc,
      (filters_counts _ _ _ _ _ _ _ _ _ K_render Hf) by not_listed.
    reflexivity.
  - rewrite !count_app, Hin0, Hf0, Hout. reflexivity.
  - rewrite !stdout_of_app, (stdout_of_silent _ Hin0),
      (stdout_of_silent _ Hf0). simpl. apply string_app_nil_r.
  - rewrite !count_app, (C0 K_tree_free),
      (filters_counts _ _ _ _ _ _ _ _ _ K_tree_free Hf),
      (only_count_0 _ _ K_tree_free Hp) by not_listed.
    reflexivity.
Qed.

Lemma rendered_run_writes_one_buffer_witness :
  let w := Toy.world 0 (Toy.text "stdin") in
  let argv := ["cmark"; "a.md"; "--lua"; "skip.lua"; "--lua"; "zero.lua"] in
  stdout_of (fst (main w argv)) = "html:# Hi+skip.lua+zero.lua".
Proof.
  intros w argv.
  destruct (rendered_run_writes_one_buffer w argv
              (fst (parse_input w argv)) (Toy.scanned w argv)
              (cmark_parse w 0 [Toy.text "# Hi"])
              (fst (run_filters w argv (Toy.scanned w argv) 2 0
                      (cmark_parse w 0 [Toy.text "# Hi"]) false))
              {| Toy.source := [Toy.text "# Hi"];
                 Toy.edits := ["skip.lua"; "zero.lua"] |})
    as [_ [_ [_ [H _]]]].
  - vm_compute. reflexivity.
  - vm_compute. reflexivity.
  - rewrite H. vm_compute. reflexivity.
Defined.

(** Without [--lua] the scan counts no filter. *)
Lemma parse_args_no_lua w i rest st st' :
  parse_args w i rest st = Scanned st' ->
  ~ In "--lua" rest -> numluafps st' = numluafps st.
Proof.
  functional induction (parse_args w i rest st); intros H Hin;
    try discriminate;
    try (rewrite IHs; [reflexivity | assumption | simpl in Hin; tauto]).
  - injection H as <-. reflexivity.
  - exfalso. apply Hin. left.
    match goal with E : streq _ "--lua" = true |- _ =>
      unfold streq in E; apply String.eqb_eq in E; exact E end.
Qed.

(** X12.  A command line without [--lua] that reaches
    [cmark_parser_finish] makes no Lua call: [main] renders the tree as
    the parser built it, writes the result, destroys the tree and
    returns 0. *)
Theorem without_filters_the_parsed_tree_is_rendered
    w argv tr_in st document :
  ~ In "--lua" (tl argv) ->
  parse_input w argv = (tr_in, Continue (st, document)) ->
  main w argv =
  (tr_in ++
   fst (print_document w document (writer st) (options st) (width st)) ++
   [E_cmark_node_free; E_free_files; E_free_luafiles],
   Exit 0) /\
  count K_lua (fst (main w argv)) = O.
Proof.
  intros Hn Hi.
  pose proof (parse_input_continue _ _ _ _ _ Hi) as [Ha _].
  pose proof (parse_args_no_lua _ _ _ _ _ Ha Hn) as H0.
  cbn [numluafps init_scan] in H0.
  pose proof (scanned_writer _ _ _ Ha) as Hw.
  destruct (print_document_renders w document (writer st) (options st)
              (width st) Hw) as [Hs [Hp _]].
  assert (Hm : main w argv =
    (tr_in ++
     fst (print_document w document (writer st) (options st) (width st)) ++
     [E_cmark_node_free; E_free_files; E_free_luafiles], Exit 0)).
  { rewrite (main_unfold _ _ _ _ _ Hi). unfold filter_and_render.
    rewrite H0. cbn [Z.to_nat run_filters negb].
    destruct (print_document w document (writer st) (options st) (width st))
      as [trp stop]. simpl in Hs. subst stop.
    unfold start_timer, end_timer. cbn [fst snd app].
    rewrite app_nil_r. reflexivity. }
  split; [exact Hm|]. rewrite Hm. cbn [fst].
  destruct (parsed_counts _ _ _ _ _ Hi) as [_ [C0 _]].
  rewrite !count_app, (C0 K_lua), (only_count_0 _ _ K_lua Hp) by not_listed.
  reflexivity.
Qed.

Lemma without_filters_the_parsed_tree_is_rendered_witness :
  let w := Toy.world 0 (Toy.text "stdin") in
  let argv := ["cmark"; "-t"; "xml"; "b.md"] in
  count K_lua (fst (main w argv)) = O.
Proof.
  intros w argv.
  apply (without_filters_the_parsed_tree_is_rendered w argv
           (fst (parse_input w argv)) (Toy.scanned w argv)
           (cmark_parse w 0 [Toy.text "there"])).
  - simpl. intuition discriminate.
  - vm_compute. reflexivity.
Defined.

(** ** The life of the parser *)

Lemma feed_reading stream : Forall reading (feed stream).
Proof.
  apply Forall_forall. intros e Hin. apply feed_events in Hin.
  destruct Hin as [c ->]. exact I.
Qed.

Lemma read_files_reading w argv st n i tr :
  read_files w argv st n i = (tr, None) -> Forall reading tr.
Proof.
  revert i tr. induction n as [|n IH]; intros i tr H; simpl in H.
  - injection H as <-. constructor.
  - destruct (LibC.load (files st) i) as [idx|]; [|discriminate].
    destruct (LibC.arg_at argv idx) as [p|]; [|discriminate].
    destruct (fopen w p) as [err|c]; [discriminate|].
    destruct (read_files w argv st n (i + 1)) as [tr' o'] eqn:Er.
    injection H as <- ->. unfold start_timer, end_timer. cbn [app].
    constructor; [exact I|]. apply Forall_app. split; [apply feed_reading|].
    constructor; [exact I | exact (IH _ _ Er)].
Qed.

Lemma split_at_unique (A : Type) (x : A) (a a' b b' : list A) :
  ~ In x a -> ~ In x a' -> a ++ x :: b = a' ++ x :: b' -> a = a' /\ b = b'.
Proof.
  revert a'. induction a as [|y a IH]; intros [|y' a'] Ha Ha' E;
    simpl in *.
  - injection E as ->. auto.
  - injection E as <- _. tauto.
  - injection E as -> _. tauto.
  - injection E as -> E. destruct (IH a') as [-> ->]; auto.
Qed.

(** X13.  In every run the parser is used as one unit: wherever
    [cmark_parser_finish] occurs in the trace, what comes before it is
    [cmark_parser_new], as the first call of the run, followed by
    openings, feeds and closings only, and what comes after it starts
    with [cmark_parser_free]; after that no file is opened, nothing is
    fed, and no parser is created, finished or freed again. *)
Theorem parser_is_finished_once_and_freed_at_once w argv tr o a b :
  main w argv = (tr, o) ->
  tr = a ++ E_cmark_parser_finish :: b ->
  (exists options reads,
     a = E_cmark_parser_new options :: reads /\ Forall reading reads) /\
  (exists b',
     b = E_cmark_parser_free :: b' /\
     count K_read b' = O /\ count K_tree_new b' = O /\
     count K_parser_free b' = O).
Proof.
  intros Hm Etr.
  assert (Hshape : exists tr_in st document rest,
            parse_input w argv = (tr_in, Continue (st, document)) /\
            tr = tr_in ++ rest /\
            only [K_lua; K_stderr; K_render; K_stdout; K_tree_free; K_free]
                 rest).
  { apply main_run in Hm.
    destruct Hm as [tr o Hi | tr_in st document tr_f o Hi Hf
                   | tr_in st document tr_f document' skip Hi Hf].
    - exfalso. apply parse_input_return in Hi. destruct Hi as [Ho _].
      eapply (count_0_not_in K_tree_new tr E_cmark_parser_finish);
        [eapply only_count_0; [exact Ho | not_listed] | | reflexivity].
      rewrite Etr. apply in_or_app. right. left. reflexivity.
    - exists tr_in, st, document, tr_f. split; [exact Hi|].
      split; [reflexivity|].
      eapply only_weaken; [|eapply filters_run_only; exact Hf].
      intros x. simpl. tauto.
    - pose proof (parse_input_continue _ _ _ _ _ Hi) as [Ha _].
      apply scanned_writer in Ha.
      destruct (print_document_renders w document' (writer st) (options st)
                  (width st) Ha) as [_ [Hp _]].
      eexists tr_in, st, document, _. split; [exact Hi|].
      split; [reflexivity|].
      apply only_app;
        [eapply only_weaken; [|eapply filters_run_only; exact Hf];
         intros x; simpl; tauto|].
      apply only_app; [|only_events].
      destruct skip; [apply only_nil|].
      eapply only_weaken; [|exact Hp]. intros x. simpl. tauto. }
  destruct Hshape as [tr_in [st [document [rest [Hi [E Hrest]]]]]].
  unfold parse_input in Hi.
  destruct (parse_args w 1 (tl argv) _) as [st0|] eqn:Ea; [|discriminate].
  destruct (read_files w argv st0 _ 0) as [trr [x|]] eqn:Er; [discriminate|].
  injection Hi as <- <- _. apply read_files_reading in Er.
  set (reads := trr ++ (if numfps st0 =? 0 then feed (stdin w) else [])) in *.
  assert (Hreads : Forall reading reads).
  { apply Forall_app. split; [exact Er|].
    destruct (numfps st0 =? 0); [apply feed_reading | constructor]. }
  unfold start_timer, end_timer in E. cbn [app] in E.
  assert (E' : a ++ E_cmark_parser_finish :: b =
               (E_cmark_parser_new (options st0) :: reads) ++
               E_cmark_parser_finish :: E_cmark_parser_free :: rest).
  { rewrite <- Etr, E. cbn [app]. rewrite <- app_assoc. reflexivity. }
  assert (Hnot : ~ In E_cmark_parser_finish
                   (E_cmark_parser_new (options st0) :: reads)).
  { intros [H|H]; [discriminate|]. rewrite Forall_forall in Hreads.
    exact (Hreads _ H). }
  assert (Hnota : ~ In E_cmark_parser_finish a).
  { intros Hin. apply in_split in Hin. destruct Hin as [a1 [a2 ->]].
    assert (C : count K_tree_new ((a1 ++ E_cmark_parser_finish :: a2) ++
                                  E_cmark_parser_finish :: b) = 1%nat).
    { rewrite E'. rewrite count_app, !count_cons. cbn [kind_of kind_eqb].
      assert (O1 : only [K_read] reads).
      { eapply Forall_impl; [|exact Hreads].
        intros e He. destruct e; simpl in *; tauto. }
      rewrite (only_count_0 _ _ K_tree_new O1),
        (only_count_0 _ _ K_tree_new Hrest) by not_listed.
      reflexivity. }
    rewrite !count_app, !count_cons in C. cbn [kind_of kind_eqb] in C. lia. }
  destruct (split_at_unique _ _ _ _ _ _ Hnota Hnot E') as [-> ->].
  split; [exists (options st0), reads; auto|].
  exists rest. split; [reflexivity|].
  repeat split; (eapply only_count_0; [exact Hrest | not_listed]).
Qed.

Lemma parser_is_finished_once_and_freed_at_once_witness :
  let w := Toy.world 0 (Toy.text "# Hi") in
  let argv := ["cmark"; "a.md"; "--lua"; "zero.lua"] in
  nth_error (fst (main w argv)) 4 = Some E_cmark_parser_finish /\
  count K_read (tl (skipn 5 (fst (main w argv)))) = O.
Proof.
  intros w argv. split; [vm_compute; reflexivity|].
  destruct (parser_is_finished_once_and_freed_at_once w argv
              (fst (main w argv)) (snd (main w argv))
              (firstn 4 (fst (main w argv))) (skipn 5 (fst (main w argv))))
    as [_ [b' [E [H _]]]].
  - apply surjective_pairing.
  - vm_compute. reflexivity.
  - rewrite E. exact H.
Defined.

(** ** A width that is accepted *)

Lemma int_of_long_range v :
  - 2 ^ 31 <= LibC.int_of_long v < 2 ^ 31 /\
  (- 2 ^ 31 <= v < 2 ^ 31 -> LibC.int_of_long v = v).
Proof.
  unfold LibC.int_of_long.
  pose proof (Z.mod_pos_bound v (2 ^ 32) ltac:(lia)) as Hm.
  destruct (v mod 2 ^ 32 <? 2 ^ 31) eqn:E.
  - apply Z.ltb_lt in E. split; [lia|]. intros Hv.
    destruct (Z.neg_nonneg_cases v) as [Hneg|Hpos].
    + exfalso. assert (Ev : v mod 2 ^ 32 = v + 2 ^ 32).
      { symmetry. apply (Z.mod_unique v (2 ^ 32) (-1) (v + 2 ^ 32)); lia. }
      lia.
    + apply Z.mod_small. lia.
  - apply Z.ltb_ge in E. split; [lia|]. intros Hv.
    destruct (Z.neg_nonneg_cases v) as [Hneg|Hpos].
    + assert (Ev : v mod 2 ^ 32 = v + 2 ^ 32).
      { symmetry. apply (Z.mod_unique v (2 ^ 32) (-1) (v + 2 ^ 32)); lia. }
      lia.
    + exfalso. rewrite Z.mod_small in E by lia. lia.
Qed.

(** X14.  In a command line that the scan accepts, the width of the run
    is 0 when there is no [--width], and otherwise comes from the value
    after the last [--width]: that value is empty or a valid integer,
    and the width is the number [strtol] reads in it, converted to
    [int].  The width lies in the range of [int], and is the number
    itself when the number is in that range. *)
Theorem accepted_width_is_the_last_one_given w argv st :
  parse_args w 1 (tl argv) (init_scan w (List.length argv)) = Scanned st ->
  (~ In "--width" (tl argv) -> width st = 0) /\
  (forall pre value post st_pre,
     tl argv = pre ++ "--width" :: value :: post ->
     parse_args w 1 pre (init_scan w (List.length argv)) = Scanned st_pre ->
     ~ In "--width" post ->
     (value = "" \/ valid_integer value = true) /\
     width st = LibC.int_of_long (fst (LibC.strtol value)) /\
     - 2 ^ 31 <= width st < 2 ^ 31 /\
     (- 2 ^ 31 <= fst (LibC.strtol value) < 2 ^ 31 ->
      width st = fst (LibC.strtol value))).
Proof.
  intros Ha. split.
  - intros Hno. apply parse_args_width in Ha; [|exact Hno]. exact Ha.
  - intros pre value post st_pre Eargv Hpre Hpost.
    rewrite Eargv, (parse_args_app _ _ _ _ _ _ Hpre), parse_args_width_step
      in Ha.
    destruct (snd (LibC.strtol value)) as [|c unparsed] eqn:Hrest;
      [|discriminate Ha].
    cbn [String.length Nat.ltb Nat.leb] in Ha.
    apply parse_args_width in Ha; [|exact Hpost].
    cbn [width set_width] in Ha. rewrite Ha.
    destruct (int_of_long_range (fst (LibC.strtol value))) as [R1 R2].
    split; [apply strtol_rest; exact Hrest|]. auto.
Qed.

Lemma accepted_width_is_the_last_one_given_witness :
  let w := Toy.world 0 [] in
  let argv := ["cmark"; "--width"; "20"; "a.md"; "--width"; " -72"; "b.md"] in
  width (Toy.scanned w argv) = -72.
Proof.
  intros w argv.
  destruct (accepted_width_is_the_last_one_given w argv (Toy.scanned w argv))
    as [_ H]; [vm_compute; reflexivity|].
  destruct (H ["--width"; "20"; "a.md"] " -72" ["b.md"]
              (Toy.scan_of w 7 ["--width"; "20"; "a.md"]))
    as [_ [_ [_ R]]].
  - reflexivity.
  - vm_compute. reflexivity.
  - simpl. intuition discriminate.
  - etransitivity; [apply R|]; vm_compute;
      [split; [discriminate | reflexivity] | reflexivity].
Defined.

(** ** A filter that fails *)

(** X16.  In a run that holds a tree, let the filters before the file
    [path] of the list all return, leaving the tree [d].  When [path]
    does not load, [main] prints the message of [luaL_loadfile] and
    returns 3.  When its chunk raises an error object, [main] returns 3
    after the message of that object; when the value its chunk returns
    raises on the tree [d] and the format name, [main] prints "Error
    running filter", the path and the message, and returns 5.  The
    message is the last thing [main] does, nothing is rendered or
    written to standard output, and no later filter is loaded.  When
    the error object has no message the run ends, undefined, at the
    call that raised it. *)
Theorem failing_filter_ends_the_run
    w argv tr_in st document pre path post d :
  parse_input w argv = (tr_in, Continue (st, document)) ->
  lua_files (tl argv) = pre ++ path :: post ->
  filtered w (format st) 0 pre document = Some d ->
  let k := Z.of_nat (List.length pre) in
  exists tr_pre,
    only [K_lua] tr_pre /\
    loaded tr_pre = numbered 0 pre /\
    (forall msg,
       luaL_loadfile w k path = Some msg ->
       main w argv =
       (tr_in ++ tr_pre ++ lua_setup k ++
        [E_luaL_loadfile k path; E_fprintf_stderr (msg ++ nl)%string],
        Exit 3)) /\
    (forall e,
       luaL_loadfile w k path = None ->
       lua_chunk w k path = inl e ->
       main w argv =
       (tr_in ++ tr_pre ++ lua_setup k ++
        E_luaL_loadfile k path :: E_lua_pcall k (LuaChunk path) [] (inl e) ::
        match lua_tostring w [e] with
        | Some msg => [E_fprintf_stderr (msg ++ nl)%string]
        | None => []
        end,
        match lua_tostring w [e] with
        | Some _ => Exit 3
        | None => Undefined
        end)) /\
    (forall f e d',
       luaL_loadfile w k path = None ->
       lua_chunk w k path = inr f ->
       lua_call w k f [LuaNode; LuaString (format st)] d = (inl e, d') ->
       main w argv =
       (tr_in ++ tr_pre ++ lua_setup k ++
        E_luaL_loadfile k path :: E_lua_pcall k (LuaChunk path) [] (inr f) ::
        E_lua_pcall k f [LuaNode; LuaString (format st)] (inl e) ::
        match lua_tostring w [e] with
        | Some msg =>
            [E_fprintf_stderr ("Error running filter " ++ path ++ ": "
                               ++ msg ++ nl)%string]
        | None => []
        end,
        match lua_tostring w [e] with
        | Some _ => Exit 5
        | None => Undefined
        end)) /\
    count K_render (tr_in ++ tr_pre) = O /\
    count K_stdout (tr_in ++ tr_pre) = O.
Proof.
  intros Hi Epaths Hd k.
  pose proof (parse_input_continue _ _ _ _ _ Hi) as [Ha _].
  destruct (scanned_lua_files _ _ _ Ha) as [Hn Hp].
  rewrite Epaths in Hn, Hp. rewrite length_app in Hn, Hp.
  cbn [List.length] in Hn, Hp.
  assert (Hpre : forall j, (j < List.length pre)%nat ->
                 filter_path argv st (0 + Z.of_nat j) = nth_error pre j).
  { intros j Hj. rewrite Hp by lia. apply nth_error_app1. exact Hj. }
  assert (Hk : filter_path argv st k = Some path).
  { specialize (Hp (List.length pre) ltac:(lia)).
    rewrite nth_error_app2, Nat.sub_diag in Hp by lia. exact Hp. }
  destruct (filtered_run w argv st pre 0 document false d Hpre Hd)
    as [tr_pre [s' [Hr Ho]]].
  assert (Hmain : main w argv =
            (tr_in ++ tr_pre ++ fst (run_filter w argv st k d s'),
             match snd (run_filter w argv st k d s') with
             | Return o => o
             | Continue _ => snd (main w argv)
             end) \/
          exists x, snd (run_filter w argv st k d s') = Continue x).
  { destruct (run_filter w argv st k d s') as [tr_k [x|o]] eqn:Ek;
      [right; exists x; reflexivity | left].
    rewrite (main_unfold _ _ _ _ _ Hi). unfold filter_and_render.
    rewrite Hn, Nat2Z.id, run_filters_app, Hr.
    cbn [run_filters Z.add]. fold k. rewrite Ek. cbn [fst snd].
    reflexivity. }
  rewrite (run_filter_eq _ _ _ _ _ _ _ Hk) in Hmain.
  exists tr_pre. split; [exact Ho|].
  split; [|split; [|split; [|split; [|split]]]].
  - apply run_filters_run in Hr.
    destruct (filters_run_loaded _ _ _ _ _ _ _ _ _ Hr pre eq_refl Hpre)
      as [done [rest [E [Hl ->]]]].
    rewrite app_nil_r in E. subst done. exact Hl.
  - intros msg El. rewrite El in Hmain. cbn [fst snd] in Hmain.
    destruct Hmain as [H|[x H]]; [exact H | discriminate].
  - intros e El Ec. rewrite El, Ec in Hmain. cbn [fst snd] in Hmain.
    destruct Hmain as [H|[x H]]; [exact H | discriminate].
  - intros f e d' El Ec Ef. rewrite El, Ec, Ef in Hmain.
    cbn [fst snd] in Hmain.
    destruct Hmain as [H|[x H]]; [exact H | discriminate].
  - destruct (parsed_counts _ _ _ _ _ Hi) as [_ [C0 _]].
    rewrite count_app, (C0 K_render), (only_count_0 _ _ _ Ho) by not_listed.
    reflexivity.
  - destruct (parsed_counts _ _ _ _ _ Hi) as [_ [C0 _]].
    rewrite count_app, (C0 K_stdout), (only_count_0 _ _ _ Ho) by not_listed.
    reflexivity.
Qed.

Lemma failing_filter_ends_the_run_witness :
  let w := Toy.world 0 (Toy.text "# Hi") in
  let argv := ["cmark"; "--lua"; "zero.lua"; "--lua"; "code.lua";
               "--lua"; "skip.lua"] in
  exists tr0,
    main w argv =
    (tr0 ++ [E_lua_pcall 1 (LuaOther "code.lua") [LuaNode; LuaString "html"]
               (inl (LuaNumber (Finite 42)));
             E_fprintf_stderr ("Error running filter code.lua: 42" ++ nl)%string],
     Exit 5).
Proof.
  intros w argv.
  destruct (failing_filter_ends_the_run w argv
              (fst (parse_input w argv)) (Toy.scanned w argv)
              (cmark_parse w 0 [Toy.text "# Hi"])
              ["zero.lua"] "code.lua" ["skip.lua"]
              {| Toy.source := [Toy.text "# Hi"];
                 Toy.edits := ["zero.lua"] |})
    as [tr_pre [_ [_ [_ [_ [H _]]]]]];
    [vm_compute; reflexivity | reflexivity | vm_compute; reflexivity |].
  specialize (H (LuaOther "code.lua") (LuaNumber (Finite 42))
                {| Toy.source := [Toy.text "# Hi"];
                   Toy.edits := ["zero.lua"; "code.lua"] |}
                eq_refl eq_refl eq_refl).
  rewrite H. eexists. cbn [lua_tostring]. f_equal.
  rewrite !app_assoc.
  change (?a ++ ?x :: ?y :: ?z :: ?rest) with (a ++ [x; y] ++ z :: rest).
  rewrite app_assoc. reflexivity.
Defined.

Lemma filter_run_status w argv st i d s tr o :
  filter_run w argv st i d s tr (Return o) ->
  o = Undefined \/
  (o = Exit 3 /\
   exists msg tr0, load_failure w argv st i msg /\
                   tr = tr0 ++ [E_fprintf_stderr (msg ++ nl)%string]) \/
  (o = Exit 5 /\
   exists diagnostic tr0, invocation_failure w argv st i d diagnostic /\
                          tr = tr0 ++ [E_fprintf_stderr diagnostic]).
Proof.
  intros H. inversion H; subst.
  - left. reflexivity.
  - right. left. split; [reflexivity|].
    exists msg, (lua_setup i ++ [E_luaL_loadfile i path]).
    split; [exists path; auto | rewrite <- app_assoc; reflexivity].
  - right. left. split; [reflexivity|].
    exists msg, (lua_setup i ++ [E_luaL_loadfile i path;
                                  E_lua_pcall i (LuaChunk path) [] (inl e)]).
    split; [|rewrite <- app_assoc; reflexivity].
    exists path. split; [assumption|]. right. split; [assumption|].
    exists e. auto.
  - left. reflexivity.
  - right. right. split; [reflexivity|].
    eexists. exists (lua_setup i ++
      [E_luaL_loadfile i path; E_lua_pcall i (LuaChunk path) [] (inr f);
       E_lua_pcall i f [LuaNode; LuaString (format st)] (inl e)]).
    split; [|rewrite <- app_assoc; reflexivity].
    exists path, f, e, msg, document'.
    repeat (split; [assumption|]). reflexivity.
  - left. reflexivity.
Qed.

Lemma filters_run_status w argv st n i d s tr o :
  filters_run w argv st n i d s tr (Return o) ->
  o = Undefined \/
  (o = Exit 3 /\
   exists k msg tr0, load_failure w argv st k msg /\
                     tr = tr0 ++ [E_fprintf_stderr (msg ++ nl)%string]) \/
  (o = Exit 5 /\
   exists k d' diagnostic tr0,
     invocation_failure w argv st k d' diagnostic /\
     tr = tr0 ++ [E_fprintf_stderr diagnostic]).
Proof.
  intros H. remember (Return o) as r eqn:Er.
  induction H as [| ? ? ? ? ? ? H | ? ? ? ? ? ? ? ? ? H ? IH]; try discriminate.
  - injection Er as ->. apply filter_run_status in H.
    destruct H as [H|[[Ho [msg [tr0 H]]]|[Ho [dg [tr0 H]]]]].
    + left. exact H.
    + right. left. split; [exact Ho|]. exists i, msg, tr0. exact H.
    + right. right. split; [exact Ho|]. exists i, document, dg, tr0. exact H.
  - destruct (IH Er) as [Ho|[[Ho [k [msg [tr0 [H1 ->]]]]]
                            |[Ho [k [d' [dg [tr0 [H1 ->]]]]]]]].
    + left. exact Ho.
    + right. left. split; [exact Ho|].
      exists k, msg, (tr ++ tr0). split; [exact H1 | apply app_assoc].
    + right. right. split; [exact Ho|].
      exists k, d', dg, (tr ++ tr0). split; [exact H1 | apply app_assoc].
Qed.

(** X17.  The statuses 3 and 5 arise in no other way.  A run that
    returns 3 holds a tree and has a filter that failed to load, whose
    message is the last thing it printed, on standard error; a run that
    returns 5 holds a tree and has a filter that raised when invoked,
    and ends with the diagnostic of that failure.  Neither has made a
    render call or written to standard output.  A run that ends before
    it holds a tree ends with status 0 or 1 when it ends with a
    status. *)
Theorem statuses_3_and_5_come_from_failing_filters w argv tr o :
  main w argv = (tr, o) ->
  (o = Exit 3 ->
   exists tr_in st document k msg tr0,
     parse_input w argv = (tr_in, Continue (st, document)) /\
     load_failure w argv st k msg /\
     tr = tr0 ++ [E_fprintf_stderr (msg ++ nl)%string]) /\
  (o = Exit 5 ->
   exists tr_in st document k document' diagnostic tr0,
     parse_input w argv = (tr_in, Continue (st, document)) /\
     invocation_failure w argv st k document' diagnostic /\
     tr = tr0 ++ [E_fprintf_stderr diagnostic]) /\
  (o = Exit 3 \/ o = Exit 5 ->
   count K_render tr = O /\ count K_stdout tr = O /\ stdout_of tr = "") /\
  (forall tr' status,
     parse_input w argv = (tr', Return (Exit status)) ->
     status = 0 \/ status = 1).
Proof.
  intros Hm. split; [|split; [|split]].
  4: { intros tr' status Hi. apply parse_input_return in Hi.
       destruct Hi as [_ [H|[H|H]]]; try discriminate; injection H as ->;
         auto. }
  all: apply main_run in Hm;
    destruct Hm as [tr o Hi | tr_in st document tr_f o Hi Hf
                   | tr_in st document tr_f document' skip Hi Hf].
  - apply parse_input_return in Hi.
    destruct Hi as [_ [-> | [-> | ->]]]; discriminate.
  - pose proof (filters_run_status _ _ _ _ _ _ _ _ _ Hf) as Hs.
    intros ->. destruct Hs as [Hs|[[_ [k [msg [tr0 [H1 ->]]]]]|[Hs _]]];
      try discriminate.
    exists tr_in, st, document, k, msg, (tr_in ++ tr0).
    split; [exact Hi|]. split; [exact H1 | apply app_assoc].
  - discriminate.
  - apply parse_input_return in Hi.
    destruct Hi as [_ [-> | [-> | ->]]]; discriminate.
  - pose proof (filters_run_status _ _ _ _ _ _ _ _ _ Hf) as Hs.
    intros ->. destruct Hs as [Hs|[[Hs _]|[_ [k [d' [dg [tr0 [H1 ->]]]]]]]];
      try discriminate.
    exists tr_in, st, document, k, d', dg, (tr_in ++ tr0).
    split; [exact Hi|]. split; [exact H1 | apply app_assoc].
  - discriminate.
  - apply parse_input_return in Hi.
    destruct Hi as [_ [-> | [-> | ->]]]; intros [E|E]; discriminate E.
  - intros _. destruct (parsed_counts _ _ _ _ _ Hi) as [_ [C0 _]].
    assert (Hout : count K_stdout (tr_in ++ tr_f) = O).
    { rewrite count_app, (C0 K_stdout),
        (filters_counts _ _ _ _ _ _ _ _ _ _ Hf) by not_listed.
      reflexivity. }
    split; [|split; [exact Hout | apply stdout_of_silent; exact Hout]].
    rewrite count_app, (C0 K_render),
      (filters_counts _ _ _ _ _ _ _ _ _ _ Hf) by not_listed.
    reflexivity.
  - intros [E|E]; discriminate E.
Qed.

Lemma statuses_3_and_5_come_from_failing_filters_witness :
  let w := Toy.world 0 (Toy.text "# Hi") in
  let argv := ["cmark"; "--lua"; "zero.lua"; "--lua"; "raise.lua"] in
  count K_render (fst (main w argv)) = O /\
  count K_stdout (fst (main w argv)) = O /\
  stdout_of (fst (main w argv)) = "".
Proof.
  intros w argv.
  destruct (statuses_3_and_5_come_from_failing_filters w argv
              (fst (main w argv)) (snd (main w argv))
              (surjective_pairing _)) as [_ [_ [H _]]].
  apply H. right. vm_compute. reflexivity.
Defined.
